(** * GL shader reflection: variable-tree reconstruction and SPIR-V listing

    A shallow embedding of [renderdoc/driver/gl/gl_shader_refl.cpp]:
    - [sort], the recursive ordering of a constant tree by register, with
      the [std::sort] it calls as the GNU C++ library implements it;
    - [ReconstructVarTree], which turns one program-introspection record
      with a dotted / bracketed name into nodes of a constant tree;
    - [DisassembleSPIRV], the two-pass textual listing of a SPIR-V stream;
    - [CheckVertexOutputUses], the search for writes to two built-in outputs;
    - the part of [MakeSeparableShaderProgram] that patches the sources;
    - the part of [MakeShaderReflection] that makes the elements of a
      signature, and the parts of [GetBindpointMapping] that work on names
      and on the vertex attributes.

    C++ runs that leave the language's defined behaviour (an access past the
    storage of a [std::string] or [std::vector], a signed overflow) are
    modelled by the outcome [Undefined]; loops whose termination depends on
    the input take a loop budget and answer [Timeout] when it runs out. *)

From Stdlib Require Import ZArith Ascii String.
From stdpp Require Import base numbers list strings sorting pretty.

Local Open Scope Z_scope.

(** ** Outcomes of a C++ call *)

Inductive fault : Type :=
| OutOfBounds      (* operator[] outside the storage of a string or vector *)
| SignedOverflow.  (* int arithmetic leaving the int range *)

Inductive outcome (A : Type) : Type :=
| Done (a : A)
| Undefined (why : fault)
| Timeout.

Arguments Done {A} a.
Arguments Undefined {A} why.
Arguments Timeout {A}.

Global Instance outcome_ret : MRet outcome := λ A a, Done a.
Global Instance outcome_bind : MBind outcome := λ A B k m,
  match m with
  | Done a => k a
  | Undefined why => Undefined why
  | Timeout => Timeout
  end.

Definition returns {A} (m : outcome A) : Prop := ∃ a, m = Done a.

(** ** Machine integers *)

Definition INT_MAX : Z := 2147483647.
Definition UINT_MAX : Z := 4294967295.          (* ~0U *)
Definition to_uint32 (z : Z) : Z := z mod 2 ^ 32.
Definition to_uint16 (z : Z) : Z := z mod 2 ^ 16.

(** Modelled from the spec: the macros [RDCMAX] and [RDCMIN] are declared
    outside this file; the specification reads them as maximum and
    minimum. *)
Definition RDCMAX (a b : Z) : Z := if a <? b then b else a.
Definition RDCMIN (a b : Z) : Z := if a <? b then a else b.

(** ** The constant tree *)

(** Modelled from the spec: the enumeration [VarType] is declared outside
    this file; these are the four values the function assigns. *)
Inductive VarType : Type := eVar_Float | eVar_Int | eVar_UInt | eVar_Double.

Record Descriptor : Type := mkDescriptor {
  d_type : VarType;
  d_rows : Z;
  d_cols : Z;
  d_elements : Z;
  d_rowMajorStorage : bool;
  d_name : string
}.

Record Reg : Type := mkReg { vec : Z; comp : Z }.

(** [DynShaderVariableType] owns the vector of member constants, and every
    [DynShaderConstant] owns its type. *)
Inductive DynShaderVariableType : Type :=
  mkVarType { descriptor : Descriptor; members : list DynShaderConstant }
with DynShaderConstant : Type :=
  mkConstant { name : string; reg : Reg; type : DynShaderVariableType }.

Definition elements (v : DynShaderConstant) : Z := d_elements (descriptor (type v)).
Definition children (v : DynShaderConstant) : list DynShaderConstant := members (type v).

Definition set_elements (e : Z) (d : Descriptor) : Descriptor :=
  mkDescriptor (d_type d) (d_rows d) (d_cols d) e (d_rowMajorStorage d) (d_name d).

Definition set_members (ms : list DynShaderConstant) (v : DynShaderConstant)
  : DynShaderConstant :=
  mkConstant (name v) (reg v) (mkVarType (descriptor (type v)) ms).

Section tree_induction.
Variable P : DynShaderConstant → Prop.
Hypothesis step : ∀ n r d ms, Forall P ms → P (mkConstant n r (mkVarType d ms)).

Fixpoint DynShaderConstant_tree_ind (v : DynShaderConstant) : P v :=
  match v with
  | mkConstant n r (mkVarType d ms) =>
      step n r d ms
        ((fix all (l : list DynShaderConstant) : Forall P l :=
            match l with
            | [] => @List.Forall_nil _ P
            | x :: l' => @List.Forall_cons _ P x l' (DynShaderConstant_tree_ind x) (all l')
            end) ms)
  end.
End tree_induction.

Fixpoint height (v : DynShaderConstant) : nat :=
  match v with
  | mkConstant _ _ (mkVarType _ ms) => S (max_list (map height ms))
  end.

(** ** Program-introspection records *)

(** Modelled from the spec: the GL type enumerants are declared outside this
    file.  There is one constructor for each enumerant that the
    classification switches name; every other value of [values[0]]
    (samplers, images, atomic counters) is [eGL_OTHER_TYPE]. *)
Inductive GLtype : Type :=
| eGL_FLOAT_VEC4 | eGL_FLOAT_VEC3 | eGL_FLOAT_VEC2 | eGL_FLOAT
| eGL_FLOAT_MAT4 | eGL_FLOAT_MAT3 | eGL_FLOAT_MAT2
| eGL_FLOAT_MAT4x2 | eGL_FLOAT_MAT4x3 | eGL_FLOAT_MAT3x4
| eGL_FLOAT_MAT3x2 | eGL_FLOAT_MAT2x4 | eGL_FLOAT_MAT2x3
| eGL_DOUBLE_VEC4 | eGL_DOUBLE_VEC3 | eGL_DOUBLE_VEC2 | eGL_DOUBLE
| eGL_DOUBLE_MAT4 | eGL_DOUBLE_MAT3 | eGL_DOUBLE_MAT2
| eGL_DOUBLE_MAT4x2 | eGL_DOUBLE_MAT4x3 | eGL_DOUBLE_MAT3x4
| eGL_DOUBLE_MAT3x2 | eGL_DOUBLE_MAT2x4 | eGL_DOUBLE_MAT2x3
| eGL_UNSIGNED_INT_VEC4 | eGL_UNSIGNED_INT_VEC3 | eGL_UNSIGNED_INT_VEC2
| eGL_UNSIGNED_INT
| eGL_BOOL_VEC4 | eGL_BOOL_VEC3 | eGL_BOOL_VEC2 | eGL_BOOL
| eGL_INT_VEC4 | eGL_INT_VEC3 | eGL_INT_VEC2 | eGL_INT
| eGL_OTHER_TYPE.

(** What [glGetProgramResourceiv] and [glGetProgramResourceName] answer for
    one variable.  [eGL_NAME_LENGTH] counts the terminating NUL, so
    [values[1] - 1] is the length of [res_name]. *)
Record ProgramResource : Type := mkResource {
  res_type : GLtype;       (* values[0], eGL_TYPE *)
  res_name : string;       (* the characters written into var.name *)
  res_location : Z;        (* values[2], eGL_LOCATION (eGL_OFFSET for buffer variables) *)
  res_block_index : Z;     (* values[3], eGL_BLOCK_INDEX *)
  res_array_size : Z;      (* values[4], eGL_ARRAY_SIZE *)
  res_offset : Z;          (* values[5], eGL_OFFSET *)
  res_is_row_major : Z     (* values[6], eGL_IS_ROW_MAJOR *)
}.

(** First switch: the variable kind, or [None] where the function returns
    ("not a variable (sampler etc)"). *)
Definition var_type_of (t : GLtype) : option VarType :=
  match t with
  | eGL_FLOAT_VEC4 | eGL_FLOAT_VEC3 | eGL_FLOAT_VEC2 | eGL_FLOAT
  | eGL_FLOAT_MAT4 | eGL_FLOAT_MAT3 | eGL_FLOAT_MAT2
  | eGL_FLOAT_MAT4x2 | eGL_FLOAT_MAT4x3 | eGL_FLOAT_MAT3x4
  | eGL_FLOAT_MAT3x2 | eGL_FLOAT_MAT2x4 | eGL_FLOAT_MAT2x3 => Some eVar_Float
  | eGL_DOUBLE_VEC4 | eGL_DOUBLE_VEC3 | eGL_DOUBLE_VEC2 | eGL_DOUBLE
  | eGL_DOUBLE_MAT4 | eGL_DOUBLE_MAT3 | eGL_DOUBLE_MAT2
  | eGL_DOUBLE_MAT4x2 | eGL_DOUBLE_MAT4x3 | eGL_DOUBLE_MAT3x4
  | eGL_DOUBLE_MAT3x2 | eGL_DOUBLE_MAT2x4 | eGL_DOUBLE_MAT2x3 => Some eVar_Double
  | eGL_UNSIGNED_INT_VEC4 | eGL_UNSIGNED_INT_VEC3 | eGL_UNSIGNED_INT_VEC2
  | eGL_UNSIGNED_INT
  | eGL_BOOL_VEC4 | eGL_BOOL_VEC3 | eGL_BOOL_VEC2 | eGL_BOOL => Some eVar_UInt
  | eGL_INT_VEC4 | eGL_INT_VEC3 | eGL_INT_VEC2 | eGL_INT => Some eVar_Int
  | eGL_OTHER_TYPE => None
  end.

(** Second switch: rows, 1 unless the type is a matrix. *)
Definition rows_of (t : GLtype) : Z :=
  match t with
  | eGL_FLOAT_MAT4 | eGL_DOUBLE_MAT4 | eGL_FLOAT_MAT2x4 | eGL_DOUBLE_MAT2x4
  | eGL_FLOAT_MAT3x4 | eGL_DOUBLE_MAT3x4 => 4
  | eGL_FLOAT_MAT3 | eGL_DOUBLE_MAT3 | eGL_FLOAT_MAT4x3 | eGL_DOUBLE_MAT4x3
  | eGL_FLOAT_MAT2x3 | eGL_DOUBLE_MAT2x3 => 3
  | eGL_FLOAT_MAT2 | eGL_DOUBLE_MAT2 | eGL_FLOAT_MAT4x2 | eGL_DOUBLE_MAT4x2
  | eGL_FLOAT_MAT3x2 | eGL_DOUBLE_MAT3x2 => 2
  | _ => 1
  end.

(** Third switch: columns.  Its [default] leaves the field unset; no type
    that passed the first switch reaches it. *)
Definition cols_of (t : GLtype) : Z :=
  match t with
  | eGL_FLOAT_VEC4 | eGL_FLOAT_MAT4 | eGL_FLOAT_MAT4x2 | eGL_FLOAT_MAT4x3
  | eGL_DOUBLE_VEC4 | eGL_DOUBLE_MAT4 | eGL_DOUBLE_MAT4x2 | eGL_DOUBLE_MAT4x3
  | eGL_UNSIGNED_INT_VEC4 | eGL_BOOL_VEC4 | eGL_INT_VEC4 => 4
  | eGL_FLOAT_VEC3 | eGL_FLOAT_MAT3 | eGL_FLOAT_MAT3x4 | eGL_FLOAT_MAT3x2
  | eGL_DOUBLE_VEC3 | eGL_DOUBLE_MAT3 | eGL_DOUBLE_MAT3x4 | eGL_DOUBLE_MAT3x2
  | eGL_UNSIGNED_INT_VEC3 | eGL_BOOL_VEC3 | eGL_INT_VEC3 => 3
  | eGL_FLOAT_VEC2 | eGL_FLOAT_MAT2 | eGL_FLOAT_MAT2x4 | eGL_FLOAT_MAT2x3
  | eGL_DOUBLE_VEC2 | eGL_DOUBLE_MAT2 | eGL_DOUBLE_MAT2x4 | eGL_DOUBLE_MAT2x3
  | eGL_UNSIGNED_INT_VEC2 | eGL_BOOL_VEC2 | eGL_INT_VEC2 => 2
  | eGL_FLOAT | eGL_DOUBLE | eGL_UNSIGNED_INT | eGL_INT | eGL_BOOL => 1
  | eGL_OTHER_TYPE => 0
  end.

(** Fourth switch: the GLSL type name. *)
Definition type_name_of (t : GLtype) : string :=
  match t with
  | eGL_FLOAT_VEC4 => "vec4" | eGL_FLOAT_VEC3 => "vec3" | eGL_FLOAT_VEC2 => "vec2"
  | eGL_FLOAT => "float"
  | eGL_FLOAT_MAT4 => "mat4" | eGL_FLOAT_MAT3 => "mat3" | eGL_FLOAT_MAT2 => "mat2"
  | eGL_FLOAT_MAT4x2 => "mat4x2" | eGL_FLOAT_MAT4x3 => "mat4x3"
  | eGL_FLOAT_MAT3x4 => "mat3x4" | eGL_FLOAT_MAT3x2 => "mat3x2"
  | eGL_FLOAT_MAT2x4 => "mat2x4" | eGL_FLOAT_MAT2x3 => "mat2x3"
  | eGL_DOUBLE_VEC4 => "dvec4" | eGL_DOUBLE_VEC3 => "dvec3" | eGL_DOUBLE_VEC2 => "dvec2"
  | eGL_DOUBLE => "double"
  | eGL_DOUBLE_MAT4 => "dmat4" | eGL_DOUBLE_MAT3 => "dmat3" | eGL_DOUBLE_MAT2 => "dmat2"
  | eGL_DOUBLE_MAT4x2 => "dmat4x2" | eGL_DOUBLE_MAT4x3 => "dmat4x3"
  | eGL_DOUBLE_MAT3x4 => "dmat3x4" | eGL_DOUBLE_MAT3x2 => "dmat3x2"
  | eGL_DOUBLE_MAT2x4 => "dmat2x4" | eGL_DOUBLE_MAT2x3 => "dmat2x3"
  | eGL_UNSIGNED_INT_VEC4 => "uvec4" | eGL_UNSIGNED_INT_VEC3 => "uvec3"
  | eGL_UNSIGNED_INT_VEC2 => "uvec2" | eGL_UNSIGNED_INT => "uint"
  | eGL_BOOL_VEC4 => "bvec4" | eGL_BOOL_VEC3 => "bvec3" | eGL_BOOL_VEC2 => "bvec2"
  | eGL_BOOL => "bool"
  | eGL_INT_VEC4 => "ivec4" | eGL_INT_VEC3 => "ivec3" | eGL_INT_VEC2 => "ivec2"
  | eGL_INT => "int"
  | eGL_OTHER_TYPE => ""
  end.

(** The register of the variable: its location when it has no offset, the
    offset in units of vec4 and float otherwise, [~0U] when it has neither. *)
Definition var_reg (r : ProgramResource) : Reg :=
  if (res_offset r =? -1) && (0 <=? res_location r) then mkReg (res_location r) 0
  else if 0 <=? res_offset r
       then mkReg (res_offset r `quot` 16) ((res_offset r `quot` 4) `rem` 4)
       else mkReg UINT_MAX UINT_MAX.

(** ** Characters of a name *)

Definition NUL : ascii := "000"%char.

(** [s[i]] for a [std::string] and an [int] index [i]: position [size()]
    holds the terminator; a negative [i] converts to a [size_t] beyond any
    string, so it is outside the storage like every position past
    [size()]. *)
Definition string_at (s : string) (i : Z) : outcome ascii :=
  if (0 <=? i) && (i <=? Z.of_nat (String.length s))
  then Done (default NUL (String.get (Z.to_nat i) s))
  else Undefined OutOfBounds.

(** The test of "trim off trailing [0] if it's an array", with [c] the
    length of the name and the short-circuit order of [&&]. *)
Definition ends_in_index_zero (s : string) : outcome bool :=
  let c := Z.of_nat (String.length s) in
  a ← string_at s (c - 3);
  if negb (Ascii.eqb a "[") then mret false else
  b ← string_at s (c - 2);
  if negb (Ascii.eqb b "0") then mret false else
  d ← string_at s (c - 1);
  mret (Ascii.eqb d "]").

(** Lines 416 to 633: the variable as it stands before a parent is chosen;
    [None] when the type switch returned. *)
Definition describe (r : ProgramResource) : outcome (option DynShaderConstant) :=
  let elements0 := RDCMAX 1 (res_array_size r) in
  match var_type_of (res_type r) with
  | None => mret None
  | Some ty =>
      let nm := res_name r in
      let c := String.length nm in
      trimmed ← ends_in_index_zero nm;
      let nm' := if trimmed : bool then String.substring 0 (c - 3) nm else nm in
      let el := if trimmed : bool then elements0 else 0 in
      mret (Some (mkConstant nm' (var_reg r)
                    (mkVarType
                       (mkDescriptor ty (rows_of (res_type r)) (cols_of (res_type r)) el
                          (0 <? res_is_row_major r) (type_name_of (res_type r)))
                       [])))
  end.

(** ** ReconstructVarTree: walking the name *)

(** Modelled from the spec: [RDCWARN] and [RDCASSERT] are declared outside
    this file.  A warning is an entry of the log; an assertion that fails
    leaves the run as it is. *)
Inductive log_entry : Type :=
| WarnNoParentBlock (nm : string) (index : Z)
    (* "Found variable '%s' without parent block index '%d'" *)
| WarnNakedArray.
    (* "Unexpected naked array as member (expected only one [0], ..." *)

(** The C string that starts at a position: its characters up to the first
    NUL. *)
Fixpoint c_str (s : string) : string :=
  match s with
  | EmptyString => EmptyString
  | String a s' => if Ascii.eqb a NUL then EmptyString else String a (c_str s')
  end.

(** [strchr(nm, ch) != NULL] for a character other than NUL. *)
Fixpoint strchr (s : string) (ch : ascii) : bool :=
  match s with
  | EmptyString => false
  | String a s' =>
      if Ascii.eqb a NUL then false
      else if Ascii.eqb a ch then true
      else strchr s' ch
  end.

Definition is_separator (a : ascii) : bool := Ascii.eqb a "." || Ascii.eqb a "[".

(** [while( *nm != '.' && *nm != '[') nm++;] followed by [*nm = 0; nm++;]:
    the base name, the separator that ended it, and what follows.  Stepping
    over the terminator leaves the string. *)
Fixpoint split_base (s : string) : outcome (string * ascii * string) :=
  match s with
  | EmptyString => Undefined OutOfBounds
  | String a s' =>
      if is_separator a then Done (EmptyString, a, s')
      else '(b, sep, rest) ← split_base s'; Done (String a b, sep, rest)
  end.

Definition is_digit (a : ascii) : bool :=
  let n := Z.of_nat (nat_of_ascii a) in (48 <=? n) && (n <=? 57).

Definition digit_value (a : ascii) : Z := Z.of_nat (nat_of_ascii a) - 48.

(** "get array index, it's always a decimal number", in [int] arithmetic. *)
Fixpoint parse_index (s : string) (arrayIdx : Z) : outcome (Z * string) :=
  match s with
  | EmptyString => Done (arrayIdx, EmptyString)
  | String a s' =>
      if is_digit a then
        let x10 := arrayIdx * 10 in
        if INT_MAX <? x10 then Undefined SignedOverflow else
        let idx := x10 + digit_value a in
        if INT_MAX <? idx then Undefined SignedOverflow else
        parse_index s' idx
      else Done (arrayIdx, s)
  end.

(** The [if(isarray)] block: the index, then the character at the place of
    the closing bracket is overwritten (the assertion on it changes nothing),
    then either a '.' leads to the child name, or the array is naked
    ([None]). *)
Definition array_segment (s : string) : outcome (option (Z * string)) :=
  '(arrayIdx, s1) ← parse_index s 0;
  match s1 with
  | EmptyString => Undefined OutOfBounds
  | String _ s2 =>
      match s2 with
      | String a s3 => if Ascii.eqb a "." then Done (Some (arrayIdx, s3)) else Done None
      | EmptyString => Done None
      end
  end.

(** [isarray ? RDCMAX(1U, uint32_t(arrayIdx+1)) : 0] *)
Definition parent_elements (isarray : bool) (arrayIdx : Z) : outcome Z :=
  if isarray then
    if INT_MAX <? arrayIdx + 1 then Undefined SignedOverflow
    else Done (RDCMAX 1 (to_uint32 (arrayIdx + 1)))
  else Done 0.

(** "construct a parent variable" *)
Definition make_parent (base : string) (var : DynShaderConstant) (elems : Z)
  : DynShaderConstant :=
  mkConstant base (mkReg (vec (reg var)) 0)
    (mkVarType
       (mkDescriptor (d_type (descriptor (type var))) 0 0 elems false "struct")
       []).

(** "if we find the variable, update the # elements to account for this new
    array index and pick the minimum offset of all of our children" *)
Definition merge_parent (parentVar found : DynShaderConstant) : DynShaderConstant :=
  mkConstant (name found)
    (mkReg (RDCMIN (vec (reg found)) (vec (reg parentVar))) (comp (reg found)))
    (mkVarType
       (set_elements (RDCMAX (elements found) (elements parentVar))
          (descriptor (type found)))
       (members (type found))).

Definition rename (n : string) (v : DynShaderConstant) : DynShaderConstant :=
  mkConstant n (reg v) (type v).

(** The [while(strchr(nm, '.') || strchr(nm, '['))] loop and the final
    [push_back].  [parentmembers] is the vector the pointer of that name
    designates; descending into the members of a node is the recursive call,
    whose result is stored back in the node.  The second component collects
    the warnings. *)
Fixpoint walk (budget : nat) (var : DynShaderConstant) (nm : string)
    (parentmembers : list DynShaderConstant)
  : outcome (list DynShaderConstant * list log_entry) :=
  match budget with
  | O => Timeout
  | S budget' =>
      if strchr nm "." || strchr nm "[" then
        '(base, sep, nm1) ← split_base nm;
        let isarray := Ascii.eqb sep "[" in
        seg ← (if isarray then array_segment nm1 else Done (Some (0, nm1)));
        match seg with
        | None => Done (parentmembers, [WarnNakedArray])
        | Some (arrayIdx, nm2) =>
            elems ← parent_elements isarray arrayIdx;
            let parentVar := make_parent base var elems in
            match list_find (λ v, name v = base) parentmembers with
            | Some (i, found) =>
                let node := merge_parent parentVar found in
                if 0 <? arrayIdx then Done (<[i := node]> parentmembers, [])
                else
                  '(ms, lg) ← walk budget' var nm2 (children node);
                  Done (<[i := set_members ms node]> parentmembers, lg)
            | None =>
                if 0 <? arrayIdx then Done (parentmembers ++ [parentVar], [])
                else
                  '(ms, lg) ← walk budget' var nm2 [];
                  Done (parentmembers ++ [set_members ms parentVar], lg)
            end
        end
      else Done (parentmembers ++ [rename (c_str nm) var], [])
  end.

(** The vectors a run of calls writes to, and the warnings logged so far. *)
Record TreeState : Type := mkTreeState {
  parentBlocks : list (list DynShaderConstant);
  defaultBlock : option (list DynShaderConstant);    (* None: the NULL pointer *)
  warnings : list log_entry
}.

Definition ReconstructVarTree (numParentBlocks : Z) (r : ProgramResource)
    (st : TreeState) : outcome TreeState :=
  d ← describe r;
  match d with
  | None => Done st
  | Some var =>
      let idx := res_block_index r in
      let nm := name var in
      if negb (idx =? -1) && (idx <? numParentBlocks) then
        match (if 0 <=? idx then parentBlocks st !! Z.to_nat idx else None) with
        | None => Undefined OutOfBounds
        | Some parentmembers =>
            '(ms, lg) ← walk (S (String.length nm)) var nm parentmembers;
            Done (mkTreeState (<[Z.to_nat idx := ms]> (parentBlocks st))
                    (defaultBlock st) (warnings st ++ lg))
        end
      else
        match defaultBlock st with
        | None =>
            Done (mkTreeState (parentBlocks st) None
                    (warnings st ++ [WarnNoParentBlock (c_str nm) idx]))
        | Some parentmembers =>
            '(ms, lg) ← walk (S (String.length nm)) var nm parentmembers;
            Done (mkTreeState (parentBlocks st) (Some ms) (warnings st ++ lg))
        end
  end.

(** The loops of [MakeShaderReflection] that call it once per variable. *)
Fixpoint reconstruct_all (numParentBlocks : Z) (rs : list ProgramResource)
    (st : TreeState) : outcome TreeState :=
  match rs with
  | [] => Done st
  | r :: rs' =>
      st' ← ReconstructVarTree numParentBlocks r st;
      reconstruct_all numParentBlocks rs' st'
  end.

(** Uniforms start from [numUBOs] empty vectors and an empty [globalUniforms];
    buffer variables start from one empty vector per storage block and no
    default block. *)
Definition uniforms_start (numUBOs : nat) : TreeState :=
  mkTreeState (replicate numUBOs []) (Some []) [].
Definition buffer_variables_start (numSSBOs : nat) : TreeState :=
  mkTreeState (replicate numSSBOs []) None [].

(** ** sort *)

(** The comparator [offset_sort]: by [reg.vec], then by [reg.comp]. *)
Definition offset_sort (a b : DynShaderConstant) : bool :=
  if vec (reg a) =? vec (reg b) then comp (reg a) <? comp (reg b)
  else vec (reg a) <? vec (reg b).

(** What [std::sort] leaves once it returns: [!comp(later, earlier)] for
    every two places. *)
Definition offset_sorted (l : list DynShaderConstant) : Prop :=
  StronglySorted (λ a b, offset_sort b a = false) l.

(** [std::sort] with that comparator.  The C++ library fixes its result only
    up to the order of equivalent elements, so the properties of [sort] are
    proved for any function that meets the library's contract: the range is
    rearranged, and is sorted afterwards. *)
Record StdSort : Type := mkStdSort {
  std_sort :> list DynShaderConstant → list DynShaderConstant;
  std_sort_permutes : ∀ l, std_sort l ≡ₚ l;
  std_sort_sorts : ∀ l, offset_sorted (std_sort l)
}.

(** [sort], over the function [lib] that the program is linked with as
    [std::sort]: the vector is sorted, then the members of each of its
    elements.  The recursion is on the depth of the tree. *)
Fixpoint sort_to_depth (lib : list DynShaderConstant → list DynShaderConstant)
    (depth : nat) (vars : list DynShaderConstant) : list DynShaderConstant :=
  match depth with
  | O => vars
  | S depth' =>
      match vars with
      | [] => []
      | _ =>
          map (λ v, set_members (sort_to_depth lib depth' (children v)) v)
            (lib vars)
      end
  end.

Definition sort (lib : list DynShaderConstant → list DynShaderConstant)
    (vars : list DynShaderConstant) : list DynShaderConstant :=
  sort_to_depth lib (max_list (map height vars)) vars.

(** After the calls of [ReconstructVarTree], [MakeShaderReflection] sorts
    the vector of every block, and the default block when there is one,
    before it copies them out. *)
Definition sort_blocks (lib : list DynShaderConstant → list DynShaderConstant)
    (st : TreeState) : TreeState :=
  mkTreeState (map (sort lib) (parentBlocks st))
    (sort lib <$> defaultBlock st) (warnings st).

(** *** std::sort in the GNU C++ library *)

(** The function that [sort] calls belongs to the C++ library the program is
    built with.  This is [std::sort] as libstdc++ has it ([bits/stl_algo.h]
    and [bits/stl_heap.h] of GCC 12), function by function: an introsort
    that partitions around the median of three elements while a range has
    more than 16 of them, falls back to a heap sort when the partitioning
    goes too deep, and is finished by an insertion sort.  A range is a
    vector and two positions in it; a position outside the vector is read
    or written outside its storage. *)
Module libstdcxx.
Section sort.
Context {A : Type} (comp : A → A → bool).

Definition iter_read (v : list A) (i : Z) : outcome A :=
  if 0 <=? i then
    match v !! Z.to_nat i with
    | Some x => Done x
    | None => Undefined OutOfBounds
    end
  else Undefined OutOfBounds.

Definition iter_write (v : list A) (i : Z) (x : A) : outcome (list A) :=
  if (0 <=? i) && (i <? Z.of_nat (length v))
  then Done (<[Z.to_nat i := x]> v)
  else Undefined OutOfBounds.

Definition iter_swap (v : list A) (a b : Z) : outcome (list A) :=
  x ← iter_read v a;
  y ← iter_read v b;
  v ← iter_write v a y;
  iter_write v b x.

(** [__move_median_to_first] *)
Definition move_median_to_first (v : list A) (result a b c : Z)
  : outcome (list A) :=
  xa ← iter_read v a;
  xb ← iter_read v b;
  xc ← iter_read v c;
  if comp xa xb then
    if comp xb xc then iter_swap v result b
    else if comp xa xc then iter_swap v result c
    else iter_swap v result a
  else if comp xa xc then iter_swap v result a
  else if comp xb xc then iter_swap v result c
  else iter_swap v result b.

(** [while (__comp(__first, __pivot)) ++__first;] *)
Fixpoint up_to_pivot (fuel : nat) (v : list A) (first pivot : Z) : outcome Z :=
  match fuel with
  | O => Timeout
  | S fuel' =>
      x ← iter_read v first;
      p ← iter_read v pivot;
      if comp x p then up_to_pivot fuel' v (first + 1) pivot else Done first
  end.

(** [while (__comp(__pivot, __last)) --__last;] *)
Fixpoint down_to_pivot (fuel : nat) (v : list A) (pivot last : Z) : outcome Z :=
  match fuel with
  | O => Timeout
  | S fuel' =>
      p ← iter_read v pivot;
      x ← iter_read v last;
      if comp p x then down_to_pivot fuel' v pivot (last - 1) else Done last
  end.

(** [__unguarded_partition]: the two inner loops are not guarded by the ends
    of the range; they leave the vector after at most as many steps as it
    has elements. *)
Fixpoint unguarded_partition (fuel : nat) (v : list A) (first last pivot : Z)
  : outcome (list A * Z) :=
  match fuel with
  | O => Timeout
  | S fuel' =>
      first ← up_to_pivot (S (length v)) v first pivot;
      last ← down_to_pivot (S (length v)) v pivot (last - 1);
      if negb (first <? last) then Done (v, first)
      else
        v ← iter_swap v first last;
        unguarded_partition fuel' v (first + 1) last pivot
  end.

(** [__unguarded_partition_pivot] *)
Definition unguarded_partition_pivot (v : list A) (first last : Z)
  : outcome (list A * Z) :=
  let mid := first + (last - first) `quot` 2 in
  v ← move_median_to_first v first (first + 1) mid (last - 1);
  unguarded_partition (S (length v)) v (first + 1) last first.

(** [__push_heap] *)
Fixpoint push_heap (fuel : nat) (v : list A) (first holeIndex topIndex : Z)
    (value : A) : outcome (list A) :=
  match fuel with
  | O => Timeout
  | S fuel' =>
      let parent := (holeIndex - 1) `quot` 2 in
      if topIndex <? holeIndex then
        p ← iter_read v (first + parent);
        if comp p value then
          v ← iter_write v (first + holeIndex) p;
          push_heap fuel' v first parent topIndex value
        else iter_write v (first + holeIndex) value
      else iter_write v (first + holeIndex) value
  end.

(** The [while] loop of [__adjust_heap]: the vector, [__holeIndex] and
    [__secondChild] it leaves. *)
Fixpoint sift_down (fuel : nat) (v : list A) (first holeIndex secondChild len : Z)
  : outcome (list A * Z * Z) :=
  match fuel with
  | O => Timeout
  | S fuel' =>
      if secondChild <? (len - 1) `quot` 2 then
        let secondChild := 2 * (secondChild + 1) in
        a ← iter_read v (first + secondChild);
        b ← iter_read v (first + (secondChild - 1));
        let secondChild := if comp a b then secondChild - 1 else secondChild in
        x ← iter_read v (first + secondChild);
        v ← iter_write v (first + holeIndex) x;
        sift_down fuel' v first secondChild secondChild len
      else Done (v, holeIndex, secondChild)
  end.

(** [__adjust_heap] *)
Definition adjust_heap (v : list A) (first holeIndex len : Z) (value : A)
  : outcome (list A) :=
  let topIndex := holeIndex in
  '(v, holeIndex, secondChild) ←
    sift_down (S (length v)) v first holeIndex holeIndex len;
  '(v, holeIndex) ←
    (if (Z.land len 1 =? 0) && (secondChild =? (len - 2) `quot` 2) then
       let secondChild := 2 * (secondChild + 1) in
       x ← iter_read v (first + (secondChild - 1));
       v ← iter_write v (first + holeIndex) x;
       Done (v, secondChild - 1)
     else Done (v, holeIndex));
  push_heap (S (length v)) v first holeIndex topIndex value.

(** [__pop_heap] *)
Definition pop_heap (v : list A) (first last result : Z) : outcome (list A) :=
  value ← iter_read v result;
  x ← iter_read v first;
  v ← iter_write v result x;
  adjust_heap v first 0 (last - first) value.

(** The loop of [__make_heap], from [__parent] down to 0. *)
Fixpoint make_heap_from (fuel : nat) (v : list A) (first len parent : Z)
  : outcome (list A) :=
  match fuel with
  | O => Timeout
  | S fuel' =>
      value ← iter_read v (first + parent);
      v ← adjust_heap v first parent len value;
      if parent =? 0 then Done v
      else make_heap_from fuel' v first len (parent - 1)
  end.

(** [__make_heap] *)
Definition make_heap (v : list A) (first last : Z) : outcome (list A) :=
  if last - first <? 2 then Done v
  else
    let len := last - first in
    make_heap_from (S (length v)) v first len ((len - 2) `quot` 2).

(** [__sort_heap] *)
Fixpoint sort_heap (fuel : nat) (v : list A) (first last : Z)
  : outcome (list A) :=
  match fuel with
  | O => Timeout
  | S fuel' =>
      if 1 <? last - first then
        v ← pop_heap v first (last - 1) (last - 1);
        sort_heap fuel' v first (last - 1)
      else Done v
  end.

(** The [for] loop of [__heap_select]. *)
Fixpoint heap_select_from (fuel : nat) (v : list A) (first middle i last : Z)
  : outcome (list A) :=
  match fuel with
  | O => Timeout
  | S fuel' =>
      if i <? last then
        x ← iter_read v i;
        top ← iter_read v first;
        v ← (if comp x top then pop_heap v first middle i else Done v);
        heap_select_from fuel' v first middle (i + 1) last
      else Done v
  end.

(** [__heap_select] and [__partial_sort] *)
Definition heap_select (v : list A) (first middle last : Z) : outcome (list A) :=
  v ← make_heap v first middle;
  heap_select_from (S (length v)) v first middle middle last.

Definition partial_sort (v : list A) (first middle last : Z) : outcome (list A) :=
  v ← heap_select v first middle last;
  sort_heap (S (length v)) v first middle.

(** [enum { _S_threshold = 16 }] *)
Definition S_threshold : Z := 16.

(** [__introsort_loop]: each turn of its loop takes one from
    [__depth_limit], and the call for the upper part gets what is left. *)
Fixpoint introsort_loop (depth_limit : nat) (v : list A) (first last : Z)
  : outcome (list A) :=
  if S_threshold <? last - first then
    match depth_limit with
    | O => partial_sort v first last last
    | S depth_limit' =>
        '(v, cut) ← unguarded_partition_pivot v first last;
        v ← introsort_loop depth_limit' v cut last;
        introsort_loop depth_limit' v first cut
    end
  else Done v.

(** The loop of [__unguarded_linear_insert], with
    [__val_comp_iter(__comp)]. *)
Fixpoint linear_insert_loop (fuel : nat) (v : list A) (val : A) (last next : Z)
  : outcome (list A) :=
  match fuel with
  | O => Timeout
  | S fuel' =>
      x ← iter_read v next;
      if comp val x then
        v ← iter_write v last x;
        linear_insert_loop fuel' v val next (next - 1)
      else iter_write v last val
  end.

(** [__unguarded_linear_insert] *)
Definition unguarded_linear_insert (v : list A) (last : Z) : outcome (list A) :=
  val ← iter_read v last;
  linear_insert_loop (S (length v)) v val last (last - 1).

(** [__val = *__i; move_backward(__first, __i, __i + 1); *__first = __val;] *)
Definition move_to_first (v : list A) (first i : Z) : outcome (list A) :=
  val ← iter_read v i;
  if (0 <=? first) && (first <=? i) then
    Done (take (Z.to_nat first) v ++
          val :: take (Z.to_nat (i - first)) (drop (Z.to_nat first) v) ++
          drop (Z.to_nat (i + 1)) v)
  else Undefined OutOfBounds.

(** The [for] loop of [__insertion_sort]. *)
Fixpoint insertion_sort_from (fuel : nat) (v : list A) (first i last : Z)
  : outcome (list A) :=
  match fuel with
  | O => Timeout
  | S fuel' =>
      if i =? last then Done v
      else
        x ← iter_read v i;
        low ← iter_read v first;
        v ← (if comp x low then move_to_first v first i
             else unguarded_linear_insert v i);
        insertion_sort_from fuel' v first (i + 1) last
  end.

(** [__insertion_sort] *)
Definition insertion_sort (v : list A) (first last : Z) : outcome (list A) :=
  if first =? last then Done v
  else insertion_sort_from (S (length v)) v first (first + 1) last.

(** [__unguarded_insertion_sort] *)
Fixpoint unguarded_insertion_sort (fuel : nat) (v : list A) (i last : Z)
  : outcome (list A) :=
  match fuel with
  | O => Timeout
  | S fuel' =>
      if i =? last then Done v
      else
        v ← unguarded_linear_insert v i;
        unguarded_insertion_sort fuel' v (i + 1) last
  end.

(** [__final_insertion_sort] *)
Definition final_insertion_sort (v : list A) (first last : Z)
  : outcome (list A) :=
  if S_threshold <? last - first then
    v ← insertion_sort v first (first + S_threshold);
    unguarded_insertion_sort (S (length v)) v (first + S_threshold) last
  else insertion_sort v first last.

(** [__sort]; [std::__lg] is the binary logarithm, rounded down. *)
Definition sort_range (v : list A) (first last : Z) : outcome (list A) :=
  if first =? last then Done v
  else
    v ← introsort_loop (Z.to_nat (Z.log2 (last - first) * 2)) v first last;
    final_insertion_sort v first last.

(** [std::sort(v.begin(), v.end(), comp)] *)
Definition sort (v : list A) : outcome (list A) :=
  sort_range v 0 (Z.of_nat (length v)).
End sort.
End libstdcxx.

(** [std::sort] of that library with the comparator of [sort].  With a
    comparator that is a strict weak order, as [offset_sort] is, the library
    function stays inside the vector; a run that left it would return the
    vector as it was. *)
Definition gnu_std_sort (vars : list DynShaderConstant)
  : list DynShaderConstant :=
  match libstdcxx.sort offset_sort vars with
  | Done sorted => sorted
  | _ => vars
  end.

(** ** DisassembleSPIRV *)

(** The enumerants of glslang's [spirv.h] that the function names, and the
    mnemonic tables [ToStr::Get], which are keyed by enumerants of that
    header: the header is not part of this file, so its values are
    parameters of the development.  The labels of one [switch] are pairwise
    different. *)
Record SpvHeader : Type := mkSpvHeader {
  MagicNumber : Z;
  OpSource : Z;
  OpExtInstImport : Z;
  OpMemoryModel : Z;
  OpEntryPoint : Z;
  OpFunction : Z;
  OpFunctionEnd : Z;
  OpName : Z;
  ToStr_Op : Z → string;
  ToStr_SourceLanguage : Z → string;
  ToStr_AddressingModel : Z → string;
  ToStr_MemoryModel : Z → string;
  ToStr_ExecutionModel : Z → string;
  switch_labels_differ :
    NoDup [OpSource; OpExtInstImport; OpMemoryModel; OpEntryPoint;
           OpFunction; OpFunctionEnd; OpName]
}.

(** *** Formatting *)

Definition nl : string := String (ascii_of_nat 10) EmptyString.

Definition to_int32 (z : Z) : Z := (z + 2 ^ 31) mod 2 ^ 32 - 2 ^ 31.

(** Modelled from the spec: [StringFormat::Fmt] is declared outside this
    file; it prints a number as the specification shows it, with the
    conversions of printf: [%d] prints an [int], [%u] an [unsigned], [%08x]
    eight hexadecimal digits, [% 4u] pads to four columns. *)
Definition fmt_d (z : Z) : string := pretty (to_int32 z).
Definition fmt_u (z : Z) : string := pretty (to_uint32 z).

Definition hex_digit (z : Z) : ascii :=
  default "0"%char
    (String.get (Z.to_nat (z `mod` 16)) "0123456789abcdef").

Definition fmt_08x (z : Z) : string :=
  let w := to_uint32 z in
  String.string_of_list_ascii
    (map (λ sh, hex_digit (w ≫ sh)) [28; 24; 20; 16; 12; 8; 4; 0]).

Global Arguments fmt_d : simpl never.
Global Arguments fmt_u : simpl never.
Global Arguments fmt_08x : simpl never.

Fixpoint spaces (n : nat) : string :=
  match n with O => EmptyString | S n' => String " " (spaces n') end.

Definition fmt_4u (z : Z) : string :=
  let digits := fmt_u z in
  spaces (4 - String.length digits)%nat +:+ digits.

(** One line of pass 2: the operation index when the line lies in a
    function, the mnemonic and the operand text. *)
Record DisassemblyLine : Type := mkLine {
  indexWithinScope : option Z;
  mnemonic : string;
  operands : string
}.

(** The two [StringFormat::Fmt] calls that end an iteration of pass 2. *)
Definition render_line (l : DisassemblyLine) : string :=
  match indexWithinScope l with
  | Some opidx => fmt_4u opidx +:+ ": " +:+ mnemonic l +:+ " " +:+ operands l +:+ nl
  | None => "      " +:+ mnemonic l +:+ " " +:+ operands l +:+ nl
  end.

(** *** Reading the stream *)

(** [spirv[i]] *)
Definition word_at (spirv : list Z) (i : nat) : outcome Z :=
  match spirv !! i with
  | Some w => Done w
  | None => Undefined OutOfBounds
  end.

(** The four bytes of a word, lowest first. *)
Definition word_bytes (w : Z) : list ascii :=
  map (λ sh, ascii_of_nat (Z.to_nat ((w ≫ sh) `mod` 256))) [0; 8; 16; 24].

(** The C string that starts at a byte sequence, when a NUL ends it. *)
Fixpoint until_nul (bs : list ascii) : string * bool :=
  match bs with
  | [] => (EmptyString, false)
  | b :: bs' =>
      if Ascii.eqb b NUL then (EmptyString, true)
      else let '(s, ended) := until_nul bs' in (String b s, ended)
  end.

(** [(const char * )&spirv[i]] read as a string: the bytes from that word on,
    up to the first NUL; a string that no NUL ends inside the vector runs
    out of it. *)
Fixpoint c_string_of_words (ws : list Z) : outcome string :=
  match ws with
  | [] => Undefined OutOfBounds
  | w :: ws' =>
      let '(s, ended) := until_nul (word_bytes w) in
      if ended : bool then Done s
      else rest ← c_string_of_words ws'; Done (s +:+ rest)
  end.

Definition literal_at (spirv : list Z) (i : nat) : outcome string :=
  c_string_of_words (drop i spirv).

(** [resultnames[id]] and [resultnames[id] = s] *)
Definition name_of (resultnames : list string) (id : Z) : outcome string :=
  match resultnames !! Z.to_nat id with
  | Some s => Done s
  | None => Undefined OutOfBounds
  end.

Definition store_name (resultnames : list string) (id : Z) (s : string)
  : outcome (list string) :=
  if decide (Z.to_nat id < length resultnames)%nat
  then Done (<[Z.to_nat id := s]> resultnames)
  else Undefined OutOfBounds.

Definition WordCount_of (w : Z) : Z := to_uint16 (w ≫ 16).
Definition OpCode_of (w : Z) : Z := Z.land w 65535.

Section disassembler.
Variable spv : SpvHeader.

(** *** Pass 1: "fetch names and things to be used in the second pass" *)
Definition pass1_step (spirv : list Z) (it : nat) (resultnames : list string)
  : outcome (list string * nat) :=
  w ← word_at spirv it;
  names ← (if OpCode_of w =? OpName spv then
             id ← word_at spirv (it + 1);
             s ← literal_at spirv (it + 2);
             store_name resultnames id s
           else Done resultnames);
  Done (names, (it + Z.to_nat (WordCount_of w))%nat).

Fixpoint pass1 (budget : nat) (spirv : list Z) (it : nat)
    (resultnames : list string) : outcome (list string) :=
  if decide (it < length spirv)%nat then
    match budget with
    | O => Timeout
    | S budget' =>
        '(names, it') ← pass1_step spirv it resultnames;
        pass1 budget' spirv it' names
    end
  else Done resultnames.

(** The loop that gives every id without a name the text [<id>]. *)
Definition placeholder (i : nat) : string := "<" +:+ fmt_d (Z.of_nat i) +:+ ">".

Definition fill_placeholders (resultnames : list string) : list string :=
  imap (λ i s, if decide (s = EmptyString) then placeholder i else s) resultnames.

(** *** Pass 2 *)
Record Pass2State : Type := mkPass2 {
  opidx : Z;
  infunc : bool;
  resultnames : list string
}.

(** The [switch]: operand text, [silent], and the state it leaves. *)
Definition format_operands (spirv : list Z) (it : nat) (OpCode : Z)
    (st : Pass2State) : outcome (string * bool * Pass2State) :=
  if OpCode =? OpSource spv then
    lang ← word_at spirv (it + 1);
    ver ← word_at spirv (it + 2);
    Done (ToStr_SourceLanguage spv lang +:+ " " +:+ fmt_d ver, false, st)
  else if OpCode =? OpExtInstImport spv then
    id ← word_at spirv (it + 1);
    s ← literal_at spirv (it + 2);
    names ← store_name (resultnames st) id s;
    Done (s, false, mkPass2 (opidx st) (infunc st) names)
  else if OpCode =? OpMemoryModel spv then
    addr ← word_at spirv (it + 1);
    mem ← word_at spirv (it + 2);
    Done (ToStr_AddressingModel spv addr +:+ " Addressing, " +:+
          ToStr_MemoryModel spv mem +:+ " Memory model", false, st)
  else if OpCode =? OpEntryPoint spv then
    id ← word_at spirv (it + 2);
    nm ← name_of (resultnames st) id;
    model ← word_at spirv (it + 1);
    Done (nm +:+ " (" +:+ ToStr_ExecutionModel spv model +:+ ")", false, st)
  else if OpCode =? OpFunction spv then
    Done (EmptyString, false, mkPass2 (opidx st) true (resultnames st))
  else if OpCode =? OpFunctionEnd spv then
    Done (EmptyString, false, mkPass2 (opidx st) false (resultnames st))
  else if OpCode =? OpName spv then
    Done (EmptyString, true, st)
  else Done (EmptyString, false, st).

(** One iteration: the line it appends, if any, the state and the next
    position. *)
Definition pass2_step (spirv : list Z) (it : nat) (st : Pass2State)
  : outcome (option DisassemblyLine * Pass2State * nat) :=
  w ← word_at spirv it;
  let OpCode := OpCode_of w in
  '(body, silent, st1) ← format_operands spirv it OpCode st;
  let it' := (it + Z.to_nat (WordCount_of w))%nat in
  if infunc st1 then
    Done (Some (mkLine (Some (opidx st1)) (ToStr_Op spv OpCode) body),
          mkPass2 (to_uint32 (opidx st1 + 1)) (infunc st1) (resultnames st1), it')
  else if negb silent then
    Done (Some (mkLine None (ToStr_Op spv OpCode) body), st1, it')
  else Done (None, st1, it').

Fixpoint pass2 (budget : nat) (spirv : list Z) (it : nat) (st : Pass2State)
  : outcome (list DisassemblyLine) :=
  if decide (it < length spirv)%nat then
    match budget with
    | O => Timeout
    | S budget' =>
        '(l, st', it') ← pass2_step spirv it st;
        rest ← pass2 budget' spirv it' st';
        Done (option_list l ++ rest)
    end
  else Done [].

(** *** The whole function *)
Definition header : list string :=
  ["Vertex Shader"; "Tessellation Control Shader";
   "Tessellation Evaluation Shader"; "Geometry Shader"; "Fragment Shader";
   "Compute Shader"].

Definition banner (title : string) : string := title +:+ " SPIR-V:" +:+ nl +:+ nl.

Definition generator_name (g : Z) : string :=
  if g =? 85590203 (* 0x051a00bb *) then "glslang" else "Unrecognised".

(** Both passes, from position 5, over a table of [idbound] empty names. *)
Definition listing (budget : nat) (spirv : list Z) (idbound : Z)
  : outcome (list DisassemblyLine) :=
  names ← pass1 budget spirv 5 (replicate (Z.to_nat idbound) EmptyString);
  pass2 budget spirv 5 (mkPass2 0 false (fill_placeholders names)).

(** [shaderIdx] is [ShaderIdx(shadType)]; the result is the final value of
    [disasm]. *)
Definition DisassembleSPIRV (budget : nat) (shaderIdx : nat) (spirv : list Z)
  : outcome string :=
  match header !! shaderIdx with
  | None => Undefined OutOfBounds
  | Some title =>
      magic ← word_at spirv 0;
      if negb (magic =? MagicNumber spv) then
        Done (banner title +:+ "Unrecognised magic number " +:+ fmt_08x magic)
      else
        version ← word_at spirv 1;
        generator ← word_at spirv 2;
        idbound ← word_at spirv 3;
        reserved ← word_at spirv 4;
        let preamble :=
          banner title
          +:+ "Version " +:+ fmt_u version +:+ ", Generator " +:+ fmt_08x generator
          +:+ " (" +:+ generator_name generator +:+ ")" +:+ nl
          +:+ "IDs up to <" +:+ fmt_u idbound +:+ ">" +:+ nl
          +:+ (if negb (reserved =? 0) then "Reserved word 4 is non-zero" +:+ nl
               else EmptyString)
          +:+ nl in
        ls ← listing budget spirv idbound;
        Done (preamble +:+ String.concat EmptyString (map render_line ls))
  end.
End disassembler.

(** ** CheckVertexOutputUses *)

(** The characters of [s] from position [n] on. *)
Fixpoint string_drop (n : nat) (s : string) : string :=
  match n, s with
  | O, _ => s
  | S n', String _ s' => string_drop n' s'
  | S _, EmptyString => EmptyString
  end.

(** Whether [s] begins with [pat]. *)
Fixpoint starts_with (pat s : string) : bool :=
  match pat, s with
  | EmptyString, _ => true
  | String a pat', String b s' => Ascii.eqb a b && starts_with pat' s'
  | String _ _, EmptyString => false
  end.

(** The least position of [s] at which [pat] begins. *)
Fixpoint first_occurrence (pat s : string) : option nat :=
  if starts_with pat s then Some O
  else match s with
       | EmptyString => None
       | String _ s' => S <$> first_occurrence pat s'
       end.

(** [s.find(pat, offs)] of [std::string]: the least position not before
    [offs] at which [pat] begins; [None] stands for [npos]. *)
Definition string_find (pat s : string) (offs : nat) : option nat :=
  if decide (offs ≤ String.length s)%nat
  then (λ k, (offs + k)%nat) <$> first_occurrence pat (string_drop offs s)
  else None.

(** The inner loop [while(offs < s.length())], with [rest] the characters of
    [s] from [offs] on: it leaves [offs] on the first [=] or [;], or on
    [s.length()], and the flag tells that it left it on an [=]. *)
Fixpoint to_assignment (rest : string) (offs : nat) : nat * bool :=
  match rest with
  | EmptyString => (offs, false)
  | String c rest' =>
      if Ascii.eqb c "=" then (offs, true)
      else if Ascii.eqb c ";" then (offs, false)
      else to_assignment rest' (S offs)
  end.

(** The loop [while(true)] for one identifier. *)
Fixpoint used_from (budget : nat) (pat s : string) (offs : nat) (used : bool)
  : outcome bool :=
  match budget with
  | O => Timeout
  | S budget' =>
      match string_find pat s offs with
      | None => Done used
      | Some p =>
          let '(offs', assigned) := to_assignment (string_drop p s) p in
          used_from budget' pat s offs' (used || assigned)
      end
  end.

(** The loop over the sources; each of the two loops of a source starts at
    [offs = 0] and is given one iteration more than the source has
    characters. *)
Fixpoint check_sources (sources : list string)
    (pointSizeUsed clipDistanceUsed : bool) : outcome (bool * bool) :=
  match sources with
  | [] => Done (pointSizeUsed, clipDistanceUsed)
  | s :: sources' =>
      p ← used_from (S (String.length s)) "gl_PointSize" s 0 pointSizeUsed;
      c ← used_from (S (String.length s)) "gl_ClipDistance" s 0 clipDistanceUsed;
      check_sources sources' p c
  end.

(** The result is the pair [(pointSizeUsed, clipDistanceUsed)]. *)
Definition CheckVertexOutputUses (sources : list string) : outcome (bool * bool) :=
  check_sources sources false false.

(** ** GetBindpointMapping *)

(** [name.back()] and [name.pop_back()] of [std::string]; both need a
    character to be there. *)
Fixpoint back (s : string) : outcome ascii :=
  match s with
  | EmptyString => Undefined OutOfBounds
  | String c EmptyString => Done c
  | String _ s' => back s'
  end.

Fixpoint pop_back (s : string) : outcome string :=
  match s with
  | EmptyString => Undefined OutOfBounds
  | String c EmptyString => Done EmptyString
  | String c s' => t ← pop_back s'; Done (String c t)
  end.

(** [do { name.pop_back(); } while(name.back() != '[');] *)
Fixpoint pop_to_bracket (budget : nat) (name : string) : outcome string :=
  match budget with
  | O => Timeout
  | S budget' =>
      name1 ← pop_back name;
      c ← back name1;
      if negb (Ascii.eqb c "[") then pop_to_bracket budget' name1
      else Done name1
  end.

(** "handle sampler arrays, use the base name": the name that is looked up
    for a texture.  The loop is given as many iterations as the name has
    characters. *)
Definition sampler_base_name (name : string) : outcome string :=
  c ← back name;
  if Ascii.eqb c "]" then
    name1 ← pop_to_bracket (String.length name) name;
    pop_back name1
  else Done name.

(** The two loops that fill [mapping.InputAttributes].  [locs] holds what
    [glGetAttribLocation] answers for the elements of the input signature,
    in their order, and [i] counts them; a write outside the array is
    [Undefined]. *)
Fixpoint bind_attributes (numVAttribBindings : Z) (i : Z) (locs : list Z)
    (attrs : list Z) : outcome (list Z) :=
  match locs with
  | [] => Done attrs
  | loc :: locs' =>
      attrs' ← (if (0 <=? loc) && (loc <? numVAttribBindings) then
                  if decide (Z.to_nat loc < length attrs)%nat
                  then Done (<[Z.to_nat loc := i]> attrs)
                  else Undefined OutOfBounds
                else Done attrs);
      bind_attributes numVAttribBindings (i + 1) locs' attrs'
  end.

Definition InputAttributes (numVAttribBindings : Z) (shadIdx : Z)
    (locs : list Z) : outcome (list Z) :=
  let attrs := replicate (Z.to_nat numVAttribBindings) (-1) in
  if shadIdx =? 0 then bind_attributes numVAttribBindings 0 locs attrs
  else Done attrs.

(** ** MakeSeparableShaderProgram: patching the sources *)

(** Modelled from the spec: the enumerants of the shader stages are declared
    outside this file, and the specification leaves them open.  The type has
    the six stages that [header] lists; the function tells the vertex stage
    and the tessellation control stage from the others. *)
Inductive ShaderStage : Type :=
| eGL_VERTEX_SHADER | eGL_TESS_CONTROL_SHADER | eGL_TESS_EVALUATION_SHADER
| eGL_GEOMETRY_SHADER | eGL_FRAGMENT_SHADER | eGL_COMPUTE_SHADER.

Global Instance ShaderStage_eq_dec : EqDecision ShaderStage.
Proof. solve_decision. Defined.

Definition blockIdentifiers : string * string :=
  ("in gl_PerVertex", "out gl_PerVertex").

Definition per_vertex_members : string :=
  "gl_PerVertex { vec4 gl_Position; float gl_PointSize; float gl_ClipDistance[]; }".

(** [blocks[0]] and [blocks[1]] *)
Definition blocks (type : ShaderStage) : string * string :=
  match type with
  | eGL_VERTEX_SHADER =>
      (EmptyString, "out " +:+ per_vertex_members +:+ ";" +:+ nl)
  | eGL_TESS_CONTROL_SHADER =>
      ("in " +:+ per_vertex_members +:+ " gl_in[];" +:+ nl,
       "out " +:+ per_vertex_members +:+ " gl_out[];" +:+ nl)
  | _ =>
      ("in " +:+ per_vertex_members +:+ " gl_in[];" +:+ nl,
       "out " +:+ per_vertex_members +:+ ";" +:+ nl)
  end.

Definition tab : ascii := ascii_of_nat 9.
Definition lf : ascii := ascii_of_nat 10.
Definition cr : ascii := ascii_of_nat 13.

Definition is_blank (c : ascii) : bool := Ascii.eqb c " " || Ascii.eqb c tab.
Definition is_space (c : ascii) : bool :=
  Ascii.eqb c " " || Ascii.eqb c tab || Ascii.eqb c cr || Ascii.eqb c lf.
Definition in_line (c : ascii) : bool :=
  negb (Ascii.eqb c cr) && negb (Ascii.eqb c lf).

(** [while(it < len && p(src[it])) ++it;], with [rest] the characters of
    [src] from [it] on. *)
Fixpoint skip_while (p : ascii → bool) (rest : string) (it : nat) : nat :=
  match rest with
  | EmptyString => it
  | String c rest' => if p c then skip_while p rest' (S it) else it
  end.

(** [while(it+1 < len && (src[it] != '*' || src[it+1] != '/')) ++it;] *)
Fixpoint to_comment_end (rest : string) (it : nat) : nat :=
  match rest with
  | String a (String b _ as rest') =>
      if negb (Ascii.eqb a "*") || negb (Ascii.eqb b "/")
      then to_comment_end rest' (S it) else it
  | _ => it
  end.

(** The test for an extension directive: [#extension] stands at [it], and
    a blank that lies within the source follows it. *)
Definition at_extension (rest : string) : bool :=
  starts_with "#extension" rest &&
  match string_drop 10 rest with
  | String c _ => is_blank c
  | EmptyString => false
  end.

(** "now skip past comments, and any #extension directives": the loop
    [while(it < len)], left by its [break] or by its condition.  A test
    [it+1 < len && src[it] == a && src[it+1] == b] is the test that the
    source from [it] on starts with [a], [b]. *)
Fixpoint skip_comments (budget : nat) (src : string) (it : nat) : outcome nat :=
  if decide (it < String.length src)%nat then
    match budget with
    | O => Timeout
    | S budget' =>
        let it1 := skip_while is_space (string_drop it src) it in
        let rest := string_drop it1 src in
        if starts_with "//" rest then
          skip_comments budget' src (skip_while in_line rest it1)
        else if at_extension rest then
          skip_comments budget' src (skip_while in_line rest it1)
        else if starts_with "/*" rest then
          skip_comments budget' src (to_comment_end rest it1)
        else Done it1
    end
  else Done it.

(** The place at which the block is inserted into a source; [None] when the
    source has no [#version].  [!strncmp(&src[it], word, n)] with [n] the
    length of [word] is the test that the source from [it] on starts with
    [word]. *)
Definition insertion_point (src : string) : outcome (option nat) :=
  match string_find "#version" src 0 with
  | None => Done None
  | Some p =>
      let it := (p + 8)%nat in
      let it := skip_while is_blank (string_drop it src) it in
      let it := skip_while is_digit (string_drop it src) it in
      let it := skip_while is_blank (string_drop it src) it in
      let it := if starts_with "core" (string_drop it src)
                then (it + 4)%nat else it in
      let it := if starts_with "compatibility" (string_drop it src)
                then (it + 13)%nat else it in
      let it := if starts_with "es" (string_drop it src)
                then (it + 2)%nat else it in
      it ← skip_comments (S (String.length src)) src it;
      Done (Some it)
  end.

(** [substituted.insert(it, block)]; the library refuses a position past
    the end of the string. *)
Definition string_insert (it : nat) (block s : string) : outcome string :=
  if decide (it ≤ String.length s)%nat
  then Done (String.substring 0 it s +:+ block +:+ string_drop it s)
  else Undefined OutOfBounds.

(** The loop over the sources for one block: the first source that has a
    [#version] gets the block, and the loop is left. *)
Fixpoint insert_block (block : string) (strings : list string)
  : outcome (list string) :=
  match strings with
  | [] => Done []
  | src :: strings' =>
      it ← insertion_point src;
      match it with
      | None => rest ← insert_block block strings'; Done (src :: rest)
      | Some it => substituted ← string_insert it block src;
                   Done (substituted :: strings')
      end
  end.

(** "if we find the 'identifier' (ie. the block name), assume this block is
    already present" *)
Definition already (identifier : string) (sources : list string) : bool :=
  existsb (λ s, bool_decide (is_Some (string_find identifier s 0))) sources.

(** One turn of [for(int blocktype = 0; blocktype < 2; blocktype++)]. *)
Definition patch_block (type : ShaderStage) (blocktype : nat)
    (sources strings : list string) : outcome (list string) :=
  let block := if (blocktype =? 0)%nat then (blocks type).1 else (blocks type).2 in
  let identifier :=
    if (blocktype =? 0)%nat then blockIdentifiers.1 else blockIdentifiers.2 in
  match type, blocktype with
  | eGL_VERTEX_SHADER, O => Done strings
  | _, _ =>
      if already identifier sources then Done strings
      else insert_block block strings
  end.

(** The array [strings] as it stands at the end of the function.  It
    holds the C strings of the sources; "try and patch up shader" is entered
    when the first program did not link ([status] is 0) and the stage is
    neither the fragment nor the compute stage. *)
Definition patched_strings (status : Z) (type : ShaderStage)
    (sources : list string) : outcome (list string) :=
  let strings := map c_str sources in
  if (status =? 0) && negb (bool_decide (type = eGL_FRAGMENT_SHADER))
     && negb (bool_decide (type = eGL_COMPUTE_SHADER))
  then
    strings ← patch_block type 0 sources strings;
    patch_block type 1 sources strings
  else Done strings.

(** ** MakeShaderReflection: the elements of a signature *)

(** Modelled from the spec: the enumerations [SystemAttribute] and
    [FormatComponentType] and the structure [SigParameter] are declared
    outside this file, and the specification leaves them open.  The types
    have the enumerators the loop assigns and the fields it writes; the
    integer fields are taken to be unsigned, and the widths of [regIndex]
    and of the two masks are parameters.  The warnings of the two [default]
    cases, and the order in which [std::sort] leaves the elements, are not
    part of the model. *)
Inductive SystemAttribute : Type :=
| eAttr_None | eAttr_Position | eAttr_PointSize | eAttr_ClipDistance
| eAttr_VertexIndex | eAttr_InstanceIndex | eAttr_PatchNumVertices
| eAttr_PrimitiveIndex | eAttr_InvocationIndex | eAttr_OuterTessFactor
| eAttr_InsideTessFactor | eAttr_DomainLocation | eAttr_RTIndex
| eAttr_ViewportIndex | eAttr_IsFrontFace | eAttr_MSAASampleIndex
| eAttr_MSAASamplePosition | eAttr_MSAACoverage | eAttr_DepthOutput
| eAttr_DispatchSize | eAttr_GroupIndex | eAttr_GroupThreadIndex
| eAttr_DispatchThreadIndex | eAttr_GroupFlatIndex | eAttr_ColourOutput.

Global Instance SystemAttribute_eq_dec : EqDecision SystemAttribute.
Proof. solve_decision. Defined.

Inductive FormatComponentType : Type :=
| eCompType_Float | eCompType_SInt | eCompType_UInt.

(** [sigEnum] *)
Inductive ProgramInterface : Type := eGL_PROGRAM_INPUT | eGL_PROGRAM_OUTPUT.

Global Instance ProgramInterface_eq_dec : EqDecision ProgramInterface.
Proof. solve_decision. Defined.

Record SigParameter : Type := mkSig {
  varName : string;
  semanticIndex : Z;
  needSemanticIndex : bool;
  stream : Z;
  compType : FormatComponentType;
  compCount : Z;
  regChannelMask : Z;
  channelUsedMask : Z;
  systemValue : SystemAttribute;
  regIndex : Z
}.

(** First switch on [values[1]]: the component type. *)
Definition sig_compType (t : GLtype) : FormatComponentType :=
  match t with
  | eGL_INT | eGL_INT_VEC2 | eGL_INT_VEC3 | eGL_INT_VEC4 => eCompType_SInt
  | eGL_UNSIGNED_INT | eGL_BOOL | eGL_UNSIGNED_INT_VEC2 | eGL_BOOL_VEC2
  | eGL_UNSIGNED_INT_VEC3 | eGL_BOOL_VEC3
  | eGL_UNSIGNED_INT_VEC4 | eGL_BOOL_VEC4 => eCompType_UInt
  | _ => eCompType_Float
  end.

(** Second switch: [compCount], [rows] and [regChannelMask]. *)
Definition sig_compCount (t : GLtype) : Z :=
  match t with
  | eGL_FLOAT | eGL_DOUBLE | eGL_INT | eGL_UNSIGNED_INT | eGL_BOOL => 1
  | eGL_FLOAT_VEC2 | eGL_DOUBLE_VEC2 | eGL_INT_VEC2 | eGL_UNSIGNED_INT_VEC2
  | eGL_BOOL_VEC2 => 2
  | eGL_FLOAT_VEC3 | eGL_DOUBLE_VEC3 | eGL_INT_VEC3 | eGL_UNSIGNED_INT_VEC3
  | eGL_BOOL_VEC3 => 3
  | eGL_FLOAT_VEC4 | eGL_DOUBLE_VEC4 | eGL_INT_VEC4 | eGL_UNSIGNED_INT_VEC4
  | eGL_BOOL_VEC4 => 4
  | eGL_FLOAT_MAT4 | eGL_DOUBLE_MAT4 | eGL_FLOAT_MAT4x3 | eGL_DOUBLE_MAT4x3
  | eGL_FLOAT_MAT4x2 | eGL_DOUBLE_MAT4x2 => 4
  | eGL_FLOAT_MAT3 | eGL_DOUBLE_MAT3 | eGL_FLOAT_MAT3x4 | eGL_DOUBLE_MAT3x4
  | eGL_FLOAT_MAT3x2 | eGL_DOUBLE_MAT3x2 => 3
  | eGL_FLOAT_MAT2 | eGL_DOUBLE_MAT2 | eGL_FLOAT_MAT2x3 | eGL_DOUBLE_MAT2x3
  | eGL_FLOAT_MAT2x4 | eGL_DOUBLE_MAT2x4 => 2
  | eGL_OTHER_TYPE => 4
  end.

Definition sig_rows (t : GLtype) : Z :=
  match t with
  | eGL_FLOAT_MAT4 | eGL_DOUBLE_MAT4 => 4
  | eGL_FLOAT_MAT4x3 | eGL_DOUBLE_MAT4x3 => 3
  | eGL_FLOAT_MAT4x2 | eGL_DOUBLE_MAT4x2 => 2
  | eGL_FLOAT_MAT3 | eGL_DOUBLE_MAT3 => 3
  | eGL_FLOAT_MAT3x4 | eGL_DOUBLE_MAT3x4 => 2
  | eGL_FLOAT_MAT3x2 | eGL_DOUBLE_MAT3x2 => 2
  | eGL_FLOAT_MAT2 | eGL_DOUBLE_MAT2 => 2
  | eGL_FLOAT_MAT2x3 | eGL_DOUBLE_MAT2x3 => 3
  | eGL_FLOAT_MAT2x4 | eGL_DOUBLE_MAT2x4 => 4
  | _ => 1
  end.

Definition sig_mask (t : GLtype) : Z :=
  match t with
  | eGL_FLOAT | eGL_DOUBLE | eGL_INT | eGL_UNSIGNED_INT | eGL_BOOL => 1 (* 0x1 *)
  | eGL_FLOAT_VEC2 | eGL_DOUBLE_VEC2 | eGL_INT_VEC2 | eGL_UNSIGNED_INT_VEC2
  | eGL_BOOL_VEC2 => 3 (* 0x3 *)
  | eGL_FLOAT_VEC3 | eGL_DOUBLE_VEC3 | eGL_INT_VEC3 | eGL_UNSIGNED_INT_VEC3
  | eGL_BOOL_VEC3 => 7 (* 0x7 *)
  | eGL_FLOAT_VEC4 | eGL_DOUBLE_VEC4 | eGL_INT_VEC4 | eGL_UNSIGNED_INT_VEC4
  | eGL_BOOL_VEC4 => 15 (* 0xf *)
  | eGL_FLOAT_MAT4 | eGL_DOUBLE_MAT4 | eGL_FLOAT_MAT4x3 | eGL_DOUBLE_MAT4x3
  | eGL_FLOAT_MAT4x2 | eGL_DOUBLE_MAT4x2 => 15
  | eGL_FLOAT_MAT3 | eGL_DOUBLE_MAT3 | eGL_FLOAT_MAT3x4 | eGL_DOUBLE_MAT3x4
  | eGL_FLOAT_MAT3x2 | eGL_DOUBLE_MAT3x2 => 7
  | eGL_FLOAT_MAT2 | eGL_DOUBLE_MAT2 | eGL_FLOAT_MAT2x3 | eGL_DOUBLE_MAT2x3
  | eGL_FLOAT_MAT2x4 | eGL_DOUBLE_MAT2x4 => 3
  | eGL_OTHER_TYPE => 15
  end.

(** The tests [IS_BUILTIN] that assign a system value, in their order; a
    later test that holds overrides an earlier one. *)
Definition builtins : list (string * SystemAttribute) :=
  [("gl_VertexID", eAttr_VertexIndex);
   ("gl_InstanceID", eAttr_InstanceIndex);
   ("gl_Position", eAttr_Position);
   ("gl_PointSize", eAttr_PointSize);
   ("gl_ClipDistance", eAttr_ClipDistance);
   ("gl_PatchVerticesIn", eAttr_PatchNumVertices);
   ("gl_PrimitiveID", eAttr_PrimitiveIndex);
   ("gl_InvocationID", eAttr_InvocationIndex);
   ("gl_TessLevelOuter", eAttr_OuterTessFactor);
   ("gl_TessLevelInner", eAttr_InsideTessFactor);
   ("gl_TessCoord", eAttr_DomainLocation);
   ("gl_PatchVerticesIn", eAttr_PatchNumVertices);
   ("gl_PrimitiveID", eAttr_PrimitiveIndex);
   ("gl_PrimitiveIDIn", eAttr_PrimitiveIndex);
   ("gl_InvocationID", eAttr_InvocationIndex);
   ("gl_Layer", eAttr_RTIndex);
   ("gl_ViewportIndex", eAttr_ViewportIndex);
   ("gl_Layer", eAttr_RTIndex);
   ("gl_ViewportIndex", eAttr_ViewportIndex);
   ("gl_FragCoord", eAttr_Position);
   ("gl_FrontFacing", eAttr_IsFrontFace);
   ("gl_PointCoord", eAttr_RTIndex);
   ("gl_SampleID", eAttr_MSAASampleIndex);
   ("gl_SamplePosition", eAttr_MSAASamplePosition);
   ("gl_SampleMaskIn", eAttr_MSAACoverage);
   ("gl_FragDepth", eAttr_DepthOutput);
   ("gl_SampleMask", eAttr_MSAACoverage);
   ("gl_NumWorkGroups", eAttr_DispatchSize);
   ("gl_WorkGroupID", eAttr_GroupIndex);
   ("gl_LocalInvocationID", eAttr_GroupThreadIndex);
   ("gl_GlobalInvocationID", eAttr_DispatchThreadIndex);
   ("gl_LocalInvocationIndex", eAttr_GroupFlatIndex)].

(** [IS_BUILTIN(builtin)] is [!strncmp(nm, builtin, sizeof(builtin)-1)]:
    the name starts with the word. *)
Definition builtin_value (nm : string) : SystemAttribute :=
  foldl (λ value b, if starts_with b.1 nm then b.2 else value) eAttr_None builtins.

Section signature.
Variable mask_bits : Z.
Variable index_bits : Z.

(** [sig.regChannelMask <<= values[3]]: the shift is done on [int]; a count
    that is negative or not below 32, and a result that an [int] does not
    hold, are outside the language ([None]); the result is then stored in
    the field. *)
Definition shift_mask (mask component : Z) : option Z :=
  if (0 <=? component) && (component <? 32) then
    if mask ≪ component <=? INT_MAX
    then Some ((mask ≪ component) `mod` 2 ^ mask_bits)
    else None
  else None.

Definition to_regIndex (z : Z) : Z := z `mod` 2 ^ index_bits.

(** One turn of [for(GLint i=0; i < numInputs; i++)]: the elements it
    appends to [sigs], for the name [nm] and the answers [values[1]],
    [values[2]], [values[3]] of the program. *)
Definition signature_entries (shadType : ShaderStage) (sigEnum : ProgramInterface)
    (pointSizeUsed clipDistanceUsed : bool) (i : Z) (nm : string)
    (type : GLtype) (location component : Z) : option (list SigParameter) :=
  mask ← shift_mask (sig_mask type) component;
  if starts_with "gl_PointSize" nm && negb pointSizeUsed then Some []
  else if starts_with "gl_ClipDistance" nm && negb clipDistanceUsed then Some []
  else
    let value := builtin_value nm in
    let value :=
      if bool_decide (shadType = eGL_FRAGMENT_SHADER) &&
         bool_decide (sigEnum = eGL_PROGRAM_OUTPUT) &&
         bool_decide (value = eAttr_None)
      then eAttr_ColourOutput else value in
    let index :=
      if bool_decide (value = eAttr_None)
      then (if 0 <=? location then location else i)
      else (if 0 <=? location then location else 0) in
    let sig :=
      mkSig nm 0 false 0 (sig_compType type) (sig_compCount type) mask mask
        value (to_regIndex index) in
    if sig_rows type =? 1 then Some [sig]
    else
      Some (map (λ r, mkSig (nm +:+ ":row" +:+ fmt_d r) 0 false 0
                        (sig_compType type) (sig_compCount type) mask mask
                        value (to_regIndex (regIndex sig + r)))
              (seqZ 0 (sig_rows type))).
End signature.

(** ** Reference definitions and sample inputs *)

(** Whether [s] ends in [suffix]. *)
Definition ends_with (suffix s : string) : bool :=
  let n := String.length s in
  let k := String.length suffix in
  (k <=? n)%nat && String.eqb (String.substring (n - k) k s) suffix.

(** The element count in the words of the specification: the hint, clamped
    to 1 from below, except that a name ending in [[0]] forces 0. *)
Definition elements_as_specified (r : ProgramResource) : Z :=
  let hint := if res_array_size r <=? 1 then 1 else res_array_size r in
  if ends_with "[0]" (res_name r) then 0 else hint.

(** A [float] uniform without location or offset. *)
Definition float_uniform (nm : string) (block size : Z) : ProgramResource :=
  mkResource eGL_FLOAT nm (-1) block size (-1) 0.

(** *** Names *)

(** Characters of a base name: no separator, no NUL. *)
Fixpoint is_plain (s : string) : bool :=
  match s with
  | EmptyString => true
  | String a s' => negb (is_separator a) && negb (Ascii.eqb a NUL) && is_plain s'
  end.

Fixpoint all_digits (s : string) : bool :=
  match s with
  | EmptyString => true
  | String a s' => is_digit a && all_digits s'
  end.

(** The number a run of decimal digits denotes, continuing from [acc]. *)
Fixpoint decimal_from (acc : Z) (s : string) : Z :=
  match s with
  | EmptyString => acc
  | String a s' => decimal_from (acc * 10 + digit_value a) s'
  end.

Definition decimal (s : string) : Z := decimal_from 0 s.

(** A leaf [x], and a node [foo] of one element that holds it. *)
Definition leaf_x : DynShaderConstant :=
  mkConstant "x" (mkReg 0 0)
    (mkVarType (mkDescriptor eVar_Float 1 1 0 false "float") []).

Definition foo_of_one : DynShaderConstant :=
  mkConstant "foo" (mkReg 0 0)
    (mkVarType (mkDescriptor eVar_Float 0 0 1 false "struct") [leaf_x]).

(** *** Names within a sibling list *)

(** A node made by "construct a parent variable" carries the type name
    [struct]; no described variable does. *)
Definition is_struct (v : DynShaderConstant) : bool :=
  String.eqb (d_name (descriptor (type v))) "struct".

Definition struct_names (l : list DynShaderConstant) : list string :=
  map name (List.filter is_struct l).

(** All names of a sibling list differ, here and below. *)
Fixpoint names_unique_below (v : DynShaderConstant) : bool :=
  match v with
  | mkConstant _ _ (mkVarType _ ms) =>
      bool_decide (NoDup (map name ms)) && forallb names_unique_below ms
  end.

Definition names_unique (l : list DynShaderConstant) : bool :=
  bool_decide (NoDup (map name l)) && forallb names_unique_below l.

(** The names of the structure nodes of a sibling list differ, here and
    below. *)
Fixpoint structs_unique_below (v : DynShaderConstant) : bool :=
  match v with
  | mkConstant _ _ (mkVarType _ ms) =>
      bool_decide (NoDup (struct_names ms)) && forallb structs_unique_below ms
  end.

Definition structs_unique (l : list DynShaderConstant) : bool :=
  bool_decide (NoDup (struct_names l)) && forallb structs_unique_below l.

Definition state_structs_unique (st : TreeState) : Prop :=
  Forall (λ l, structs_unique l = true) (parentBlocks st) ∧
  ∀ l, defaultBlock st = Some l → structs_unique l = true.

Definition state_names_unique (st : TreeState) : Prop :=
  Forall (λ l, names_unique l = true) (parentBlocks st) ∧
  ∀ l, defaultBlock st = Some l → names_unique l = true.

(** Whether the leaf that [walk] would append meets a sibling of its own
    name in the vector it is appended to.  The descent is the one of [walk];
    a walk that appends no leaf meets none. *)
Fixpoint leaf_clash (budget : nat) (nm : string)
    (parentmembers : list DynShaderConstant) : bool :=
  match budget with
  | O => false
  | S budget' =>
      if strchr nm "." || strchr nm "[" then
        match split_base nm with
        | Done (base, sep, nm1) =>
            match (if Ascii.eqb sep "[" then array_segment nm1
                   else Done (Some (0, nm1))) with
            | Done (Some (arrayIdx, nm2)) =>
                if 0 <? arrayIdx then false
                else
                  match list_find (λ v, name v = base) parentmembers with
                  | Some (_, found) => leaf_clash budget' nm2 (children found)
                  | None => leaf_clash budget' nm2 []
                  end
            | _ => false
            end
        | _ => false
        end
      else bool_decide (c_str nm ∈ map name parentmembers)
  end.

(** The vector [ReconstructVarTree] selects for a variable, if any. *)
Definition selected_members (numParentBlocks : Z) (r : ProgramResource)
    (st : TreeState) : option (list DynShaderConstant) :=
  let idx := res_block_index r in
  if negb (idx =? -1) && (idx <? numParentBlocks) then
    if 0 <=? idx then parentBlocks st !! Z.to_nat idx else None
  else defaultBlock st.

Definition record_clash (numParentBlocks : Z) (r : ProgramResource)
    (st : TreeState) : bool :=
  match describe r, selected_members numParentBlocks r st with
  | Done (Some var), Some members =>
      leaf_clash (S (String.length (name var))) (name var) members
  | _, _ => false
  end.

(** No variable of the run brings a leaf whose name is taken. *)
Fixpoint leaves_are_new (numParentBlocks : Z) (rs : list ProgramResource)
    (st : TreeState) : Prop :=
  match rs with
  | [] => True
  | r :: rs' =>
      record_clash numParentBlocks r st = false ∧
      ∀ st', ReconstructVarTree numParentBlocks r st = Done st' →
             leaves_are_new numParentBlocks rs' st'
  end.

(** *** Element counts *)

(** The segments of a name for which the walk looks up or makes a node, in
    their order, each with the element count it brings: [k + 1] for a
    segment [base[k].] and 0 for a segment [base.].  The list ends with the
    first index above 0, and before an index that no [.] follows. *)
Fixpoint segments (budget : nat) (nm : string) : list (string * Z) :=
  match budget with
  | O => []
  | S budget' =>
      if strchr nm "." || strchr nm "[" then
        match split_base nm with
        | Done (base, sep, nm1) =>
            let isarray := Ascii.eqb sep "[" in
            match (if isarray then array_segment nm1
                   else Done (Some (0, nm1))) with
            | Done (Some (arrayIdx, nm2)) =>
                match parent_elements isarray arrayIdx with
                | Done elems =>
                    (base, elems) ::
                    (if 0 <? arrayIdx then [] else segments budget' nm2)
                | _ => []
                end
            | _ => []
            end
        | _ => []
        end
      else []
  end.

Definition record_segments (r : ProgramResource) : list (string * Z) :=
  match describe r with
  | Done (Some var) => segments (S (String.length (name var))) (name var)
  | _ => []
  end.

(** The block a variable is put in: [None] is the default block. *)
Definition record_block (numParentBlocks : Z) (r : ProgramResource)
  : option nat :=
  let idx := res_block_index r in
  if negb (idx =? -1) && (idx <? numParentBlocks) then Some (Z.to_nat idx)
  else None.

Definition block_of (st : TreeState) (block : option nat)
  : option (list DynShaderConstant) :=
  match block with
  | Some i => parentBlocks st !! i
  | None => defaultBlock st
  end.

(** The node a path of names leads to: at every level the first node of
    that name, which is the one the lookup of the walk finds. *)
Fixpoint node_at (path : list string) (l : list DynShaderConstant)
  : option DynShaderConstant :=
  match path with
  | [] => None
  | base :: path' =>
      match list_find (λ v, name v = base) l with
      | Some (_, v) =>
          match path' with
          | [] => Some v
          | _ => node_at path' (children v)
          end
      | None => None
      end
  end.

(** The element count that the segments of a name bring to the node at the
    end of a path, when they lead along it. *)
Fixpoint count_at (path : list string) (segs : list (string * Z)) : option Z :=
  match path, segs with
  | base :: path', (b, e) :: segs' =>
      if decide (b = base) then
        match path' with
        | [] => Some e
        | _ => count_at path' segs'
        end
      else None
  | _, _ => None
  end.

(** The counts that the variables of a run bring to the node at the end of
    a path in a block, and the largest of them. *)
Definition seen_counts (numParentBlocks : Z) (rs : list ProgramResource)
    (block : option nat) (path : list string) : list Z :=
  omap (λ r, if decide (record_block numParentBlocks r = block)
             then count_at path (record_segments r) else None) rs.

Definition max_count (counts : list Z) : Z := foldr Z.max 0 counts.

(** Every vector of the state is empty, as at the start of a build. *)
Definition state_empty (st : TreeState) : Prop :=
  Forall (λ l, l = []) (parentBlocks st) ∧
  ∀ l, defaultBlock st = Some l → l = [].

(** What a walk does to the node at the end of a path, given the count that
    the name brings to it, if any: a node that is there keeps its kind and
    takes the larger count, a node that is made has the count of the name,
    and no structure node appears without one. *)
Definition counted (old : option DynShaderConstant) (count : option Z)
    (new : option DynShaderConstant) : Prop :=
  match old, count with
  | Some v, Some e =>
      ∃ v', new = Some v' ∧ is_struct v' = is_struct v ∧
            elements v' = Z.max (elements v) e
  | Some v, None =>
      ∃ v', new = Some v' ∧ is_struct v' = is_struct v ∧
            elements v' = elements v
  | None, Some e =>
      ∃ v', new = Some v' ∧ is_struct v' = true ∧ elements v' = e
  | None, None => ∀ v', new = Some v' → is_struct v' = false
  end.

(** In every block, the count of the structure node at the end of a path is
    the largest count that the variables [rs] bring to it, and where a path
    leads to no node, no variable brought a count. *)
Definition counts_as_seen (numParentBlocks : Z) (rs : list ProgramResource)
    (st : TreeState) : Prop :=
  ∀ block l path, block_of st block = Some l →
    match node_at path l with
    | Some v =>
        is_struct v = true →
        elements v = max_count (seen_counts numParentBlocks rs block path)
    | None => seen_counts numParentBlocks rs block path = []
    end.

(** What [foo[0].x] and [foo[2].x] leave in an empty default block. *)
Definition foo_merged : TreeState :=
  mkTreeState []
    (Some [mkConstant "foo" (mkReg UINT_MAX 0)
             (mkVarType (mkDescriptor eVar_Float 0 0 3 false "struct")
                [mkConstant "x" (mkReg UINT_MAX UINT_MAX)
                   (mkVarType (mkDescriptor eVar_Float 1 1 0 false "float") [])])])
    [].

(** *** Order *)

(** [a] may stand before [b]: the comparator does not put [b] first. *)
Definition not_after (a b : DynShaderConstant) : Prop := offset_sort b a = false.

Global Instance not_after_dec (a b : DynShaderConstant) : Decision (not_after a b).
Proof. unfold not_after. apply _. Defined.

Global Instance not_after_total : Total not_after.
Proof.
  intros a b. unfold not_after, offset_sort.
  destruct (vec (reg b) =? vec (reg a)) eqn:E1,
           (vec (reg a) =? vec (reg b)) eqn:E2; lia.
Qed.

Global Instance not_after_trans : Transitive not_after.
Proof.
  intros a b c. unfold not_after, offset_sort.
  destruct (vec (reg b) =? vec (reg a)) eqn:E1,
           (vec (reg c) =? vec (reg b)) eqn:E2,
           (vec (reg c) =? vec (reg a)) eqn:E3; lia.
Qed.

(** Sorted here and below every node. *)
Fixpoint sorted_below (v : DynShaderConstant) : Prop :=
  match v with
  | mkConstant _ _ (mkVarType _ ms) =>
      offset_sorted ms ∧
      (fix all (l : list DynShaderConstant) : Prop :=
         match l with
         | [] => True
         | x :: l' => sorted_below x ∧ all l'
         end) ms
  end.

Definition sorted_everywhere (l : list DynShaderConstant) : Prop :=
  offset_sorted l ∧ Forall sorted_below l.

Global Instance Reg_eq_dec : EqDecision Reg.
Proof. solve_decision. Defined.

(** The order of the nodes that compare equal, read off their names. *)
Definition names_at (k : Reg) (l : list DynShaderConstant) : list string :=
  map name (List.filter (λ v, bool_decide (reg v = k)) l).

(** Two functions that meet the contract of [std::sort], to apply the
    statements that hold of every such function: a merge sort, and the same
    merge sort run on the reversed range.  Neither is the function of a C++
    library. *)
Definition merge_std_sort : StdSort :=
  mkStdSort (merge_sort not_after)
    (merge_sort_Permutation not_after)
    (StronglySorted_merge_sort not_after).

Definition reversed_merge_permutes (l : list DynShaderConstant)
  : merge_sort not_after (reverse l) ≡ₚ l :=
  perm_trans (merge_sort_Permutation not_after (reverse l)) (reverse_Permutation l).

Definition merge_reversed_sort : StdSort :=
  mkStdSort (λ l, merge_sort not_after (reverse l))
    reversed_merge_permutes
    (λ l, StronglySorted_merge_sort not_after (reverse l)).

(** Every node of a tree: the names on the way to it, its register and its
    descriptor. *)
Fixpoint node_paths (v : DynShaderConstant)
  : list (list string * Reg * Descriptor) :=
  match v with
  | mkConstant n r (mkVarType d ms) =>
      ([n], r, d) ::
      map (λ p, (n :: p.1.1, p.1.2, p.2)) (concat (map node_paths ms))
  end.

Definition tree_paths (l : list DynShaderConstant)
  : list (list string * Reg * Descriptor) :=
  concat (map node_paths l).

(** A leaf of a given name and register. *)
Definition leaf (nm : string) (v c : Z) : DynShaderConstant :=
  mkConstant nm (mkReg v c)
    (mkVarType (mkDescriptor eVar_Float 1 1 0 false "float") []).

(** Seventeen leaves that share the register (0, 0), named in the order in
    which they were found. *)
Definition seventeen_ties : list DynShaderConstant :=
  map (λ nm, leaf nm 0 0)
    ["n00"; "n01"; "n02"; "n03"; "n04"; "n05"; "n06"; "n07"; "n08"; "n09";
     "n10"; "n11"; "n12"; "n13"; "n14"; "n15"; "n16"].

(** No node of the list is higher than [d]. *)
Definition within_depth (d : nat) (l : list DynShaderConstant) : Prop :=
  Forall (λ v, (height v ≤ d)%nat) l.

(** *** Streams *)

(** One numbering of the enumerants, in the order of the mnemonic table, and
    the part of the tables the examples use. *)
Definition sample_mnemonic (op : Z) : string :=
  if op =? 1 then "Source" else if op =? 4 then "ExtInstImport"
  else if op =? 5 then "MemoryModel" else if op =? 6 then "EntryPoint"
  else if op =? 40 then "Function" else if op =? 42 then "FunctionEnd"
  else if op =? 46 then "Load" else if op =? 47 then "Store"
  else if op =? 54 then "Name" else "Unrecognised".

Definition sample_model (m : Z) : string :=
  if m =? 0 then "Vertex Shader" else if m =? 4 then "Fragment Shader"
  else "Unrecognised".

Definition sample_other (m : Z) : string :=
  if m =? 0 then "Logical" else if m =? 1 then "GLSL450" else "Unrecognised".

Definition sample_labels_differ : NoDup [1; 4; 5; 6; 40; 42; 54] :=
  bool_decide_unpack (NoDup [1; 4; 5; 6; 40; 42; 54]) I.

Definition sample_spv : SpvHeader :=
  mkSpvHeader 119734787 (* 0x07230203 *) 1 4 5 6 40 42 54
    sample_mnemonic sample_other sample_other sample_other sample_model
    sample_labels_differ.

(** An instruction header word. *)
Definition op_word (WordCount OpCode : Z) : Z := WordCount * 65536 + OpCode.

(** The lines of a text, cut at the line feeds. *)
Fixpoint text_lines_from (cur : string) (s : string) : list string :=
  match s with
  | EmptyString => [cur]
  | String a s' =>
      if Ascii.eqb a (ascii_of_nat 10) then cur :: text_lines_from EmptyString s'
      else text_lines_from (cur +:+ String a EmptyString) s'
  end.

Definition text_lines (s : string) : list string := text_lines_from EmptyString s.

(** [scan spirv it q]: a loop that stands at [it] comes to stand at [q],
    advancing each time by the word count of the instruction it stands
    on. *)
Inductive scan (spirv : list Z) : nat → nat → Prop :=
| scan_here (it : nat) : scan spirv it it
| scan_next (it : nat) (w : Z) (q : nat) :
    spirv !! it = Some w →
    scan spirv (it + Z.to_nat (WordCount_of w)) q →
    scan spirv it q.

(** A stream whose first instruction has the word count 0, and one whose
    [OpName] lacks its operands. *)
Definition zero_count_stream : list Z := [119734787; 99; 0; 8; 0; 0].
Definition cut_name_stream : list Z := [119734787; 99; 0; 8; 0; op_word 3 54].

(** *** Well-formed streams *)

(** The word at position [i] is an id below the bound of the table of
    names. *)
Definition id_below (spirv : list Z) (i bound : nat) : bool :=
  match spirv !! i with
  | Some id => bool_decide (Z.to_nat id < bound)%nat
  | None => false
  end.

(** The literal string that starts at position [i] ends before position
    [e]. *)
Definition literal_within (spirv : list Z) (i e : nat) : bool :=
  match literal_at (take e spirv) i with
  | Done _ => true
  | _ => false
  end.

(** An instruction as SPIR-V has it, in what the two passes read of it: its
    word count is not 0 and the instruction lies inside the stream; an
    instruction of which operands are read has at least the three words
    that hold them; the literal string of an [OpName] or [OpExtInstImport]
    ends inside the instruction; an id that indexes the table of names is
    below the bound. *)
Definition instruction_ok (spv : SpvHeader) (spirv : list Z) (bound it : nat)
    (w : Z) : bool :=
  let wc := Z.to_nat (WordCount_of w) in
  let op := OpCode_of w in
  bool_decide (0 < wc)%nat && bool_decide (it + wc ≤ length spirv)%nat &&
  (if (op =? OpName spv) || (op =? OpExtInstImport spv) then
     bool_decide (3 ≤ wc)%nat && id_below spirv (it + 1) bound &&
     literal_within spirv (it + 2) (it + wc)
   else if (op =? OpSource spv) || (op =? OpMemoryModel spv) then
     bool_decide (3 ≤ wc)%nat
   else if op =? OpEntryPoint spv then
     bool_decide (3 ≤ wc)%nat && id_below spirv (it + 2) bound
   else true).

(** Every instruction that a scan from [it] visits is such an
    instruction. *)
Definition well_formed_from (spv : SpvHeader) (spirv : list Z) (bound it : nat)
  : Prop :=
  ∀ q w, scan spirv it q → spirv !! q = Some w →
         instruction_ok spv spirv bound q w = true.

(** A stream is well formed for an id bound when its instructions, from
    position 5 on, are. *)
Definition well_formed (spv : SpvHeader) (spirv : list Z) (idbound : Z) : Prop :=
  well_formed_from spv spirv (Z.to_nat idbound) 5.

(** The same as a check along the scan. *)
Fixpoint well_formed_check (budget : nat) (spv : SpvHeader) (spirv : list Z)
    (bound it : nat) : bool :=
  match spirv !! it with
  | None => true
  | Some w =>
      instruction_ok spv spirv bound it w &&
      match budget with
      | O => false
      | S b =>
          well_formed_check b spv spirv bound (it + Z.to_nat (WordCount_of w))
      end
  end.

(** A stream with one instruction before a function, a function of three
    instructions, and one instruction after it. *)
Definition scope_stream : list Z :=
  [119734787; 99; 0; 8; 0;
   op_word 3 5; 0; 1;            (* MemoryModel *)
   op_word 5 40; 1; 2; 0; 3;     (* Function *)
   op_word 4 46; 1; 4; 5;        (* Load *)
   op_word 3 47; 5; 4;           (* Store *)
   op_word 4 46; 1; 6; 5;        (* Load *)
   op_word 1 42;                 (* FunctionEnd *)
   op_word 3 47; 0; 0].          (* Store *)

(** Two functions, the first one empty. *)
Definition two_scopes_stream : list Z :=
  [119734787; 99; 0; 8; 0;
   op_word 1 40; op_word 1 42;                 (* Function, FunctionEnd *)
   op_word 1 40; op_word 1 46; op_word 1 42].  (* Function, Load, FunctionEnd *)

(** The number and the mnemonic of a line. *)
Definition numbered (l : DisassemblyLine) : option Z * string :=
  (indexWithinScope l, mnemonic l).

(** A check that no instruction with a given operation code along a scan
    carries a given id. *)
Fixpoint none_carries (budget : nat) (spirv : list Z) (op : Z) (i : nat)
    (it : nat) : bool :=
  match spirv !! it with
  | None => true
  | Some w =>
      negb ((OpCode_of w =? op) &&
            match spirv !! (it + 1)%nat with
            | Some id => (Z.to_nat id =? i)%nat
            | None => false
            end) &&
      match budget with
      | O => false
      | S b => none_carries b spirv op i (it + Z.to_nat (WordCount_of w))
      end
  end.

(** An entry point that refers to id 7 before the [OpName] that names it
    [main]. *)
Definition name_after_use_stream : list Z :=
  [119734787; 99; 0; 8; 0;
   op_word 3 6; 0; 7;                  (* EntryPoint Vertex <7> *)
   op_word 4 54; 7; 1852399981; 0].    (* Name <7> "main" *)

(** *** What a run keeps *)

(** [grew v v']: [v'] stands for [v] under the same name, with an element
    count that is no smaller and a register that is no larger, and every
    member of [v] has its place among the members of [v'], in the same
    way. *)
Fixpoint grew (v v' : DynShaderConstant) : Prop :=
  match v, v' with
  | mkConstant n r (mkVarType d ms), mkConstant n' r' (mkVarType d' ms') =>
      n' = n ∧ d_elements d ≤ d_elements d' ∧ vec r' ≤ vec r ∧
      (fix all (l l' : list DynShaderConstant) : Prop :=
         match l, l' with
         | [], _ => True
         | x :: xs, x' :: xs' => grew x x' ∧ all xs xs'
         | _ :: _, [] => False
         end) ms ms'
  end.

(** Place by place, the nodes of [l] grew into those of [l']; [l'] may have
    more nodes at its end. *)
Fixpoint grown (l l' : list DynShaderConstant) : Prop :=
  match l, l' with
  | [], _ => True
  | x :: xs, x' :: xs' => grew x x' ∧ grown xs xs'
  | _ :: _, [] => False
  end.

Definition state_grown (st st' : TreeState) : Prop :=
  Forall2 grown (parentBlocks st) (parentBlocks st') ∧
  option_Forall2 grown (defaultBlock st) (defaultBlock st') ∧
  warnings st `prefix_of` warnings st'.

(** The register of a node is no larger than the register of any of its
    members, here and below. *)
Fixpoint parent_min_below (v : DynShaderConstant) : bool :=
  match v with
  | mkConstant _ r (mkVarType _ ms) =>
      forallb (λ c, vec r <=? vec (reg c)) ms && forallb parent_min_below ms
  end.

Definition parent_min (l : list DynShaderConstant) : bool :=
  forallb parent_min_below l.

Definition state_parent_min (st : TreeState) : Prop :=
  Forall (λ l, parent_min l = true) (parentBlocks st) ∧
  ∀ l, defaultBlock st = Some l → parent_min l = true.

(** *** Literal strings *)

(** Four characters as one word, lowest byte first. *)
Definition word4 (a b c d : ascii) : Z :=
  Z.of_nat (nat_of_ascii a) + 256 * Z.of_nat (nat_of_ascii b)
  + 65536 * Z.of_nat (nat_of_ascii c) + 16777216 * Z.of_nat (nat_of_ascii d).

(** A literal string as SPIR-V stores it: four characters to a word, a NUL
    after the last one, and NULs up to the end of that word. *)
Fixpoint words_of_string (s : string) : list Z :=
  match s with
  | String a (String b (String c (String d s'))) =>
      word4 a b c d :: words_of_string s'
  | String a (String b (String c EmptyString)) => [word4 a b c NUL]
  | String a (String b EmptyString) => [word4 a b NUL NUL]
  | String a EmptyString => [word4 a NUL NUL NUL]
  | EmptyString => [word4 NUL NUL NUL NUL]
  end.

(** *** Registers within a sibling list *)

(** No two nodes of a sibling list share a register, here and below. *)
Fixpoint regs_differ_below (v : DynShaderConstant) : bool :=
  match v with
  | mkConstant _ _ (mkVarType _ ms) =>
      bool_decide (NoDup (map reg ms)) && forallb regs_differ_below ms
  end.

Definition regs_differ (l : list DynShaderConstant) : bool :=
  bool_decide (NoDup (map reg l)) && forallb regs_differ_below l.

(** *** Texts *)

(** [pat] stands in [s] at position [p]. *)
Definition occurs_at (pat s : string) (p : nat) : Prop :=
  String.substring p (String.length pat) s = pat.

(** From position [p] on, an [=] comes before any [;]. *)
Definition assigned_at (s : string) (p : nat) : Prop :=
  ∃ q, (p ≤ q)%nat ∧ String.get q s = Some "="%char ∧
       ∀ j, (p ≤ j < q)%nat → String.get j s ≠ Some ";"%char.

(** Some source has the identifier at a place from which an [=] comes
    before any [;]. *)
Definition written (pat : string) (sources : list string) : Prop :=
  ∃ s p, s ∈ sources ∧ occurs_at pat s p ∧ assigned_at s p.

(** [strings'] is [strings] with [block] put into the first string that has
    a [#version], behind that directive. *)
Definition block_inserted (block : string) (strings strings' : list string)
  : Prop :=
  ∃ (i : nat) src (p it : nat),
    strings !! i = Some src ∧
    (∀ (j : nat) s, (j < i)%nat → strings !! j = Some s →
                    string_find "#version" s 0 = None) ∧
    string_find "#version" src 0 = Some p ∧
    (p + 8 ≤ it ≤ String.length src)%nat ∧
    strings' =
      <[i := String.substring 0 it src +:+ block +:+ string_drop it src]> strings.

(** * Properties *)

(** ** Strings *)

Lemma length_append (s t : string) :
  String.length (s +:+ t) = (String.length s + String.length t)%nat.
Proof. induction s as [|a s IH]; simpl; [done | by rewrite IH]. Qed.

Lemma get_append_r (s t : string) (k : nat) :
  String.get (String.length s + k) (s +:+ t) = String.get k t.
Proof. induction s as [|a s IH]; simpl; done. Qed.

Lemma substring_append_l (s t : string) :
  String.substring 0 (String.length s) (s +:+ t) = s.
Proof.
  induction s as [|a s IH]; simpl.
  - by destruct t.
  - by rewrite IH.
Qed.

Lemma last_three (n : nat) : ∀ (s : string) (a b c : ascii),
  String.length s = (n + 3)%nat →
  String.get n s = Some a →
  String.get (n + 1) s = Some b →
  String.get (n + 2) s = Some c →
  s = String.substring 0 n s +:+ String a (String b (String c EmptyString)).
Proof.
  induction n as [|n IH]; intros s a b c Hlen Ha Hb Hc.
  - destruct s as [|x [|y [|z [|w s]]]]; simplify_eq/=. done.
  - destruct s as [|x s]; simplify_eq/=.
    change (String x s = String x (String.substring 0 n s +:+
              String a (String b (String c EmptyString)))).
    f_equal. by apply IH.
Qed.

(** ** The trailing [[0]] *)

Lemma string_at_inside (s : string) (i : nat) (a : ascii) :
  String.get i s = Some a → string_at s (Z.of_nat i) = Done a.
Proof.
  intros Hget. unfold string_at.
  assert (i < String.length s)%nat as Hlt.
  { revert i Hget. induction s as [|x s IH]; intros [|i] Hget; simplify_eq/=;
      [lia | apply IH in Hget; lia]. }
  rewrite Nat2Z.id, Hget.
  destruct (0 <=? Z.of_nat i) eqn:H0; [|lia].
  destruct (Z.of_nat i <=? Z.of_nat (String.length s)) eqn:H1; [done | lia].
Qed.

Lemma string_at_negative (s : string) (i : Z) :
  i < 0 → string_at s i = Undefined OutOfBounds.
Proof.
  intros Hneg. unfold string_at. destruct (0 <=? i) eqn:H0; [lia | done].
Qed.

Lemma ends_in_index_zero_suffix (base : string) :
  ends_in_index_zero (base +:+ "[0]") = Done true.
Proof.
  unfold ends_in_index_zero. rewrite length_append. simpl String.length.
  replace (Z.of_nat (String.length base + 3) - 3)
    with (Z.of_nat (String.length base + 0)) by lia.
  replace (Z.of_nat (String.length base + 3) - 2)
    with (Z.of_nat (String.length base + 1)) by lia.
  replace (Z.of_nat (String.length base + 3) - 1)
    with (Z.of_nat (String.length base + 2)) by lia.
  set (s := base +:+ "[0]"). set (n := String.length base).
  rewrite (string_at_inside s (n + 0) "[") by apply get_append_r.
  rewrite (string_at_inside s (n + 1) "0") by apply get_append_r.
  rewrite (string_at_inside s (n + 2) "]") by apply get_append_r.
  done.
Qed.

Lemma ends_in_index_zero_true (s : string) :
  ends_in_index_zero s = Done true →
  s = String.substring 0 (String.length s - 3) s +:+ "[0]".
Proof.
  unfold ends_in_index_zero, string_at.
  set (c := Z.of_nat (String.length s)).
  destruct ((0 <=? c - 3) && (c - 3 <=? c)) eqn:H3; [|done].
  simpl. destruct (String.get (Z.to_nat (c - 3)) s) as [a|] eqn:Ha; simpl;
    [|done].
  destruct (Ascii.eqb a "[") eqn:Ea; [|done]. apply Ascii.eqb_eq in Ea as ->.
  simpl. destruct ((0 <=? c - 2) && (c - 2 <=? c)) eqn:H2; [|done].
  simpl. destruct (String.get (Z.to_nat (c - 2)) s) as [b|] eqn:Hb; simpl;
    [|done].
  destruct (Ascii.eqb b "0") eqn:Eb; [|done]. apply Ascii.eqb_eq in Eb as ->.
  simpl. destruct ((0 <=? c - 1) && (c - 1 <=? c)) eqn:H1; [|done].
  simpl. destruct (String.get (Z.to_nat (c - 1)) s) as [d|] eqn:Hd; simpl;
    [|done].
  intros [= Ed]. apply Ascii.eqb_eq in Ed as ->.
  assert (3 ≤ c) by lia.
  apply last_three.
  - lia.
  - by replace (String.length s - 3)%nat with (Z.to_nat (c - 3)) by lia.
  - by replace (String.length s - 3 + 1)%nat with (Z.to_nat (c - 2)) by lia.
  - by replace (String.length s - 3 + 2)%nat with (Z.to_nat (c - 1)) by lia.
Qed.

Lemma ends_in_index_zero_defined (s : string) :
  (3 ≤ String.length s)%nat → returns (ends_in_index_zero s).
Proof.
  intros Hlen. unfold ends_in_index_zero, string_at, returns.
  set (c := Z.of_nat (String.length s)).
  assert (3 ≤ c) by lia.
  replace ((0 <=? c - 3) && (c - 3 <=? c)) with true by lia. simpl.
  destruct (Ascii.eqb _ "["); simpl; [|by eexists].
  replace ((0 <=? c - 2) && (c - 2 <=? c)) with true by lia. simpl.
  destruct (Ascii.eqb _ "0"); simpl; [|by eexists].
  replace ((0 <=? c - 1) && (c - 1 <=? c)) with true by lia. simpl.
  by eexists.
Qed.

Lemma ends_in_index_zero_short (s : string) :
  (String.length s < 3)%nat → ends_in_index_zero s = Undefined OutOfBounds.
Proof.
  intros Hlen. unfold ends_in_index_zero.
  rewrite (string_at_negative s (Z.of_nat (String.length s) - 3)) by lia.
  done.
Qed.

Lemma RDCMAX_max (a b : Z) : RDCMAX a b = Z.max a b.
Proof. unfold RDCMAX. destruct (a <? b) eqn:E; lia. Qed.

Lemma RDCMIN_min (a b : Z) : RDCMIN a b = Z.min a b.
Proof. unfold RDCMIN. destruct (a <? b) eqn:E; lia. Qed.

(** ** The element count of a described variable *)

Lemma describe_accepted (r : ProgramResource) (ty : VarType) :
  var_type_of (res_type r) = Some ty →
  describe r =
    (trimmed ← ends_in_index_zero (res_name r);
     mret (Some (mkConstant
       (if trimmed : bool
        then String.substring 0 (String.length (res_name r) - 3) (res_name r)
        else res_name r)
       (var_reg r)
       (mkVarType
          (mkDescriptor ty (rows_of (res_type r)) (cols_of (res_type r))
             (if trimmed : bool then RDCMAX 1 (res_array_size r) else 0)
             (0 <? res_is_row_major r) (type_name_of (res_type r)))
          [])))).
Proof. intros Hty. unfold describe. by rewrite Hty. Qed.

(** C2, as the specification words it, fails: for the array [arr[0]] of four
    floats the code keeps the count 4 where the specification forces 0. *)
Lemma elements_not_as_specified :
  ¬ (∀ r v, describe r = Done (Some v) → elements v = elements_as_specified r).
Proof.
  intros Hspec.
  pose (r := float_uniform "arr[0]" (-1) 4).
  specialize (Hspec r
    (mkConstant "arr" (mkReg UINT_MAX UINT_MAX)
       (mkVarType (mkDescriptor eVar_Float 1 1 4 false "float") []))
    eq_refl).
  vm_compute in Hspec. discriminate Hspec.
Qed.

(** C2, amended: for a variable that passes the type switch and whose name has
    at least three characters, [describe] returns; when the name ends in
    [[0]] the suffix is cut and the element count is the array size clamped
    to 1 from below, and otherwise the name is kept and the count is 0. *)
Theorem describe_elements (r : ProgramResource) (ty : VarType) :
  var_type_of (res_type r) = Some ty →
  (3 ≤ String.length (res_name r))%nat →
  ∃ v, describe r = Done (Some v) ∧
    (∀ base, res_name r = base +:+ "[0]" →
       name v = base ∧ elements v = Z.max 1 (res_array_size r)) ∧
    ((∀ base, res_name r ≠ base +:+ "[0]") →
       name v = res_name r ∧ elements v = 0).
Proof.
  intros Hty Hlen. rewrite (describe_accepted r ty Hty).
  destruct (ends_in_index_zero_defined _ Hlen) as [trimmed Htrim].
  rewrite Htrim. simpl. eexists. split; [done|].
  destruct trimmed; simpl.
  - apply ends_in_index_zero_true in Htrim. split.
    + intros base Hbase. split; [|apply RDCMAX_max].
      rewrite Hbase, length_append. simpl String.length.
      replace (String.length base + 3 - 3)%nat with (String.length base) by lia.
      apply substring_append_l.
    + intros Hno. by destruct (Hno _ Htrim).
  - split; [|done].
    intros base Hbase. rewrite Hbase, ends_in_index_zero_suffix in Htrim.
    discriminate Htrim.
Qed.

Lemma describe_elements_witness :
  ∃ v, describe (float_uniform "arr[0]" (-1) 4) = Done (Some v) ∧
    (∀ base, "arr[0]" = base +:+ "[0]" → name v = base ∧ elements v = Z.max 1 4) ∧
    ((∀ base, "arr[0]" ≠ base +:+ "[0]") → name v = "arr[0]" ∧ elements v = 0).
Proof.
  apply (describe_elements (float_uniform "arr[0]" (-1) 4) eVar_Float).
  - reflexivity.
  - simpl. lia.
Defined.

(** C10: the trailing-[[0]] test of a one-character name reads position
    [1 - 3] of the name, which lies before its storage. *)
Theorem short_name_read_before_storage :
  string_at "t" (Z.of_nat (String.length "t") - 3) = Undefined OutOfBounds ∧
  describe (float_uniform "t" (-1) 1) = Undefined OutOfBounds.
Proof. split; reflexivity. Qed.

(** The same holds for every variable whose name has fewer than three
    characters. *)
Lemma describe_short_name (r : ProgramResource) (ty : VarType) :
  var_type_of (res_type r) = Some ty →
  (String.length (res_name r) < 3)%nat →
  describe r = Undefined OutOfBounds.
Proof.
  intros Hty Hlen. rewrite (describe_accepted r ty Hty).
  by rewrite ends_in_index_zero_short.
Qed.

(** ** Variables without a parent block *)




(** ** Reading a segment of the name *)

Lemma append_cons (a : ascii) (s t : string) :
  String a s +:+ t = String a (s +:+ t).
Proof. reflexivity. Qed.

Lemma append_nil (t : string) : EmptyString +:+ t = t.
Proof. reflexivity. Qed.

Lemma strchr_after_plain (base rest : string) (ch : ascii) :
  is_plain base = true → ch ≠ NUL →
  strchr (base +:+ String ch rest) ch = true.
Proof.
  intros Hplain Hch. induction base as [|a base IH].
  - rewrite append_nil. simpl.
    destruct (Ascii.eqb ch NUL) eqn:E; [by apply Ascii.eqb_eq in E|].
    by rewrite Ascii.eqb_refl.
  - rewrite append_cons. simpl in *.
    destruct (is_separator a); [done|]. destruct (Ascii.eqb a NUL); [done|].
    simpl in Hplain. rewrite IH by done. by destruct (Ascii.eqb a ch).
Qed.

Lemma split_base_plain (base rest : string) (sep : ascii) :
  is_plain base = true → is_separator sep = true →
  split_base (base +:+ String sep rest) = Done (base, sep, rest).
Proof.
  intros Hplain Hsep. induction base as [|a base IH].
  - rewrite append_nil. simpl. by rewrite Hsep.
  - rewrite append_cons. simpl in *.
    destruct (is_separator a); [done|]. simpl in Hplain.
    rewrite IH by (by destruct (Ascii.eqb a NUL)). done.
Qed.

Lemma digit_value_range (a : ascii) : is_digit a = true → 0 ≤ digit_value a ≤ 9.
Proof. unfold is_digit, digit_value. lia. Qed.

Lemma decimal_from_ge (s : string) : ∀ acc,
  all_digits s = true → 0 ≤ acc → acc ≤ decimal_from acc s.
Proof.
  induction s as [|a s IH]; intros acc Hd Hacc; simpl in *; [lia|].
  apply andb_prop in Hd as [Ha Hs]. apply digit_value_range in Ha.
  specialize (IH (acc * 10 + digit_value a) Hs). lia.
Qed.

Lemma parse_index_digits (ds rest : string) (stop : ascii) : ∀ acc,
  all_digits ds = true → is_digit stop = false →
  0 ≤ acc → decimal_from acc ds ≤ INT_MAX →
  parse_index (ds +:+ String stop rest) acc
  = Done (decimal_from acc ds, String stop rest).
Proof.
  induction ds as [|a ds IH]; intros acc Hd Hstop Hacc Hmax.
  - rewrite append_nil. simpl. by rewrite Hstop.
  - rewrite append_cons. simpl in *.
    apply andb_prop in Hd as [Ha Hs]. rewrite Ha.
    pose proof (digit_value_range a Ha).
    pose proof (decimal_from_ge ds (acc * 10 + digit_value a) Hs).
    replace (INT_MAX <? acc * 10) with false by lia.
    replace (INT_MAX <? acc * 10 + digit_value a) with false by lia.
    apply IH; [done | done | lia | done].
Qed.

Lemma array_segment_indexed (ds rest : string) :
  all_digits ds = true → decimal ds ≤ INT_MAX →
  array_segment (ds +:+ "]." +:+ rest) = Done (Some (decimal ds, rest)).
Proof.
  intros Hd Hmax. unfold array_segment.
  change ("]." +:+ rest) with (String "]" (String "." rest)).
  rewrite (parse_index_digits ds _ "]" 0); [done | done | done | lia | done].
Qed.

Lemma parent_elements_array (k : Z) :
  0 ≤ k < INT_MAX → parent_elements true k = Done (k + 1).
Proof.
  intros Hk. unfold parent_elements, to_uint32, INT_MAX in *.
  replace (2147483647 <? k + 1) with false by lia.
  rewrite RDCMAX_max, Z.mod_small by lia. f_equal. lia.
Qed.

(** ** The walk ends within its budget *)

Lemma split_base_shorter (s : string) : ∀ base sep rest,
  split_base s = Done (base, sep, rest) →
  (String.length rest < String.length s)%nat.
Proof.
  induction s as [|a s IH]; intros base sep rest Hsplit; simpl in Hsplit;
    [done|].
  destruct (is_separator a).
  - injection Hsplit as <- <- <-. simpl. lia.
  - destruct (split_base s) as [[[b sp] r]| |]; simpl in Hsplit; [|done..].
    injection Hsplit as <- <- <-. specialize (IH b sp r eq_refl). simpl. lia.
Qed.

Lemma split_base_no_timeout (s : string) : split_base s ≠ Timeout.
Proof.
  induction s as [|a s IH]; simpl; [done|].
  destruct (is_separator a); [done|]. by destruct (split_base s) as [[[??]?]| |].
Qed.

Lemma parse_index_shorter (s : string) : ∀ acc k rest,
  parse_index s acc = Done (k, rest) →
  (String.length rest ≤ String.length s)%nat.
Proof.
  induction s as [|a s IH]; intros acc k rest Hparse; simpl in Hparse.
  - by injection Hparse as <- <-.
  - destruct (is_digit a).
    + destruct (INT_MAX <? acc * 10); [done|].
      destruct (INT_MAX <? acc * 10 + digit_value a); [done|].
      apply IH in Hparse. simpl. lia.
    + by injection Hparse as <- <-.
Qed.

Lemma parse_index_no_timeout (s : string) : ∀ acc, parse_index s acc ≠ Timeout.
Proof.
  induction s as [|a s IH]; intros acc; simpl; [done|].
  destruct (is_digit a); [|done].
  destruct (INT_MAX <? acc * 10); [done|].
  by destruct (INT_MAX <? acc * 10 + digit_value a).
Qed.

Lemma array_segment_shorter (s : string) (k : Z) (rest : string) :
  array_segment s = Done (Some (k, rest)) →
  (String.length rest < String.length s)%nat.
Proof.
  unfold array_segment.
  destruct (parse_index s 0) as [[idx s1]| |] eqn:Hparse; simpl; [|done..].
  apply parse_index_shorter in Hparse.
  destruct s1 as [|c [|a s3]]; [done | done |].
  destruct (Ascii.eqb a "."); [|done].
  intros [= <- <-]. simpl in Hparse. lia.
Qed.

Lemma array_segment_no_timeout (s : string) : array_segment s ≠ Timeout.
Proof.
  unfold array_segment. pose proof (parse_index_no_timeout s 0).
  destruct (parse_index s 0) as [[idx s1]| |]; simpl; [|done..].
  destruct s1 as [|c [|a s3]]; [done | done |].
  by destruct (Ascii.eqb a ".").
Qed.

(** The budget [ReconstructVarTree] gives the walk, one more than the length
    of the name, is never used up. *)
Lemma walk_within_budget (budget : nat) : ∀ var nm members,
  (String.length nm < budget)%nat → walk budget var nm members ≠ Timeout.
Proof.
  induction budget as [|b IH]; intros var nm members Hlen; [lia|].
  simpl. destruct (strchr nm "." || strchr nm "["); [|done].
  pose proof (split_base_no_timeout nm) as Hsplit.
  destruct (split_base nm) as [[[base sep] nm1]| |] eqn:Hbase; simpl;
    [|done..].
  apply split_base_shorter in Hbase.
  assert (∀ k nm2,
            (if Ascii.eqb sep "[" then array_segment nm1
             else Done (Some (0, nm1))) = Done (Some (k, nm2)) →
            (String.length nm2 < b)%nat) as Hshort.
  { intros k nm2. destruct (Ascii.eqb sep "[").
    - intros Hseg%array_segment_shorter. lia.
    - intros [= <- <-]. lia. }
  assert ((if Ascii.eqb sep "[" then array_segment nm1
           else Done (Some (0, nm1))) ≠ Timeout) as Hseg.
  { destruct (Ascii.eqb sep "["); [apply array_segment_no_timeout | done]. }
  destruct (if Ascii.eqb sep "[" then array_segment nm1
            else Done (Some (0, nm1))) as [[[arrayIdx nm2]|]| |];
    simpl; [|done..].
  specialize (Hshort arrayIdx nm2 eq_refl).
  destruct (parent_elements _ arrayIdx) as [elems| |] eqn:Helems; simpl;
    [|done|].
  - destruct (list_find _ members) as [[i found]|];
      (destruct (0 <? arrayIdx); [done|]).
    + specialize (IH var nm2
                    (children (merge_parent (make_parent base var elems) found))
                    Hshort).
      by destruct (walk b var nm2 _) as [[ms lg]| |].
    + specialize (IH var nm2 [] Hshort).
      by destruct (walk b var nm2 []) as [[ms lg]| |].
  - unfold parent_elements in Helems.
    destruct (Ascii.eqb sep "["); [|done].
    by destruct (INT_MAX <? arrayIdx + 1).
Qed.

Lemma ReconstructVarTree_no_timeout (n : Z) (r : ProgramResource)
    (st : TreeState) :
  ReconstructVarTree n r st ≠ Timeout.
Proof.
  unfold ReconstructVarTree.
  assert (describe r ≠ Timeout) as Hdescribe.
  { unfold describe. destruct (var_type_of (res_type r)); [|done].
    unfold ends_in_index_zero, string_at.
    repeat (match goal with
            | |- context [if ?b then _ else _] => destruct b; cbn
            end; try done). }
  destruct (describe r) as [[var|]| |]; cbn -[walk]; [|done..].
  assert (∀ members,
            walk (S (String.length (name var))) var (name var) members
            ≠ Timeout) as Hwalk
    by (intros members; apply walk_within_budget; lia).
  destruct (negb (res_block_index r =? -1) && (res_block_index r <? n)).
  - destruct (0 <=? res_block_index r); [|done].
    destruct (parentBlocks st !! _) as [members|]; [|done].
    specialize (Hwalk members).
    by destruct (walk _ var (name var) members) as [[ms lg]| |].
  - destruct (defaultBlock st) as [members|]; [|done].
    specialize (Hwalk members).
    by destruct (walk _ var (name var) members) as [[ms lg]| |].
Qed.

(** ** Merging array elements into one node *)

Lemma merge_parent_shape (parentVar found : DynShaderConstant) :
  name (merge_parent parentVar found) = name found ∧
  elements (merge_parent parentVar found)
    = Z.max (elements found) (elements parentVar) ∧
  children (merge_parent parentVar found) = children found.
Proof.
  unfold merge_parent, elements, children. simpl.
  by rewrite RDCMAX_max.
Qed.

Lemma walk_array_segment (var : DynShaderConstant) (base ds rest : string)
    (members : list DynShaderConstant) (b : nat) :
  is_plain base = true → all_digits ds = true → decimal ds < INT_MAX →
  walk (S b) var (base +:+ "[" +:+ ds +:+ "]." +:+ rest) members =
    let k := decimal ds in
    let parentVar := make_parent base var (k + 1) in
    match list_find (λ v, name v = base) members with
    | Some (i, found) =>
        let node := merge_parent parentVar found in
        if 0 <? k then Done (<[i := node]> members, [])
        else
          '(ms, lg) ← walk b var rest (children found);
          Done (<[i := set_members ms node]> members, lg)
    | None =>
        if 0 <? k then Done (members ++ [parentVar], [])
        else
          '(ms, lg) ← walk b var rest [];
          Done (members ++ [set_members ms parentVar], lg)
    end.
Proof.
  intros Hplain Hdigits Hmax.
  assert (0 ≤ decimal ds) by (by apply decimal_from_ge).
  change ("[" +:+ ds +:+ "]." +:+ rest) with (String "[" (ds +:+ "]." +:+ rest)).
  simpl walk.
  rewrite (strchr_after_plain base _ "[") by done.
  rewrite orb_true_r, split_base_plain by done.
  simpl. rewrite array_segment_indexed by (done || lia).
  pose proof (parent_elements_array (decimal ds)) as Helems.
  unfold parent_elements in Helems. simpl. rewrite Helems by lia.
  simpl. destruct (list_find _ members) as [[i found]|]; done.
Qed.

Lemma walk_naked_array (var : DynShaderConstant) (base ds rest : string)
    (members : list DynShaderConstant) (b : nat) :
  is_plain base = true → all_digits ds = true → decimal ds ≤ INT_MAX →
  String.get 0 rest ≠ Some "."%char →
  walk (S b) var (base +:+ "[" +:+ ds +:+ "]" +:+ rest) members
  = Done (members, [WarnNakedArray]).
Proof.
  intros Hplain Hdigits Hmax Hrest.
  change ("[" +:+ ds +:+ "]" +:+ rest) with (String "[" (ds +:+ String "]" rest)).
  simpl walk.
  rewrite (strchr_after_plain base _ "[") by done.
  rewrite orb_true_r, split_base_plain by done.
  simpl. unfold array_segment.
  rewrite (parse_index_digits ds rest "]" 0); [|done|done|done|done].
  cbn. destruct rest as [|a rest]; [done|].
  destruct (Ascii.eqb a ".") eqn:E; [|done].
  apply Ascii.eqb_eq in E as ->. by destruct Hrest.
Qed.

(** C1, as the specification words it, fails: an index that another index
    follows, as in [foo[2][0].x], ends the walk at the test for a naked array,
    before any node is looked up.  The node [foo] that is there keeps its
    element count, and where there is none, none is made. *)
Lemma index_before_bracket_not_merged :
  ¬ (∀ (var : DynShaderConstant) (base ds rest : string)
       (members : list DynShaderConstant) (i : nat) (found : DynShaderConstant),
       is_plain base = true → all_digits ds = true → decimal ds < INT_MAX →
       list_find (λ v, name v = base) members = Some (i, found) →
       let nm := base +:+ "[" +:+ ds +:+ "]" +:+ rest in
       ∃ members' lg node,
         walk (S (String.length nm)) var nm members = Done (members', lg) ∧
         members' !! i = Some node ∧ name node = base ∧
         elements node = Z.max (elements found) (decimal ds + 1)) ∧
  (∃ foo,
     reconstruct_all 0
       [float_uniform "foo[0].x" (-1) 1; float_uniform "foo[2][0].x" (-1) 1]
       (uniforms_start 0)
     = Done (mkTreeState [] (Some [foo]) [WarnNakedArray]) ∧
     name foo = "foo" ∧ elements foo = 1) ∧
  reconstruct_all 0 [float_uniform "s[0][0].x" (-1) 1] (uniforms_start 0)
  = Done (mkTreeState [] (Some []) [WarnNakedArray]).
Proof.
  split; [|split].
  - intros Hmerge.
    destruct (Hmerge leaf_x "foo" "2" "[0].x" [foo_of_one] 0%nat foo_of_one
                eq_refl eq_refl eq_refl eq_refl)
      as (members' & lg & node & Hwalk & Hnode & _ & Helems).
    vm_compute in Hwalk. injection Hwalk as <- <-.
    injection Hnode as <-. vm_compute in Helems. discriminate Helems.
  - eexists. split; [reflexivity|]. split; reflexivity.
  - reflexivity.
Qed.

(** C1, amended: a segment [base[k]] of the name that a [.] follows.  When
    a node named [base] is already among the siblings, its element count
    becomes the maximum of its count and [k + 1]; when there is none, a node
    with count [k + 1] and no members is appended.  For [k > 0] that is all
    the call does to the siblings: nothing is added below the node and no
    warning is logged.  For [k = 0] the walk goes on below the node with the
    rest of the name.  Hence [foo[0].x] then [foo[2].x] leave one node [foo]
    with 3 elements and the single member [x], and [bar[0].a], [bar[1].a],
    [bar[1].b] leave one node [bar] whose only member is [a].  A segment
    [base[k]] that anything but a [.] follows ends the walk with the warning
    about a naked array and leaves the siblings as they are. *)
Theorem indexed_segment_merges :
  (∀ (var : DynShaderConstant) (base ds rest : string)
     (members : list DynShaderConstant) (b : nat),
     is_plain base = true → all_digits ds = true → decimal ds < INT_MAX →
     let k := decimal ds in
     let nm := base +:+ "[" +:+ ds +:+ "]." +:+ rest in
     (∀ i found,
        list_find (λ v, name v = base) members = Some (i, found) →
        ∃ node,
          name node = base ∧
          elements node = Z.max (elements found) (k + 1) ∧
          children node = children found ∧
          (0 < k → walk (S b) var nm members = Done (<[i := node]> members, [])) ∧
          (k = 0 →
           walk (S b) var nm members =
             '(ms, lg) ← walk b var rest (children found);
             Done (<[i := set_members ms node]> members, lg))) ∧
     (list_find (λ v, name v = base) members = None →
        ∃ node,
          name node = base ∧ elements node = k + 1 ∧ children node = [] ∧
          (0 < k → walk (S b) var nm members = Done (members ++ [node], [])) ∧
          (k = 0 →
           walk (S b) var nm members =
             '(ms, lg) ← walk b var rest [];
             Done (members ++ [set_members ms node], lg)))) ∧
  (∀ (r1 r2 : ProgramResource) (ty1 ty2 : VarType) (n : Z)
     (blocks : list (list DynShaderConstant)),
     res_name r1 = "foo[0].x" → res_name r2 = "foo[2].x" →
     var_type_of (res_type r1) = Some ty1 → var_type_of (res_type r2) = Some ty2 →
     res_block_index r1 = -1 → res_block_index r2 = -1 →
     ∃ foo x,
       reconstruct_all n [r1; r2] (mkTreeState blocks (Some []) [])
       = Done (mkTreeState blocks (Some [foo]) []) ∧
       name foo = "foo" ∧ elements foo = 3 ∧ children foo = [x] ∧
       name x = "x" ∧ children x = []) ∧
  (∀ (r1 r2 r3 : ProgramResource) (ty1 ty2 ty3 : VarType) (n : Z)
     (blocks : list (list DynShaderConstant)),
     res_name r1 = "bar[0].a" → res_name r2 = "bar[1].a" →
     res_name r3 = "bar[1].b" →
     var_type_of (res_type r1) = Some ty1 → var_type_of (res_type r2) = Some ty2 →
     var_type_of (res_type r3) = Some ty3 →
     res_block_index r1 = -1 → res_block_index r2 = -1 →
     res_block_index r3 = -1 →
     ∃ bar a,
       reconstruct_all n [r1; r2; r3] (mkTreeState blocks (Some []) [])
       = Done (mkTreeState blocks (Some [bar]) []) ∧
       name bar = "bar" ∧ elements bar = 2 ∧ children bar = [a] ∧
       name a = "a" ∧ children a = []) ∧
  (∀ (var : DynShaderConstant) (base ds rest : string)
     (members : list DynShaderConstant) (b : nat),
     is_plain base = true → all_digits ds = true → decimal ds ≤ INT_MAX →
     String.get 0 rest ≠ Some "."%char →
     walk (S b) var (base +:+ "[" +:+ ds +:+ "]" +:+ rest) members
     = Done (members, [WarnNakedArray])).
Proof.
  split; [|split; [|split]].
  - intros var base ds rest members b Hplain Hdigits Hmax k nm.
    pose proof (walk_array_segment var base ds rest members b
                  Hplain Hdigits Hmax) as Hwalk.
    cbv zeta in Hwalk. fold k nm in Hwalk. split.
    + intros i found Hfind. rewrite Hfind in Hwalk.
      exists (merge_parent (make_parent base var (k + 1)) found).
      destruct (merge_parent_shape (make_parent base var (k + 1)) found)
        as (Hname & Helems & Hchildren).
      apply list_find_Some in Hfind as (_ & Hbase & _).
      split; [congruence|]. split; [by rewrite Helems|].
      split; [done|]. split.
      * intros Hk. rewrite Hwalk. by replace (0 <? k) with true by lia.
      * intros Hk. rewrite Hwalk. by replace (0 <? k) with false by lia.
    + intros Hfind. rewrite Hfind in Hwalk.
      exists (make_parent base var (k + 1)).
      repeat split.
      * intros Hk. rewrite Hwalk. by replace (0 <? k) with true by lia.
      * intros Hk. rewrite Hwalk. by replace (0 <? k) with false by lia.
  - intros r1 r2 ty1 ty2 n blocks Hn1 Hn2 Ht1 Ht2 Hb1 Hb2.
    unfold reconstruct_all, ReconstructVarTree.
    rewrite (describe_accepted r1 ty1 Ht1), (describe_accepted r2 ty2 Ht2).
    rewrite Hn1, Hn2, Hb1, Hb2.
    change (ends_in_index_zero "foo[0].x") with (@Done bool false).
    change (ends_in_index_zero "foo[2].x") with (@Done bool false).
    simpl. eexists _, _. repeat split.
  - intros r1 r2 r3 ty1 ty2 ty3 n blocks Hn1 Hn2 Hn3 Ht1 Ht2 Ht3 Hb1 Hb2 Hb3.
    unfold reconstruct_all, ReconstructVarTree.
    rewrite (describe_accepted r1 ty1 Ht1), (describe_accepted r2 ty2 Ht2),
      (describe_accepted r3 ty3 Ht3).
    rewrite Hn1, Hn2, Hn3, Hb1, Hb2, Hb3.
    change (ends_in_index_zero "bar[0].a") with (@Done bool false).
    change (ends_in_index_zero "bar[1].a") with (@Done bool false).
    change (ends_in_index_zero "bar[1].b") with (@Done bool false).
    simpl. eexists _, _. repeat split.
  - intros var base ds rest members b. apply walk_naked_array.
Qed.

Lemma indexed_segment_merges_witness :
  ∃ node,
    name node = "foo" ∧
    elements node = Z.max (elements foo_of_one) (2 + 1) ∧
    children node = children foo_of_one ∧
    (0 < 2 → walk 9 leaf_x "foo[2].x" [foo_of_one] = Done (<[0%nat := node]> [foo_of_one], [])) ∧
    (2 = 0 →
     walk 9 leaf_x "foo[2].x" [foo_of_one] =
       '(ms, lg) ← walk 8 leaf_x "x" (children foo_of_one);
       Done (<[0%nat := set_members ms node]> [foo_of_one], lg)).
Proof.
  assert (decimal "2" < INT_MAX) as Hmax by (vm_compute; reflexivity).
  exact (proj1 (proj1 indexed_segment_merges leaf_x "foo" "2" "x" [foo_of_one]
                  8%nat eq_refl eq_refl Hmax) 0%nat foo_of_one eq_refl).
Defined.

(** ** Names within a sibling list *)

(** C5, as the specification words it, fails: a variable reported twice
    leaves two siblings of the same name. *)
Lemma sibling_names_repeat :
  ¬ (∀ n rs st, reconstruct_all n rs (uniforms_start 0) = Done st →
                state_names_unique st).
Proof.
  intros Hunique.
  pose (r := float_uniform "pos" (-1) 1).
  destruct (Hunique 0 [r; r] _ eq_refl) as [_ Hdefault].
  specialize (Hdefault _ eq_refl). vm_compute in Hdefault.
  discriminate Hdefault.
Qed.

Lemma structs_unique_below_children (v : DynShaderConstant) :
  structs_unique_below v = structs_unique (children v).
Proof. by destruct v as [n r [d ms]]. Qed.

Lemma structs_unique_spec (l : list DynShaderConstant) :
  structs_unique l = true ↔
  NoDup (struct_names l) ∧ Forall (λ v, structs_unique (children v) = true) l.
Proof.
  unfold structs_unique at 1. rewrite andb_true_iff, bool_decide_eq_true.
  rewrite forallb_forall, Forall_forall.
  split; intros [Hnd Hall]; (split; [done|]); intros v Hv.
  - rewrite <- structs_unique_below_children. apply Hall.
    by apply list_elem_of_In.
  - rewrite structs_unique_below_children. apply Hall.
    by apply list_elem_of_In.
Qed.

Lemma struct_names_app (l1 l2 : list DynShaderConstant) :
  struct_names (l1 ++ l2) = struct_names l1 ++ struct_names l2.
Proof. unfold struct_names. by rewrite List.filter_app, map_app. Qed.

Lemma struct_names_subset (l : list DynShaderConstant) (n : string) :
  n ∈ struct_names l → n ∈ map name l.
Proof.
  unfold struct_names. rewrite !list_elem_of_fmap.
  intros (v & -> & Hv). exists v. split; [done|].
  apply list_elem_of_In, List.filter_In in Hv as [Hv _].
  by apply list_elem_of_In.
Qed.

Lemma struct_names_insert (l : list DynShaderConstant) : ∀ i found node,
  l !! i = Some found →
  name node = name found → is_struct node = is_struct found →
  struct_names (<[i := node]> l) = struct_names l.
Proof.
  unfold struct_names.
  induction l as [|x l IH]; intros [|i] found node Hi Hname Hstruct;
    simplify_eq/=.
  - rewrite Hstruct. destruct (is_struct found); simpl; by rewrite ?Hname.
  - specialize (IH i found node Hi Hname Hstruct).
    destruct (is_struct x); simpl; by rewrite IH.
Qed.

Lemma list_find_name_None (l : list DynShaderConstant) (base : string) :
  list_find (λ v, name v = base) l = None → base ∉ map name l.
Proof.
  intros Hfind Hin. apply list_elem_of_fmap in Hin as (v & -> & Hv).
  eapply list_find_None in Hfind. rewrite Forall_forall in Hfind.
  by apply (Hfind v).
Qed.

Lemma structs_unique_insert (l : list DynShaderConstant) i found node :
  l !! i = Some found →
  name node = name found → is_struct node = is_struct found →
  structs_unique (children node) = true →
  structs_unique l = true → structs_unique (<[i := node]> l) = true.
Proof.
  intros Hi Hname Hstruct Hnode. rewrite !structs_unique_spec.
  intros [Hnd Hall]. split.
  - by rewrite (struct_names_insert l i found node).
  - by apply Forall_insert.
Qed.

Lemma structs_unique_snoc (l : list DynShaderConstant) node :
  (is_struct node = true → name node ∉ map name l) →
  structs_unique (children node) = true →
  structs_unique l = true → structs_unique (l ++ [node]) = true.
Proof.
  intros Hfresh Hnode. rewrite !structs_unique_spec.
  intros [Hnd Hall]. split.
  - rewrite struct_names_app. unfold struct_names at 2. simpl.
    destruct (is_struct node) eqn:Hs; simpl; [|by rewrite app_nil_r].
    apply NoDup_app. split; [done|]. split; [|apply NoDup_singleton].
    intros n Hn ->%list_elem_of_singleton.
    by apply Hfresh, struct_names_subset.
  - apply Forall_app. split; [done|]. by apply Forall_singleton.
Qed.

Lemma structs_unique_child (l : list DynShaderConstant) i v :
  structs_unique l = true → l !! i = Some v →
  structs_unique (children v) = true.
Proof.
  rewrite structs_unique_spec. intros [_ Hall] Hi.
  by apply (Forall_lookup_1 _ _ _ _ Hall Hi).
Qed.

Lemma walk_structs_unique (budget : nat) : ∀ var nm members members' lg,
  is_struct var = false → structs_unique (children var) = true →
  structs_unique members = true →
  walk budget var nm members = Done (members', lg) →
  structs_unique members' = true.
Proof.
  induction budget as [|b IH]; intros var nm members members' lg
    Hleaf Hvar Hinv Hwalk; [done|].
  simpl in Hwalk. destruct (strchr nm "." || strchr nm "[").
  - destruct (split_base nm) as [[[base sep] nm1]| |]; simpl in Hwalk;
      try done.
    destruct (if Ascii.eqb sep "[" then array_segment nm1
              else Done (Some (0, nm1))) as [[[arrayIdx nm2]|]| |];
      simpl in Hwalk; try done; [|by simplify_eq].
    destruct (parent_elements _ arrayIdx) as [elems| |]; simpl in Hwalk;
      try done.
    destruct (list_find _ members) as [[i found]|] eqn:Hfind.
    + apply list_find_Some in Hfind as (Hi & Hbase & _).
      pose proof (structs_unique_child _ _ _ Hinv Hi) as Hfound.
      destruct (0 <? arrayIdx).
      * simplify_eq. by apply (structs_unique_insert _ _ found).
      * destruct (walk b var nm2 _) as [[ms lg']| |] eqn:Hrec;
          simpl in Hwalk; try done. simplify_eq.
        apply (structs_unique_insert _ _ found); try done.
        by apply (IH _ _ _ _ _ Hleaf Hvar Hfound Hrec).
    + apply list_find_name_None in Hfind.
      destruct (0 <? arrayIdx).
      * simplify_eq. by apply structs_unique_snoc.
      * destruct (walk b var nm2 []) as [[ms lg']| |] eqn:Hrec;
          simpl in Hwalk; try done. simplify_eq.
        apply structs_unique_snoc; try done.
        by apply (IH var nm2 [] ms lg Hleaf Hvar eq_refl Hrec).
  - simplify_eq. apply structs_unique_snoc; try done.
    unfold is_struct in *. simpl. by rewrite Hleaf.
Qed.

Lemma describe_leaf (r : ProgramResource) (var : DynShaderConstant) :
  describe r = Done (Some var) → is_struct var = false ∧ children var = [].
Proof.
  unfold describe. destruct (var_type_of (res_type r)) as [ty|] eqn:Hty;
    [|done].
  destruct (ends_in_index_zero (res_name r)) as [trimmed| |]; simpl; try done.
  intros [= <-]. split; [|done].
  unfold is_struct. simpl. by destruct (res_type r).
Qed.

Lemma ReconstructVarTree_structs_unique (n : Z) (r : ProgramResource)
    (st st' : TreeState) :
  state_structs_unique st →
  ReconstructVarTree n r st = Done st' →
  state_structs_unique st'.
Proof.
  intros [Hblocks Hdefault]. unfold ReconstructVarTree.
  destruct (describe r) as [[var|]| |] eqn:Hvar; cbn -[walk]; try done;
    [|by intros [= <-]].
  apply describe_leaf in Hvar as [Hleaf Hchildren].
  assert (structs_unique (children var) = true) as Hbelow
    by (by rewrite Hchildren).
  destruct (negb (res_block_index r =? -1) && (res_block_index r <? n)).
  - destruct (0 <=? res_block_index r); [|done].
    destruct (parentBlocks st !! _) as [members|] eqn:Hi; [|done].
    destruct (walk _ var (name var) members) as [[ms lg]| |] eqn:Hwalk;
      simpl; try done.
    intros [= <-]. split; simpl; [|done].
    apply Forall_insert; [done|].
    eapply walk_structs_unique; [done | done | | done].
    by apply (Forall_lookup_1 _ _ _ _ Hblocks Hi).
  - destruct (defaultBlock st) as [members|] eqn:Hd.
    + destruct (walk _ var (name var) members) as [[ms lg]| |] eqn:Hwalk;
        simpl; try done.
      intros [= <-]. split; simpl; [done|].
      intros l [= <-].
      eapply walk_structs_unique; [done | done | | done]. by apply Hdefault.
    + intros [= <-]. split; simpl; [done|]. done.
Qed.

Lemma reconstruct_all_structs_unique (n : Z) (rs : list ProgramResource) :
  ∀ st st',
  state_structs_unique st →
  reconstruct_all n rs st = Done st' →
  state_structs_unique st'.
Proof.
  induction rs as [|r rs IH]; intros st st' Hinv Hrun; simpl in Hrun.
  - by simplify_eq.
  - destruct (ReconstructVarTree n r st) as [st1| |] eqn:Hcall; simpl in Hrun;
      try done.
    apply (IH st1 st'); [|done].
    by apply (ReconstructVarTree_structs_unique n r st).
Qed.

(** *** All names, when every leaf is new *)

Lemma names_unique_below_children (v : DynShaderConstant) :
  names_unique_below v = names_unique (children v).
Proof. by destruct v as [n r [d ms]]. Qed.

Lemma names_unique_spec (l : list DynShaderConstant) :
  names_unique l = true ↔
  NoDup (map name l) ∧ Forall (λ v, names_unique (children v) = true) l.
Proof.
  unfold names_unique at 1. rewrite andb_true_iff, bool_decide_eq_true.
  rewrite forallb_forall, Forall_forall.
  split; intros [Hnd Hall]; (split; [done|]); intros v Hv.
  - rewrite <- names_unique_below_children. apply Hall.
    by apply list_elem_of_In.
  - rewrite names_unique_below_children. apply Hall.
    by apply list_elem_of_In.
Qed.

Lemma names_insert (l : list DynShaderConstant) : ∀ i found node,
  l !! i = Some found → name node = name found →
  map name (<[i := node]> l) = map name l.
Proof.
  induction l as [|x l IH]; intros [|i] found node Hi Hname; simplify_eq/=.
  - by rewrite Hname.
  - by rewrite (IH i found node).
Qed.

Lemma names_unique_insert (l : list DynShaderConstant) i found node :
  l !! i = Some found → name node = name found →
  names_unique (children node) = true →
  names_unique l = true → names_unique (<[i := node]> l) = true.
Proof.
  intros Hi Hname Hnode. rewrite !names_unique_spec.
  intros [Hnd Hall]. split.
  - by rewrite (names_insert l i found node).
  - by apply Forall_insert.
Qed.

Lemma names_unique_snoc (l : list DynShaderConstant) node :
  name node ∉ map name l →
  names_unique (children node) = true →
  names_unique l = true → names_unique (l ++ [node]) = true.
Proof.
  intros Hfresh Hnode. rewrite !names_unique_spec.
  intros [Hnd Hall]. split.
  - rewrite map_app. simpl. apply NoDup_app. split; [done|].
    split; [|apply NoDup_singleton].
    by intros n Hn ->%list_elem_of_singleton.
  - apply Forall_app. split; [done|]. by apply Forall_singleton.
Qed.

Lemma names_unique_child (l : list DynShaderConstant) i v :
  names_unique l = true → l !! i = Some v →
  names_unique (children v) = true.
Proof.
  rewrite names_unique_spec. intros [_ Hall] Hi.
  by apply (Forall_lookup_1 _ _ _ _ Hall Hi).
Qed.

Lemma walk_names_unique (budget : nat) : ∀ var nm members members' lg,
  names_unique (children var) = true →
  names_unique members = true →
  leaf_clash budget nm members = false →
  walk budget var nm members = Done (members', lg) →
  names_unique members' = true.
Proof.
  induction budget as [|b IH]; intros var nm members members' lg
    Hvar Hinv Hnew Hwalk; [done|].
  simpl in Hwalk, Hnew. destruct (strchr nm "." || strchr nm "[").
  - destruct (split_base nm) as [[[base sep] nm1]| |]; simpl in Hwalk;
      try done.
    destruct (if Ascii.eqb sep "[" then array_segment nm1
              else Done (Some (0, nm1))) as [[[arrayIdx nm2]|]| |];
      simpl in Hwalk; try done; [|by simplify_eq].
    destruct (parent_elements _ arrayIdx) as [elems| |]; simpl in Hwalk;
      try done.
    destruct (list_find _ members) as [[i found]|] eqn:Hfind.
    + apply list_find_Some in Hfind as (Hi & Hbase & _).
      pose proof (names_unique_child _ _ _ Hinv Hi) as Hfound.
      destruct (0 <? arrayIdx).
      * simplify_eq. by apply (names_unique_insert _ _ found).
      * destruct (walk b var nm2 _) as [[ms lg']| |] eqn:Hrec;
          simpl in Hwalk; try done. simplify_eq.
        apply (names_unique_insert _ _ found); try done.
        by apply (IH _ _ _ _ _ Hvar Hfound Hnew Hrec).
    + apply list_find_name_None in Hfind.
      destruct (0 <? arrayIdx).
      * simplify_eq. by apply names_unique_snoc.
      * destruct (walk b var nm2 []) as [[ms lg']| |] eqn:Hrec;
          simpl in Hwalk; try done. simplify_eq.
        apply names_unique_snoc; try done.
        by apply (IH var nm2 [] ms lg Hvar eq_refl Hnew Hrec).
  - simplify_eq. apply bool_decide_eq_false in Hnew.
    by apply names_unique_snoc.
Qed.

Lemma ReconstructVarTree_names_unique (n : Z) (r : ProgramResource)
    (st st' : TreeState) :
  state_names_unique st →
  record_clash n r st = false →
  ReconstructVarTree n r st = Done st' →
  state_names_unique st'.
Proof.
  intros [Hblocks Hdefault]. unfold ReconstructVarTree, record_clash,
    selected_members.
  destruct (describe r) as [[var|]| |] eqn:Hvar; cbn -[walk leaf_clash];
    try done; [|by intros _ [= <-]].
  apply describe_leaf in Hvar as [_ Hchildren].
  assert (names_unique (children var) = true) as Hbelow
    by (by rewrite Hchildren).
  destruct (negb (res_block_index r =? -1) && (res_block_index r <? n)).
  - destruct (0 <=? res_block_index r); [|done].
    destruct (parentBlocks st !! _) as [members|] eqn:Hi; [|done].
    intros Hnew.
    destruct (walk _ var (name var) members) as [[ms lg]| |] eqn:Hwalk;
      cbn; try done.
    intros [= <-]. split; simpl; [|done].
    apply Forall_insert; [done|].
    eapply walk_names_unique; [done | | done | done].
    by apply (Forall_lookup_1 _ _ _ _ Hblocks Hi).
  - destruct (defaultBlock st) as [members|] eqn:Hd.
    + intros Hnew.
      destruct (walk _ var (name var) members) as [[ms lg]| |] eqn:Hwalk;
        cbn; try done.
      intros [= <-]. split; simpl; [done|].
      intros l [= <-].
      eapply walk_names_unique; [done | | done | done]. by apply Hdefault.
    + intros _ [= <-]. split; simpl; [done|]. done.
Qed.

Lemma reconstruct_all_names_unique (n : Z) (rs : list ProgramResource) :
  ∀ st st',
  state_names_unique st →
  leaves_are_new n rs st →
  reconstruct_all n rs st = Done st' →
  state_names_unique st'.
Proof.
  induction rs as [|r rs IH]; intros st st' Hinv Hnew Hrun; simpl in Hrun.
  - by simplify_eq.
  - destruct Hnew as [Hclash Hrest].
    destruct (ReconstructVarTree n r st) as [st1| |] eqn:Hcall; simpl in Hrun;
      try done.
    apply (IH st1 st'); [|by apply Hrest|done].
    by apply (ReconstructVarTree_names_unique n r st).
Qed.

(** *** Element counts *)

Lemma node_at_nil (path : list string) : node_at path [] = None.
Proof. by destruct path. Qed.

Lemma is_struct_merge_parent (parentVar found : DynShaderConstant) :
  is_struct (merge_parent parentVar found) = is_struct found.
Proof. done. Qed.

Lemma is_struct_set_members (ms : list DynShaderConstant) (v : DynShaderConstant) :
  is_struct (set_members ms v) = is_struct v ∧
  elements (set_members ms v) = elements v ∧
  name (set_members ms v) = name v ∧
  children (set_members ms v) = ms.
Proof. done. Qed.

Lemma parent_elements_nonneg (isarray : bool) (k e : Z) :
  parent_elements isarray k = Done e → 0 ≤ e.
Proof.
  unfold parent_elements. destruct isarray; [|by intros [= <-]].
  destruct (INT_MAX <? k + 1); [done|]. intros [= <-].
  rewrite RDCMAX_max. lia.
Qed.

(** The first node of a name after a node was replaced by one of the same
    name. *)
Lemma list_find_name_insert (l : list DynShaderConstant) (base : string) :
  ∀ (i : nat) (found node : DynShaderConstant),
  l !! i = Some found → name node = name found →
  list_find (λ v, name v = base) (<[i := node]> l) =
  (λ jv, (jv.1, if decide (jv.1 = i) then node else jv.2)) <$>
    list_find (λ v, name v = base) l.
Proof.
  induction l as [|x l IH]; intros [|i] found node Hi Hname; simplify_eq/=.
  - rewrite Hname. destruct (decide (name found = base)); [done|].
    by destruct (list_find _ l) as [[j v]|].
  - destruct (decide (name x = base)); [done|].
    rewrite (IH i found node Hi Hname).
    destruct (list_find _ l) as [[j v]|]; [|done]. cbn.
    destruct (decide (j = i)).
    + by rewrite decide_True by lia.
    + by rewrite decide_False by lia.
Qed.

(** The first node of a name after a node was appended. *)
Lemma list_find_name_snoc (l : list DynShaderConstant) (base : string)
    (node : DynShaderConstant) :
  list_find (λ v, name v = base) (l ++ [node]) =
  match list_find (λ v, name v = base) l with
  | Some jv => Some jv
  | None => if decide (name node = base) then Some (length l, node) else None
  end.
Proof.
  induction l as [|x l IH]; cbn.
  - by destruct (decide (name node = base)).
  - destruct (decide (name x = base)); [done|]. rewrite IH.
    destruct (list_find _ l) as [[j v]|]; [done|].
    by destruct (decide (name node = base)).
Qed.

Lemma counted_keep (old : option DynShaderConstant) : counted old None old.
Proof. destruct old as [v|]; cbn; [by exists v|done]. Qed.

Lemma node_at_cons (base : string) (path : list string)
    (l : list DynShaderConstant) :
  node_at (base :: path) l =
  match list_find (λ v, name v = base) l with
  | Some (_, v) =>
      match path with
      | [] => Some v
      | _ => node_at path (children v)
      end
  | None => None
  end.
Proof. done. Qed.

Lemma node_at_insert_other (l : list DynShaderConstant) (i : nat)
    (found node : DynShaderConstant) (base : string) (path : list string) :
  l !! i = Some found → name node = name found → name found ≠ base →
  node_at (base :: path) (<[i := node]> l) = node_at (base :: path) l.
Proof.
  intros Hi Hname Hother. rewrite !node_at_cons.
  rewrite (list_find_name_insert l base i found node Hi Hname).
  destruct (list_find _ l) as [[j v]|] eqn:Hfind; [|done]. cbn.
  apply list_find_Some in Hfind as (Hj & Hv & _).
  rewrite decide_False; [done|]. intros ->. congruence.
Qed.

Lemma node_at_insert_same (l : list DynShaderConstant) (i : nat)
    (found node : DynShaderConstant) (base : string) (path : list string) :
  list_find (λ v, name v = base) l = Some (i, found) → name node = base →
  node_at (base :: path) (<[i := node]> l) =
  match path with
  | [] => Some node
  | _ => node_at path (children node)
  end.
Proof.
  intros Hfind Hname. rewrite node_at_cons.
  pose proof Hfind as (Hi & Hbase & _)%list_find_Some.
  rewrite (list_find_name_insert l base i found node Hi) by congruence.
  rewrite Hfind. cbn. by rewrite decide_True.
Qed.

Lemma node_at_snoc_other (l : list DynShaderConstant) (node : DynShaderConstant)
    (base : string) (path : list string) :
  name node ≠ base →
  node_at (base :: path) (l ++ [node]) = node_at (base :: path) l.
Proof.
  intros Hother. rewrite !node_at_cons, list_find_name_snoc.
  destruct (list_find _ l) as [[j v]|]; [done|]. by rewrite decide_False.
Qed.

Lemma node_at_snoc_old (l : list DynShaderConstant) (node : DynShaderConstant)
    (base : string) (path : list string) (jv : nat * DynShaderConstant) :
  list_find (λ v, name v = base) l = Some jv →
  node_at (base :: path) (l ++ [node]) = node_at (base :: path) l.
Proof.
  intros Hfind. by rewrite !node_at_cons, list_find_name_snoc, Hfind.
Qed.

Lemma node_at_snoc_new (l : list DynShaderConstant) (node : DynShaderConstant)
    (base : string) (path : list string) :
  list_find (λ v, name v = base) l = None → name node = base →
  node_at (base :: path) l = None ∧
  node_at (base :: path) (l ++ [node]) =
  match path with
  | [] => Some node
  | _ => node_at path (children node)
  end.
Proof.
  intros Hfind Hname. rewrite !node_at_cons, list_find_name_snoc, Hfind.
  by rewrite decide_True.
Qed.

Lemma count_at_cons (base b : string) (e : Z) (path : list string)
    (segs : list (string * Z)) :
  count_at (base :: path) ((b, e) :: segs) =
  if decide (b = base) then
    match path with
    | [] => Some e
    | _ => count_at path segs
    end
  else None.
Proof. done. Qed.

Lemma count_at_nil (path : list string) : count_at path [] = None.
Proof. by destruct path. Qed.

Lemma walk_counted (budget : nat) : ∀ var nm l l' lg,
  is_struct var = false → children var = [] →
  walk budget var nm l = Done (l', lg) →
  ∀ path,
  counted (node_at path l) (count_at path (segments budget nm)) (node_at path l').
Proof.
  induction budget as [|b IH]; intros var nm l l' lg Hleaf Hkids Hwalk path;
    [done|].
  cbn [walk segments] in *.
  destruct (strchr nm "." || strchr nm "[").
  - destruct (split_base nm) as [[[base sep] nm1]| |];
      cbn [mbind outcome_bind] in Hwalk; try done.
    destruct (if Ascii.eqb sep "[" then array_segment nm1
              else Done (Some (0, nm1))) as [[[arrayIdx nm2]|]| |];
      cbn [mbind outcome_bind] in Hwalk; try done;
      [|injection Hwalk as <- <-; rewrite count_at_nil; apply counted_keep].
    destruct (parent_elements _ arrayIdx) as [elems| |] eqn:Helems;
      cbn [mbind outcome_bind] in Hwalk; try done.
    apply parent_elements_nonneg in Helems.
    destruct path as [|B path']; [done|].
    rewrite count_at_cons.
    set (parentVar := make_parent base var elems) in *.
    destruct (list_find _ l) as [[i found]|] eqn:Hfind.
    + pose proof Hfind as (Hi & Hbase & _)%list_find_Some.
      set (node := merge_parent parentVar found) in *.
      assert (elements node = Z.max (elements found) elems) as Hnode
        by (unfold node, merge_parent, elements; cbn; apply RDCMAX_max).
      destruct (decide (base = B)) as [<-|HB].
      * assert (node_at (base :: path') l =
                match path' with
                | [] => Some found
                | _ => node_at path' (children found)
                end) as Hold by (by rewrite node_at_cons, Hfind).
        destruct (0 <? arrayIdx).
        -- injection Hwalk as <- <-.
           rewrite (node_at_insert_same l i found node base path' Hfind)
             by done.
           rewrite Hold. destruct path' as [|B' path'']; cbn [counted].
           ++ by exists node.
           ++ rewrite ?count_at_nil. apply counted_keep.
        -- destruct (walk b var nm2 (children node)) as [[ms lg']| |] eqn:Hrec;
             cbn [mbind outcome_bind] in Hwalk; try done.
           injection Hwalk as <- <-.
           rewrite (node_at_insert_same l i found (set_members ms node)
                      base path' Hfind) by done.
           rewrite Hold. destruct path' as [|B' path'']; cbn [counted].
           ++ by exists (set_members ms node).
           ++ exact (IH var nm2 (children node) ms lg' Hleaf Hkids Hrec (B' :: path'')).
      * assert (node_at (B :: path') l' = node_at (B :: path') l) as ->;
          [|apply counted_keep].
        destruct (0 <? arrayIdx).
        -- injection Hwalk as <- <-.
           apply (node_at_insert_other l i found); [done|done|congruence].
        -- destruct (walk b var nm2 (children node)) as [[ms lg']| |];
             cbn [mbind outcome_bind] in Hwalk; try done.
           injection Hwalk as <- <-.
           apply (node_at_insert_other l i found); [done|done|congruence].
    + destruct (decide (base = B)) as [<-|HB].
      * destruct (0 <? arrayIdx).
        -- injection Hwalk as <- <-.
           destruct (node_at_snoc_new l parentVar base path' Hfind eq_refl)
             as [-> ->].
           destruct path' as [|B' path'']; cbn [counted].
           ++ by exists parentVar.
           ++ rewrite ?count_at_nil. done.
        -- destruct (walk b var nm2 []) as [[ms lg']| |] eqn:Hrec;
             cbn [mbind outcome_bind] in Hwalk; try done.
           injection Hwalk as <- <-.
           destruct (node_at_snoc_new l (set_members ms parentVar) base path'
                       Hfind eq_refl) as [-> ->].
           destruct path' as [|B' path'']; cbn [counted].
           ++ by exists (set_members ms parentVar).
           ++ pose proof (IH var nm2 [] ms lg' Hleaf Hkids Hrec (B' :: path''))
                as Hbelow.
              rewrite node_at_nil in Hbelow. exact Hbelow.
      * assert (node_at (B :: path') l' = node_at (B :: path') l) as ->;
          [|apply counted_keep].
        destruct (0 <? arrayIdx).
        -- injection Hwalk as <- <-. by apply node_at_snoc_other.
        -- destruct (walk b var nm2 []) as [[ms lg']| |];
             cbn [mbind outcome_bind] in Hwalk; try done.
           injection Hwalk as <- <-. by apply node_at_snoc_other.
  - injection Hwalk as <- <-. rewrite count_at_nil.
    destruct path as [|B path']; [done|].
    destruct (list_find (λ v, name v = B) l) as [jv|] eqn:Hfind.
    + rewrite (node_at_snoc_old l _ B path' jv Hfind). apply counted_keep.
    + destruct (decide (name (rename (c_str nm) var) = B)) as [Hname|Hname].
      * destruct (node_at_snoc_new l _ B path' Hfind Hname) as [-> ->].
        cbn [counted]. intros v'. destruct path' as [|B' path''].
        -- intros [= <-]. done.
        -- change (children (rename (c_str nm) var)) with (children var).
           rewrite Hkids, node_at_nil. done.
      * rewrite (node_at_snoc_other l _ B path' Hname). apply counted_keep.
Qed.

Lemma segments_nonneg (budget : nat) : ∀ nm,
  Forall (λ be, 0 ≤ be.2) (segments budget nm).
Proof.
  induction budget as [|b IH]; intros nm; cbn [segments]; [done|].
  destruct (strchr nm "." || strchr nm "["); [|done].
  destruct (split_base nm) as [[[base sep] nm1]| |]; [|done..].
  destruct (if Ascii.eqb sep "[" then array_segment nm1
            else Done (Some (0, nm1))) as [[[arrayIdx nm2]|]| |]; [|done..].
  destruct (parent_elements _ arrayIdx) as [elems| |] eqn:Helems; [|done..].
  apply parent_elements_nonneg in Helems.
  apply Forall_cons. split; [done|]. by destruct (0 <? arrayIdx).
Qed.

Lemma count_at_nonneg (segs : list (string * Z)) : ∀ path e,
  Forall (λ be, 0 ≤ be.2) segs → count_at path segs = Some e → 0 ≤ e.
Proof.
  induction segs as [|[b e0] segs IH]; intros path e Hsegs.
  - by rewrite count_at_nil.
  - apply Forall_cons in Hsegs as [He0 Hsegs].
    destruct path as [|base path]; [done|]. rewrite count_at_cons.
    destruct (decide (b = base)); [|done].
    destruct path as [|base' path]; [by intros [= <-]|].
    by apply IH.
Qed.

Lemma max_count_snoc (counts : list Z) (e : Z) :
  0 ≤ e → max_count (counts ++ [e]) = Z.max (max_count counts) e.
Proof.
  intros He. unfold max_count. rewrite foldr_app. cbn.
  induction counts as [|x counts IH]; cbn; [lia|]. rewrite IH. lia.
Qed.

Lemma seen_counts_snoc (n : Z) (rs : list ProgramResource)
    (r : ProgramResource) (block : option nat) (path : list string) :
  seen_counts n (rs ++ [r]) block path =
  seen_counts n rs block path ++
  (if decide (record_block n r = block)
   then option_list (count_at path (record_segments r)) else []).
Proof.
  unfold seen_counts. rewrite omap_app. f_equal. cbn.
  destruct (decide (record_block n r = block)); [|done].
  by destruct (count_at path (record_segments r)).
Qed.

Lemma counted_seen (old new : option DynShaderConstant) (count : option Z)
    (seen : list Z) :
  counted old count new → (∀ e, count = Some e → 0 ≤ e) →
  match old with
  | Some v => is_struct v = true → elements v = max_count seen
  | None => seen = []
  end →
  match new with
  | Some v' =>
      is_struct v' = true → elements v' = max_count (seen ++ option_list count)
  | None => seen ++ option_list count = []
  end.
Proof.
  intros Hstep Hcount Hold.
  destruct old as [v|], count as [e|]; cbn [counted option_list option_rect] in *.
  - destruct Hstep as (v' & -> & Hkind & Helems). intros Hv'.
    rewrite max_count_snoc by (by apply Hcount).
    rewrite Helems, Hold; [done|congruence].
  - destruct Hstep as (v' & -> & Hkind & Helems). intros Hv'.
    rewrite app_nil_r, Helems. apply Hold. congruence.
  - destruct Hstep as (v' & -> & Hkind & Helems). intros _.
    subst seen. cbn. specialize (Hcount e eq_refl). unfold max_count. cbn. lia.
  - subst seen. destruct new as [v'|]; [|done].
    intros Hv'. by rewrite (Hstep v' eq_refl) in Hv'.
Qed.

Lemma ReconstructVarTree_counts (n : Z) (done : list ProgramResource)
    (r : ProgramResource) (st st' : TreeState) :
  counts_as_seen n done st →
  ReconstructVarTree n r st = Done st' →
  counts_as_seen n (done ++ [r]) st'.
Proof.
  intros Hinv Hcall block l' path Hl'. rewrite seen_counts_snoc.
  assert (∀ l, block_of st block = Some l →
               record_block n r ≠ block ∨ record_segments r = [] →
               match node_at path l with
               | Some v =>
                   is_struct v = true →
                   elements v =
                     max_count
                       (seen_counts n done block path ++
                        (if decide (record_block n r = block)
                         then option_list (count_at path (record_segments r))
                         else []))
               | None =>
                   seen_counts n done block path ++
                   (if decide (record_block n r = block)
                    then option_list (count_at path (record_segments r))
                    else []) = []
               end) as Hother.
  { intros l Hl Hnone.
    assert ((if decide (record_block n r = block)
             then option_list (count_at path (record_segments r))
             else []) = []) as ->.
    { destruct Hnone as [Hne| ->]; [by rewrite decide_False|].
      rewrite count_at_nil. by destruct (decide _). }
    rewrite app_nil_r. by apply Hinv. }
  unfold ReconstructVarTree in Hcall.
  destruct (describe r) as [[var|]| |] eqn:Hvar; cbn -[walk] in Hcall;
    try done.
  2: { injection Hcall as <-. apply Hother; [done|]. right.
       unfold record_segments. by rewrite Hvar. }
  pose proof (describe_leaf r var Hvar) as [Hleaf Hkids].
  assert (record_segments r
          = segments (S (String.length (name var))) (name var)) as Hsegs
    by (unfold record_segments; by rewrite Hvar).
  assert (∀ pm ms lg,
            block_of st block = Some pm → record_block n r = block →
            walk (S (String.length (name var))) var (name var) pm
            = Done (ms, lg) →
            match node_at path ms with
            | Some v =>
                is_struct v = true →
                elements v =
                  max_count
                    (seen_counts n done block path ++
                     (if decide (record_block n r = block)
                      then option_list (count_at path (record_segments r))
                      else []))
            | None =>
                seen_counts n done block path ++
                (if decide (record_block n r = block)
                 then option_list (count_at path (record_segments r))
                 else []) = []
            end) as Hhere.
  { intros pm ms lg Hpm Hblock Hwalk. rewrite decide_True by done.
    apply (counted_seen (node_at path pm)).
    - rewrite Hsegs. by apply (walk_counted _ var (name var) pm ms lg).
    - intros e. rewrite Hsegs. apply count_at_nonneg, segments_nonneg.
    - by apply Hinv. }
  unfold record_block in Hother, Hhere |- *.
  destruct (negb (res_block_index r =? -1) && (res_block_index r <? n)).
  - destruct (0 <=? res_block_index r); [|done].
    destruct (parentBlocks st !! Z.to_nat (res_block_index r)) as [pm|] eqn:Hpm;
      [|done].
    destruct (walk _ var (name var) pm) as [[ms lg]| |] eqn:Hwalk;
      cbn -[walk] in Hcall; try done.
    injection Hcall as <-.
    destruct block as [j|]; cbn in Hl'.
    + destruct (decide (j = Z.to_nat (res_block_index r))) as [->|Hj].
      * rewrite list_lookup_insert_eq in Hl' by (by eapply lookup_lt_Some).
        injection Hl' as <-. by apply (Hhere pm ms lg).
      * rewrite list_lookup_insert_ne in Hl' by done.
        apply Hother; [done|]. left. congruence.
    + apply Hother; [done|]. by left.
  - destruct (defaultBlock st) as [pm|] eqn:Hpm.
    + destruct (walk _ var (name var) pm) as [[ms lg]| |] eqn:Hwalk;
        cbn -[walk] in Hcall; try done.
      injection Hcall as <-.
      destruct block as [j|]; cbn in Hl'.
      * apply Hother; [done|]. by left.
      * injection Hl' as <-. by apply (Hhere pm ms lg).
    + injection Hcall as <-.
      destruct block as [j|]; cbn in Hl'; [|done].
      apply Hother; [done|]. by left.
Qed.

Lemma reconstruct_all_counts (n : Z) (rs : list ProgramResource) :
  ∀ done st st',
  counts_as_seen n done st →
  reconstruct_all n rs st = Done st' →
  counts_as_seen n (done ++ rs) st'.
Proof.
  induction rs as [|r rs IH]; intros done st st' Hinv Hrun; cbn in Hrun.
  - injection Hrun as <-. by rewrite app_nil_r.
  - destruct (ReconstructVarTree n r st) as [st1| |] eqn:Hcall; cbn in Hrun;
      try done.
    rewrite cons_middle, (assoc_L (++)).
    apply (IH (done ++ [r]) st1 st'); [|done].
    by apply (ReconstructVarTree_counts n done r st).
Qed.

Lemma state_empty_counts (n : Z) (st : TreeState) :
  state_empty st → counts_as_seen n [] st.
Proof.
  intros [Hblocks Hdefault] block l path Hl.
  assert (l = []) as ->.
  { destruct block as [i|]; cbn in Hl; [|by apply Hdefault].
    by apply (Forall_lookup_1 _ _ _ _ Hblocks Hl). }
  by rewrite node_at_nil.
Qed.

(** The count a segment with an index brings is the index plus one. *)
Lemma segments_indexed (base ds rest : string) (b : nat) :
  is_plain base = true → all_digits ds = true → decimal ds < INT_MAX →
  segments (S b) (base +:+ "[" +:+ ds +:+ "]." +:+ rest) =
  (base, decimal ds + 1) ::
  (if 0 <? decimal ds then [] else segments b rest).
Proof.
  intros Hplain Hdigits Hmax.
  assert (0 ≤ decimal ds) by (by apply decimal_from_ge).
  change ("[" +:+ ds +:+ "]." +:+ rest) with (String "[" (ds +:+ "]." +:+ rest)).
  cbn [segments].
  rewrite (strchr_after_plain base _ "[") by done.
  rewrite orb_true_r, split_base_plain by done.
  cbn. rewrite array_segment_indexed by (done || lia).
  pose proof (parent_elements_array (decimal ds)) as Helems.
  unfold parent_elements in Helems. rewrite Helems by lia. done.
Qed.

(** C5, amended: over any run of calls that returns, the names of the
    structure nodes stay different within every sibling list, at the top and
    below every node: a base name met again is merged into the node that
    carries it.  After a build that starts from empty vectors, the element
    count of every structure node is the largest count that a variable of
    the run brought to it, a segment [base[k].] bringing [k + 1] and a
    segment [base.] bringing 0.  The leaf of a variable is appended without
    a lookup; when no variable of the run brings a leaf whose name is
    already taken where it is appended, all names stay different within
    every sibling list. *)
Theorem sibling_names_stay_unique (n : Z) (rs : list ProgramResource)
    (st st' : TreeState) :
  reconstruct_all n rs st = Done st' →
  (state_structs_unique st → state_structs_unique st') ∧
  (state_names_unique st → leaves_are_new n rs st → state_names_unique st') ∧
  (state_empty st →
   ∀ block l path v,
     block_of st' block = Some l → node_at path l = Some v →
     is_struct v = true →
     elements v = max_count (seen_counts n rs block path)) ∧
  (∀ (base ds rest : string) (b : nat),
     is_plain base = true → all_digits ds = true → decimal ds < INT_MAX →
     segments (S b) (base +:+ "[" +:+ ds +:+ "]." +:+ rest) =
     (base, decimal ds + 1) ::
     (if 0 <? decimal ds then [] else segments b rest)).
Proof.
  intros Hrun. split; [|split; [|split]].
  - intros Hinv. by apply (reconstruct_all_structs_unique n rs st).
  - intros Hinv Hnew. by apply (reconstruct_all_names_unique n rs st).
  - intros Hempty block l path v Hl Hv Hstruct.
    pose proof (reconstruct_all_counts n rs [] st st'
                  (state_empty_counts n st Hempty) Hrun block l path Hl)
      as Hseen.
    rewrite Hv in Hseen. by apply Hseen.
  - intros base ds rest b. apply segments_indexed.
Qed.

Lemma sibling_names_stay_unique_witness :
  state_structs_unique foo_merged ∧ state_names_unique foo_merged ∧
  ∀ block l path v,
    block_of foo_merged block = Some l → node_at path l = Some v →
    is_struct v = true →
    elements v =
      max_count
        (seen_counts 0
           [float_uniform "foo[0].x" (-1) 1; float_uniform "foo[2].x" (-1) 1]
           block path).
Proof.
  destruct (sibling_names_stay_unique 0
              [float_uniform "foo[0].x" (-1) 1; float_uniform "foo[2].x" (-1) 1]
              (uniforms_start 0) foo_merged eq_refl)
    as (Hstructs & Hnames & Hcounts & _).
  split; [|split].
  - apply Hstructs. split; [constructor | intros l [= <-]; reflexivity].
  - apply Hnames.
    + split; [constructor | intros l [= <-]; reflexivity].
    + split; [reflexivity|]. intros st' [= <-].
      split; [reflexivity|]. intros st' _. exact I.
  - apply Hcounts. split; [constructor | intros l [= <-]; reflexivity].
Defined.

(** The counts that [foo[0].x] and [foo[2].x] bring to the node [foo]. *)
Example seen_counts_foo :
  seen_counts 0
    [float_uniform "foo[0].x" (-1) 1; float_uniform "foo[2].x" (-1) 1]
    None ["foo"] = [1; 3] ∧
  max_count [1; 3] = 3.
Proof. split; reflexivity. Qed.


(** ** sort *)

Lemma sorted_below_children (v : DynShaderConstant) :
  sorted_below v ↔ sorted_everywhere (children v).
Proof.
  destruct v as [n r [d ms]]. unfold sorted_everywhere, children. simpl.
  apply and_iff_compat_l.
  induction ms as [|x ms IH]; [by rewrite Forall_nil|].
  by rewrite Forall_cons, IH.
Qed.

(** C3, as the specification words it, fails: [sort] calls [std::sort], which
    does not keep the order of nodes that compare equal.  With the GNU C++
    library, seventeen nodes that share a register are partitioned once
    around the median of three of them, which swaps the first node with the
    ninth and then the others in pairs from both ends, and they come out in
    another order than the one in which they were found. *)
Lemma tie_order_not_kept :
  ¬ (∀ (vars : list DynShaderConstant) (k : Reg),
       names_at k (sort gnu_std_sort vars) = names_at k vars) ∧
  libstdcxx.sort offset_sort seventeen_ties
  = Done (sort gnu_std_sort seventeen_ties) ∧
  map name (sort gnu_std_sort seventeen_ties) =
    ["n08"; "n16"; "n15"; "n14"; "n13"; "n12"; "n11"; "n10"; "n09"; "n00";
     "n07"; "n06"; "n05"; "n04"; "n03"; "n02"; "n01"].
Proof.
  split; [|split; by vm_compute].
  intros Hstable. specialize (Hstable seventeen_ties (mkReg 0 0)).
  vm_compute in Hstable. discriminate Hstable.
Qed.

(** Up to sixteen nodes only go through the insertion sort of that library,
    which moves a node past those that compare greater and no others: two
    nodes, and sixteen, that share a register stay as they were found. *)
Example two_ties_keep_order :
  map name (sort gnu_std_sort [leaf "first" 0 0; leaf "second" 0 0])
  = ["first"; "second"].
Proof. by vm_compute. Qed.

Example sixteen_ties_keep_order :
  sort gnu_std_sort (take 16 seventeen_ties) = take 16 seventeen_ties.
Proof. by vm_compute. Qed.

(** *** Depth of the recursion *)

Lemma height_children (v : DynShaderConstant) (d : nat) :
  (height v ≤ S d)%nat → within_depth d (children v).
Proof.
  destruct v as [n r [dsc ms]]. simpl. intros Hh.
  apply Forall_forall. intros x Hx.
  assert (height x ≤ max_list (map height ms))%nat
    by (by apply max_list_elem_of_le, list_elem_of_fmap_2).
  lia.
Qed.

Lemma within_depth_max (l : list DynShaderConstant) :
  within_depth (max_list (map height l)) l.
Proof.
  apply Forall_forall. intros x Hx.
  by apply max_list_elem_of_le, list_elem_of_fmap_2.
Qed.

Lemma within_depth_0 (l : list DynShaderConstant) : within_depth 0 l → l = [].
Proof.
  destruct l as [|[n r [d ms]] l]; [done|].
  intros Hd. apply Forall_cons in Hd as [Hh _]. simpl in Hh. lia.
Qed.

Lemma std_sort_nil (lib : StdSort) : std_sort lib [] = [].
Proof. apply Permutation_nil_r. by rewrite std_sort_permutes. Qed.

Lemma sort_to_depth_step (lib : StdSort) (d : nat) (vars : list DynShaderConstant) :
  sort_to_depth lib (S d) vars =
  map (λ v, set_members (sort_to_depth lib d (children v)) v) (std_sort lib vars).
Proof. destruct vars; simpl; [by rewrite std_sort_nil | done]. Qed.

Lemma std_sort_within (lib : StdSort) (d : nat) (vars : list DynShaderConstant) :
  within_depth d vars → within_depth d (std_sort lib vars).
Proof. unfold within_depth. by rewrite std_sort_permutes. Qed.

Lemma sort_to_depth_enough (lib : StdSort) (d : nat) : ∀ d' vars,
  within_depth d vars → within_depth d' vars →
  sort_to_depth lib d vars = sort_to_depth lib d' vars.
Proof.
  induction d as [|d IH]; intros d' vars Hd Hd'.
  - apply within_depth_0 in Hd as ->. by destruct d'.
  - destruct d' as [|d'].
    + by apply within_depth_0 in Hd' as ->.
    + rewrite !sort_to_depth_step. apply map_ext_in. intros v Hv.
      apply list_elem_of_In in Hv. f_equal.
      apply std_sort_within with (lib := lib) in Hd, Hd'.
      unfold within_depth in Hd, Hd'. rewrite Forall_forall in Hd, Hd'.
      apply IH; apply height_children; auto.
Qed.

(** The defining equation of [sort]: sort the vector, then the members of
    each element. *)
Lemma sort_unfold (lib : StdSort) (vars : list DynShaderConstant) :
  sort lib vars =
  map (λ v, set_members (sort lib (children v)) v) (std_sort lib vars).
Proof.
  unfold sort at 1.
  pose proof (within_depth_max vars) as Hd.
  destruct (max_list (map height vars)) as [|d] eqn:Hmax.
  - apply within_depth_0 in Hd as ->. simpl. by rewrite std_sort_nil.
  - rewrite sort_to_depth_step. apply map_ext_in. intros v Hv.
    apply list_elem_of_In in Hv. f_equal. unfold sort.
    apply sort_to_depth_enough; [|apply within_depth_max].
    apply height_children.
    apply std_sort_within with (lib := lib) in Hd.
    unfold within_depth in Hd. rewrite Forall_forall in Hd. auto.
Qed.

Lemma set_members_children (v : DynShaderConstant) :
  set_members (children v) v = v.
Proof. by destruct v as [n r [d ms]]. Qed.

Lemma sort_sorted_everywhere (lib : StdSort) (vars : list DynShaderConstant) :
  sorted_everywhere (sort lib vars).
Proof.
  remember (max_list (map height vars)) as d eqn:Hd.
  assert (within_depth d vars) as Hwithin by (subst d; apply within_depth_max).
  clear Hd. revert vars Hwithin.
  induction d as [|d IH]; intros vars Hwithin.
  - apply within_depth_0 in Hwithin as ->. rewrite sort_unfold, std_sort_nil.
    split; constructor.
  - rewrite sort_unfold. split.
    + apply (StronglySorted_fmap _ (λ a b, offset_sort b a = false));
        [done | apply std_sort_sorts].
    + apply Forall_fmap, Forall_forall. intros v Hv.
      apply sorted_below_children.
      change (sorted_everywhere (sort lib (children v))).
      apply IH, height_children.
      apply std_sort_within with (lib := lib) in Hwithin.
      unfold within_depth in Hwithin. rewrite Forall_forall in Hwithin. auto.
Qed.

Lemma node_paths_children (v : DynShaderConstant) :
  node_paths v =
  ([name v], reg v, descriptor (type v)) ::
  map (λ p, (name v :: p.1.1, p.1.2, p.2)) (tree_paths (children v)).
Proof. by destruct v as [n r [d ms]]. Qed.

Lemma concat_map_Permutation {A B : Type} (f g : A → list B) (l : list A) :
  Forall (λ x, f x ≡ₚ g x) l → concat (map f l) ≡ₚ concat (map g l).
Proof.
  induction 1 as [|x l Hx Hl IH]; [done|]. simpl. by rewrite Hx, IH.
Qed.

Lemma concat_map_Permutation_arg {A B : Type} (f : A → list B) (l l' : list A) :
  l ≡ₚ l' → concat (map f l) ≡ₚ concat (map f l').
Proof. intros Hperm. by rewrite Hperm. Qed.

(** [sort] keeps every node of the tree, at every depth. *)
Lemma sort_keeps_nodes (lib : StdSort) (vars : list DynShaderConstant) :
  tree_paths (sort lib vars) ≡ₚ tree_paths vars.
Proof.
  remember (max_list (map height vars)) as d eqn:Hd.
  assert (within_depth d vars) as Hwithin by (subst d; apply within_depth_max).
  clear Hd. revert vars Hwithin.
  induction d as [|d IH]; intros vars Hwithin.
  - apply within_depth_0 in Hwithin as ->.
    by rewrite sort_unfold, std_sort_nil.
  - rewrite sort_unfold. unfold tree_paths. rewrite map_map.
    etrans; [|apply concat_map_Permutation_arg, (std_sort_permutes lib)].
    apply concat_map_Permutation, Forall_forall. intros v Hv.
    rewrite !node_paths_children. simpl. apply perm_skip, Permutation_map.
    apply IH, height_children.
    apply std_sort_within with (lib := lib) in Hwithin.
    unfold within_depth in Hwithin. rewrite Forall_forall in Hwithin. auto.
Qed.

Lemma sort_leaves (lib : StdSort) (vars : list DynShaderConstant) :
  Forall (λ v, children v = []) vars → sort lib vars = std_sort lib vars.
Proof.
  intros Hleaves. rewrite sort_unfold.
  transitivity (map id (std_sort lib vars)); [|apply map_id].
  apply map_ext_in. intros v Hv. apply list_elem_of_In in Hv.
  rewrite <- (std_sort_permutes lib vars) in Hleaves.
  rewrite Forall_forall in Hleaves. specialize (Hleaves v Hv).
  rewrite Hleaves, sort_unfold, std_sort_nil. simpl.
  rewrite <- Hleaves. apply set_members_children.
Qed.

(** C3, amended: whatever function stands for [std::sort] within its
    contract, after [sort] every sibling list, at the top and below every
    node, is in ascending order of [(reg.vec, reg.comp)], and the tree holds
    the same nodes as before, each under the same names and with the same
    register and descriptor; so it is for every block once all variables are
    processed.  The order among nodes that compare equal is not fixed.
    Three leaves with [reg.vec] 3, 1, 2 come out as 1, 2, 3. *)
Theorem sort_orders_every_level (lib : StdSort) :
  (∀ vars,
     sorted_everywhere (sort lib vars) ∧
     tree_paths (sort lib vars) ≡ₚ tree_paths vars) ∧
  (∀ st,
     Forall sorted_everywhere (parentBlocks (sort_blocks lib st)) ∧
     ∀ l, defaultBlock (sort_blocks lib st) = Some l → sorted_everywhere l) ∧
  (∀ a b c,
     children a = [] → children b = [] → children c = [] →
     vec (reg a) = 3 → vec (reg b) = 1 → vec (reg c) = 2 →
     sort lib [a; b; c] = [b; c; a]).
Proof.
  split; [|split].
  - intros vars. split; [apply sort_sorted_everywhere | apply sort_keeps_nodes].
  - intros st. split.
    + apply Forall_fmap, Forall_forall. intros l _.
      apply sort_sorted_everywhere.
    + simpl. intros l Hl. destruct (defaultBlock st) as [l0|]; [|done].
      injection Hl as <-. apply sort_sorted_everywhere.
  - intros a b c Ha Hb Hc Va Vb Vc.
    rewrite sort_leaves by (by repeat constructor).
    symmetry. apply (StronglySorted_unique_strong (λ x y, offset_sort y x = false)).
    + intros x y Hx Hy Hxy Hyx.
      assert (vec (reg x) = vec (reg y)) as Hvec.
      { unfold offset_sort in Hxy, Hyx.
        destruct (vec (reg y) =? vec (reg x)) eqn:E1; [lia|].
        destruct (vec (reg x) =? vec (reg y)) eqn:E2; lia. }
      rewrite std_sort_permutes in Hy.
      apply list_elem_of_In in Hx. apply list_elem_of_In in Hy.
      simpl in Hx, Hy.
      destruct Hx as [<-|[<-|[<-|[]]]], Hy as [<-|[<-|[<-|[]]]];
        (done || lia).
    + unfold offset_sort. repeat constructor; rewrite ?Va, ?Vb, ?Vc; done.
    + apply std_sort_sorts.
    + rewrite std_sort_permutes. apply (Permutation_app_comm [b; c] [a]).
Qed.

Lemma sort_orders_every_level_witness :
  sort merge_std_sort [leaf "three" 3 0; leaf "one" 1 0; leaf "two" 2 0]
  = [leaf "one" 1 0; leaf "two" 2 0; leaf "three" 3 0].
Proof.
  apply (proj2 (proj2 (sort_orders_every_level merge_std_sort))); reflexivity.
Defined.

(** ** A wrong magic number *)

(** C6, as the specification words it, fails: the text starts with the title
    of the shader stage and an empty line, so the diagnostic is its third
    line. *)
Lemma wrong_magic_text_has_three_lines :
  ¬ (∀ spv budget shaderIdx spirv magic text,
       spirv !! 0%nat = Some magic → magic ≠ MagicNumber spv →
       DisassembleSPIRV spv budget shaderIdx spirv = Done text →
       length (text_lines text) = 1%nat).
Proof.
  intros Hone.
  specialize (Hone sample_spv 0%nat 0%nat [42; 0; 0; 0; 0] 42
                "Vertex Shader SPIR-V:

Unrecognised magic number 0000002a" eq_refl).
  assert (42 ≠ MagicNumber sample_spv) as Hmagic by discriminate.
  specialize (Hone Hmagic eq_refl). vm_compute in Hone. discriminate Hone.
Qed.

(** C6, amended: when the first word is not the magic number, the text is the
    title of the stage followed by [" SPIR-V:"] and an empty line, and then
    the one diagnostic with the word in eight hexadecimal digits; the loop
    budget and the rest of the stream have no part in it. *)
Theorem magic_mismatch_text (spv : SpvHeader) (budget shaderIdx : nat)
    (title : string) (spirv : list Z) (magic : Z) :
  header !! shaderIdx = Some title →
  spirv !! 0%nat = Some magic →
  magic ≠ MagicNumber spv →
  DisassembleSPIRV spv budget shaderIdx spirv =
    Done ((title +:+ " SPIR-V:" +:+ nl +:+ nl) +:+
          "Unrecognised magic number " +:+ fmt_08x magic).
Proof.
  intros Htitle Hword Hmagic. unfold DisassembleSPIRV, word_at.
  rewrite Htitle, Hword. simpl.
  destruct (magic =? MagicNumber spv) eqn:E; [lia|]. done.
Qed.

Lemma magic_mismatch_text_witness :
  DisassembleSPIRV sample_spv 0 4 [3735928559; 7; 7; 7] =
    Done (("Fragment Shader" +:+ " SPIR-V:" +:+ nl +:+ nl) +:+
          "Unrecognised magic number " +:+ fmt_08x 3735928559).
Proof.
  apply magic_mismatch_text; [reflexivity | reflexivity | discriminate].
Defined.

Example magic_mismatch_digits : fmt_08x 3735928559 = "deadbeef".
Proof. reflexivity. Qed.

(** ** The positions a scan visits *)

Lemma scan_trans (spirv : list Z) (a b c : nat) :
  scan spirv a b → scan spirv b c → scan spirv a c.
Proof. induction 1; [done|]. intros Hc. eapply scan_next; eauto. Qed.

Lemma pass1_step_next (spv : SpvHeader) (spirv : list Z) (it : nat)
    (names names' : list string) (it' : nat) :
  pass1_step spv spirv it names = Done (names', it') →
  ∃ w, spirv !! it = Some w ∧ it' = (it + Z.to_nat (WordCount_of w))%nat.
Proof.
  unfold pass1_step, word_at. destruct (spirv !! it) as [w|]; [|done].
  simpl. destruct (if OpCode_of w =? OpName spv then _ else _); simpl; [|done..].
  intros [= <- <-]. by exists w.
Qed.

Lemma pass2_step_next (spv : SpvHeader) (spirv : list Z) (it : nat)
    (st st' : Pass2State) (l : option DisassemblyLine) (it' : nat) :
  pass2_step spv spirv it st = Done (l, st', it') →
  ∃ w, spirv !! it = Some w ∧ it' = (it + Z.to_nat (WordCount_of w))%nat.
Proof.
  unfold pass2_step, word_at. destruct (spirv !! it) as [w|]; [|done].
  simpl. destruct (format_operands _ _ _ _ _) as [[[body silent] st1]| |];
    simpl; [|done..].
  destruct (infunc st1); [|destruct (negb silent)]; intros [= <- <- <-];
    by exists w.
Qed.

(** ** Termination of the two passes *)

Lemma WordCount_of_range (w : Z) : 0 ≤ WordCount_of w < 65536.
Proof. unfold WordCount_of, to_uint16. by apply Z.mod_pos_bound. Qed.

Lemma literal_at_no_timeout (spirv : list Z) (i : nat) :
  literal_at spirv i ≠ Timeout.
Proof.
  unfold literal_at. induction (drop i spirv) as [|w ws IH]; [done|].
  cbn [c_string_of_words].
  destruct (until_nul (word_bytes w)) as [s [|]]; [done|].
  by destruct (c_string_of_words ws).
Qed.

Lemma pass1_step_no_timeout (spv : SpvHeader) (spirv : list Z) (it : nat)
    (names : list string) :
  pass1_step spv spirv it names ≠ Timeout.
Proof.
  unfold pass1_step, word_at, store_name.
  destruct (spirv !! it) as [w|]; simpl; [|done].
  destruct (OpCode_of w =? OpName spv); simpl; [|done].
  destruct (spirv !! (it + 1)%nat) as [id|]; simpl; [|done].
  pose proof (literal_at_no_timeout spirv (it + 2)).
  destruct (literal_at spirv (it + 2)) as [s| |]; simpl; [|done..].
  by destruct (decide _).
Qed.

Lemma format_operands_no_timeout (spv : SpvHeader) (spirv : list Z) (it : nat)
    (OpCode : Z) (st : Pass2State) :
  format_operands spv spirv it OpCode st ≠ Timeout.
Proof.
  unfold format_operands, word_at, store_name, name_of.
  pose proof (literal_at_no_timeout spirv (it + 2)).
  destruct (OpCode =? OpSource spv).
  { by destruct (spirv !! (it + 1)%nat), (spirv !! (it + 2)%nat). }
  destruct (OpCode =? OpExtInstImport spv).
  { destruct (spirv !! (it + 1)%nat); simpl; [|done].
    destruct (literal_at spirv (it + 2)); simpl; [|done..].
    by destruct (decide _). }
  destruct (OpCode =? OpMemoryModel spv).
  { by destruct (spirv !! (it + 1)%nat), (spirv !! (it + 2)%nat). }
  destruct (OpCode =? OpEntryPoint spv).
  { destruct (spirv !! (it + 2)%nat) as [id|]; simpl; [|done].
    destruct (resultnames st !! Z.to_nat id); simpl; [|done].
    by destruct (spirv !! (it + 1)%nat). }
  destruct (OpCode =? OpFunction spv); [done|].
  destruct (OpCode =? OpFunctionEnd spv); [done|].
  by destruct (OpCode =? OpName spv).
Qed.

Lemma pass2_step_no_timeout (spv : SpvHeader) (spirv : list Z) (it : nat)
    (st : Pass2State) :
  pass2_step spv spirv it st ≠ Timeout.
Proof.
  unfold pass2_step, word_at. destruct (spirv !! it) as [w|]; simpl; [|done].
  pose proof (format_operands_no_timeout spv spirv it (OpCode_of w) st).
  destruct (format_operands _ _ _ _ _) as [[[body silent] st1]| |]; simpl;
    [|done..].
  by destruct (infunc st1); [|destruct (negb silent)].
Qed.

Lemma pass1_zero_count_stream (budget : nat) (names : list string) :
  pass1 sample_spv budget zero_count_stream 5 names = Timeout.
Proof. induction budget as [|b IH]; [reflexivity | exact IH]. Qed.

(** C9, as the specification words it, fails: a stream whose first
    instruction has the word count 0 keeps pass 1 at position 5 for any
    number of iterations, and an [OpName] cut off by the end of the stream
    makes pass 1 read past the end. *)
Lemma corrupt_stream_not_detected :
  ¬ (∀ spv spirv names, ∃ budget result,
       pass1 spv budget spirv 5 names = Done result) ∧
  (∀ budget names, pass1 sample_spv budget zero_count_stream 5 names = Timeout) ∧
  pass1 sample_spv 1 cut_name_stream 5 (replicate 8 EmptyString)
    = Undefined OutOfBounds.
Proof.
  split; [|split].
  - intros Hterm.
    destruct (Hterm sample_spv zero_count_stream []) as (budget & result & Hrun).
    by rewrite pass1_zero_count_stream in Hrun.
  - apply pass1_zero_count_stream.
  - reflexivity.
Qed.

Lemma pass1_within_budget (spv : SpvHeader) (spirv : list Z) (budget : nat) :
  ∀ it names,
  (length spirv ≤ it + budget)%nat →
  (∀ q w, scan spirv it q → spirv !! q = Some w → WordCount_of w ≠ 0) →
  pass1 spv budget spirv it names ≠ Timeout.
Proof.
  induction budget as [|b IH]; intros it names Hlen Hcount; simpl.
  - destruct (decide (it < length spirv)%nat); [lia | done].
  - destruct (decide (it < length spirv)%nat); [|done].
    pose proof (pass1_step_no_timeout spv spirv it names).
    destruct (pass1_step spv spirv it names) as [[names' it']| |] eqn:Hstep;
      simpl; [|done..].
    apply pass1_step_next in Hstep as (w & Hw & ->).
    pose proof (WordCount_of_range w).
    pose proof (Hcount it w (scan_here _ _) Hw).
    apply IH; [lia|].
    intros q w' Hq. apply Hcount. by eapply scan_next.
Qed.

Lemma pass2_within_budget (spv : SpvHeader) (spirv : list Z) (budget : nat) :
  ∀ it st,
  (length spirv ≤ it + budget)%nat →
  (∀ q w, scan spirv it q → spirv !! q = Some w → WordCount_of w ≠ 0) →
  pass2 spv budget spirv it st ≠ Timeout.
Proof.
  induction budget as [|b IH]; intros it st Hlen Hcount; simpl.
  - destruct (decide (it < length spirv)%nat); [lia | done].
  - destruct (decide (it < length spirv)%nat); [|done].
    pose proof (pass2_step_no_timeout spv spirv it st).
    destruct (pass2_step spv spirv it st) as [[[ln st'] it']| |] eqn:Hstep;
      simpl; [|done..].
    apply pass2_step_next in Hstep as (w & Hw & ->).
    pose proof (WordCount_of_range w).
    pose proof (Hcount it w (scan_here _ _) Hw).
    specialize (IH (it + Z.to_nat (WordCount_of w))%nat st').
    destruct (pass2 spv b spirv _ st') as [rest| |]; simpl; [done | done |].
    exfalso. apply IH; [lia | | done].
    intros q w' Hq. apply Hcount. by eapply scan_next.
Qed.

Lemma labels_differ (spv : SpvHeader) :
  ∀ (i j : nat) (x y : Z),
  [OpSource spv; OpExtInstImport spv; OpMemoryModel spv; OpEntryPoint spv;
   OpFunction spv; OpFunctionEnd spv; OpName spv] !! i = Some x →
  [OpSource spv; OpExtInstImport spv; OpMemoryModel spv; OpEntryPoint spv;
   OpFunction spv; OpFunctionEnd spv; OpName spv] !! j = Some y →
  i ≠ j → x ≠ y.
Proof.
  intros i j x y Hi Hj Hne ->. apply Hne.
  by apply (NoDup_lookup _ i j y (switch_labels_differ spv)).
Qed.

(** All pairs of labels the proofs below compare. *)
Ltac use_labels spv :=
  pose proof (labels_differ spv 0%nat 4%nat _ _ eq_refl eq_refl ltac:(done));
  pose proof (labels_differ spv 0%nat 5%nat _ _ eq_refl eq_refl ltac:(done));
  pose proof (labels_differ spv 1%nat 4%nat _ _ eq_refl eq_refl ltac:(done));
  pose proof (labels_differ spv 1%nat 5%nat _ _ eq_refl eq_refl ltac:(done));
  pose proof (labels_differ spv 2%nat 4%nat _ _ eq_refl eq_refl ltac:(done));
  pose proof (labels_differ spv 2%nat 5%nat _ _ eq_refl eq_refl ltac:(done));
  pose proof (labels_differ spv 3%nat 4%nat _ _ eq_refl eq_refl ltac:(done));
  pose proof (labels_differ spv 3%nat 5%nat _ _ eq_refl eq_refl ltac:(done));
  pose proof (labels_differ spv 4%nat 5%nat _ _ eq_refl eq_refl ltac:(done));
  pose proof (labels_differ spv 0%nat 3%nat _ _ eq_refl eq_refl ltac:(done));
  pose proof (labels_differ spv 1%nat 3%nat _ _ eq_refl eq_refl ltac:(done));
  pose proof (labels_differ spv 2%nat 3%nat _ _ eq_refl eq_refl ltac:(done));
  pose proof (labels_differ spv 0%nat 1%nat _ _ eq_refl eq_refl ltac:(done));
  pose proof (labels_differ spv 0%nat 6%nat _ _ eq_refl eq_refl ltac:(done));
  pose proof (labels_differ spv 1%nat 6%nat _ _ eq_refl eq_refl ltac:(done));
  pose proof (labels_differ spv 2%nat 6%nat _ _ eq_refl eq_refl ltac:(done));
  pose proof (labels_differ spv 3%nat 6%nat _ _ eq_refl eq_refl ltac:(done));
  pose proof (labels_differ spv 4%nat 6%nat _ _ eq_refl eq_refl ltac:(done));
  pose proof (labels_differ spv 5%nat 6%nat _ _ eq_refl eq_refl ltac:(done)).

(** *** Well-formed streams are read to their end *)

Lemma well_formed_check_scan (spv : SpvHeader) (spirv : list Z) (bound : nat)
    (budget : nat) : ∀ it,
  well_formed_check budget spv spirv bound it = true →
  well_formed_from spv spirv bound it.
Proof.
  induction budget as [|b IH]; intros it Hcheck q w Hscan Hq.
  - destruct Hscan as [it|it w0 q Hw0 Hscan]; cbn [well_formed_check] in Hcheck.
    + rewrite Hq in Hcheck. by rewrite andb_false_r in Hcheck.
    + rewrite Hw0 in Hcheck. by rewrite andb_false_r in Hcheck.
  - destruct Hscan as [it|it w0 q Hw0 Hscan]; cbn [well_formed_check] in Hcheck.
    + rewrite Hq in Hcheck. by apply andb_prop in Hcheck as [Hok _].
    + rewrite Hw0 in Hcheck. apply andb_prop in Hcheck as [_ Hrest].
      by apply (IH _ Hrest q w).
Qed.

Lemma well_formed_from_next (spv : SpvHeader) (spirv : list Z) (bound it : nat)
    (w : Z) :
  well_formed_from spv spirv bound it → spirv !! it = Some w →
  well_formed_from spv spirv bound (it + Z.to_nat (WordCount_of w)).
Proof.
  intros Hwf Hw q w' Hscan. apply Hwf. by eapply scan_next.
Qed.

Lemma c_string_of_words_app (ws more : list Z) (s : string) :
  c_string_of_words ws = Done s → c_string_of_words (ws ++ more) = Done s.
Proof.
  revert s. induction ws as [|w ws IH]; intros s; [done|].
  cbn [c_string_of_words app].
  destruct (until_nul (word_bytes w)) as [t [|]]; [done|].
  destruct (c_string_of_words ws) as [rest| |]; cbn; [|done..].
  intros [= <-]. by rewrite (IH rest eq_refl).
Qed.

Lemma literal_within_at (spirv : list Z) (i e : nat) :
  literal_within spirv i e = true → returns (literal_at spirv i).
Proof.
  unfold literal_within, literal_at.
  destruct (c_string_of_words (drop i (take e spirv))) as [s| |] eqn:Hs;
    [|done..].
  intros _. exists s.
  destruct (decide (e ≤ length spirv)%nat) as [He|He];
    [|by rewrite take_ge in Hs by lia].
  destruct (decide (i ≤ e)%nat) as [Hle|Hgt].
  - rewrite <- (take_drop e spirv) at 1.
    rewrite drop_app_le by (rewrite length_take; lia).
    by apply c_string_of_words_app.
  - rewrite drop_ge in Hs by (rewrite length_take; lia). done.
Qed.

Lemma id_below_lookup (spirv : list Z) (i bound : nat) :
  id_below spirv i bound = true →
  ∃ id, spirv !! i = Some id ∧ (Z.to_nat id < bound)%nat.
Proof.
  unfold id_below. destruct (spirv !! i) as [id|]; [|done].
  intros Hid%bool_decide_eq_true. by exists id.
Qed.

(** What [instruction_ok] gives the passes. *)
Lemma instruction_ok_reads (spv : SpvHeader) (spirv : list Z) (bound it : nat)
    (w : Z) :
  instruction_ok spv spirv bound it w = true →
  (0 < Z.to_nat (WordCount_of w))%nat ∧
  (OpCode_of w = OpName spv ∨ OpCode_of w = OpExtInstImport spv →
   (∃ id, spirv !! (it + 1)%nat = Some id ∧ (Z.to_nat id < bound)%nat) ∧
   returns (literal_at spirv (it + 2))) ∧
  (OpCode_of w = OpSource spv ∨ OpCode_of w = OpMemoryModel spv ∨
   OpCode_of w = OpEntryPoint spv →
   is_Some (spirv !! (it + 1)%nat) ∧ is_Some (spirv !! (it + 2)%nat)) ∧
  (OpCode_of w = OpEntryPoint spv →
   ∃ id, spirv !! (it + 2)%nat = Some id ∧ (Z.to_nat id < bound)%nat).
Proof.
  unfold instruction_ok. cbv zeta. intros Hok.
  apply andb_prop in Hok as [Hhead Hop].
  apply andb_prop in Hhead as [Hwc Hin].
  apply bool_decide_eq_true_1 in Hwc. apply bool_decide_eq_true_1 in Hin.
  split; [done|].
  assert (is_Some (spirv !! (it + 1)%nat) ∧ is_Some (spirv !! (it + 2)%nat) ∨
          ¬ (3 ≤ Z.to_nat (WordCount_of w))%nat) as Hword.
  { destruct (decide (3 ≤ Z.to_nat (WordCount_of w))%nat); [left|by right].
    split; apply lookup_lt_is_Some; lia. }
  clear Hwc Hin. use_labels spv.
  pose proof (labels_differ spv 0%nat 2%nat _ _ eq_refl eq_refl ltac:(done)).
  pose proof (labels_differ spv 1%nat 2%nat _ _ eq_refl eq_refl ltac:(done)).
  destruct (Z.eqb_spec (OpCode_of w) (OpName spv)) as [Hname|Hname].
  { cbn [orb] in Hop.
    apply andb_prop in Hop as [[Hthree%bool_decide_eq_true Hid]%andb_prop Hlit].
    rewrite Hname.
    split; [intros _; split;
              [by apply id_below_lookup | by apply literal_within_at in Hlit]|].
    split; [intros [?|[?|?]]; congruence | intros ?; congruence]. }
  destruct (Z.eqb_spec (OpCode_of w) (OpExtInstImport spv)) as [Himport|Himport].
  { cbn [orb] in Hop.
    apply andb_prop in Hop as [[Hthree%bool_decide_eq_true Hid]%andb_prop Hlit].
    rewrite Himport.
    split; [intros _; split;
              [by apply id_below_lookup | by apply literal_within_at in Hlit]|].
    split; [intros [?|[?|?]]; congruence | intros ?; congruence]. }
  cbn [orb] in Hop. split; [by intros [?|?]|].
  destruct (Z.eqb_spec (OpCode_of w) (OpSource spv)) as [Hsource|Hsource].
  { cbn [orb] in Hop. apply bool_decide_eq_true in Hop.
    rewrite Hsource. split; [|intros ?; congruence].
    intros _. by destruct Hword. }
  destruct (Z.eqb_spec (OpCode_of w) (OpMemoryModel spv)) as [Hmodel|Hmodel].
  { cbn [orb] in Hop. apply bool_decide_eq_true in Hop.
    rewrite Hmodel. split; [|intros ?; congruence].
    intros _. by destruct Hword. }
  cbn [orb] in Hop.
  destruct (Z.eqb_spec (OpCode_of w) (OpEntryPoint spv)) as [Hentry|Hentry].
  { apply andb_prop in Hop as [Hthree%bool_decide_eq_true Hid].
    split; [intros _; by destruct Hword|].
    intros _. by apply id_below_lookup. }
  split; [by intros [?|[?|?]]|done].
Qed.

Lemma pass1_step_returns (spv : SpvHeader) (spirv : list Z) (it : nat)
    (names : list string) (w : Z) :
  spirv !! it = Some w →
  instruction_ok spv spirv (length names) it w = true →
  ∃ names', pass1_step spv spirv it names
            = Done (names', (it + Z.to_nat (WordCount_of w))%nat) ∧
            length names' = length names.
Proof.
  intros Hw (_ & Hname & _)%instruction_ok_reads.
  unfold pass1_step, word_at, store_name. rewrite Hw.
  cbn [mbind outcome_bind].
  destruct (Z.eqb_spec (OpCode_of w) (OpName spv)) as [Hop|Hop];
    [|by exists names].
  destruct (Hname (or_introl Hop)) as [(id & Hid & Hlt) [s Hs]].
  rewrite Hid, Hs. cbn [mbind outcome_bind].
  rewrite decide_True by done. cbn [mbind outcome_bind].
  eexists. split; [done|]. apply length_insert.
Qed.

Lemma pass1_returns (spv : SpvHeader) (spirv : list Z) (budget : nat) :
  ∀ it names,
  (length spirv ≤ it + budget)%nat →
  well_formed_from spv spirv (length names) it →
  returns (pass1 spv budget spirv it names).
Proof.
  induction budget as [|b IH]; intros it names Hlen Hwf; cbn [pass1].
  - destruct (decide (it < length spirv)%nat); [lia | by eexists].
  - destruct (decide (it < length spirv)%nat) as [Hlt|]; [|by eexists].
    destruct (lookup_lt_is_Some_2 spirv it Hlt) as [w Hw].
    pose proof (Hwf it w (scan_here _ _) Hw) as Hok.
    destruct (pass1_step_returns spv spirv it names w Hw Hok)
      as (names' & -> & Hnames).
    cbn [mbind outcome_bind].
    apply instruction_ok_reads in Hok as [Hwc _].
    apply IH; [lia|]. rewrite Hnames. by apply well_formed_from_next.
Qed.

Lemma format_operands_returns (spv : SpvHeader) (spirv : list Z) (it : nat)
    (st : Pass2State) (w : Z) :
  instruction_ok spv spirv (length (resultnames st)) it w = true →
  ∃ body silent st1,
    format_operands spv spirv it (OpCode_of w) st = Done (body, silent, st1) ∧
    length (resultnames st1) = length (resultnames st).
Proof.
  intros (_ & Hname & Hwords & Hentry)%instruction_ok_reads.
  unfold format_operands, word_at, store_name, name_of.
  destruct (Z.eqb_spec (OpCode_of w) (OpSource spv)) as [Hop|?].
  { destruct (Hwords (or_introl Hop)) as [[x ->] [y ->]].
    cbn [mbind outcome_bind]. by eexists _, _, _. }
  destruct (Z.eqb_spec (OpCode_of w) (OpExtInstImport spv)) as [Hop|?].
  { destruct (Hname (or_intror Hop)) as [(id & -> & Hlt) [s ->]].
    cbn [mbind outcome_bind]. rewrite decide_True by done.
    cbn [mbind outcome_bind]. eexists _, _, _. split; [done|].
    cbn. apply length_insert. }
  destruct (Z.eqb_spec (OpCode_of w) (OpMemoryModel spv)) as [Hop|?].
  { destruct (Hwords (or_intror (or_introl Hop))) as [[x ->] [y ->]].
    cbn [mbind outcome_bind]. by eexists _, _, _. }
  destruct (Z.eqb_spec (OpCode_of w) (OpEntryPoint spv)) as [Hop|?].
  { destruct (Hwords (or_intror (or_intror Hop))) as [[x Hx] _].
    destruct (Hentry Hop) as (id & -> & Hlt).
    cbn [mbind outcome_bind].
    destruct (lookup_lt_is_Some_2 (resultnames st) (Z.to_nat id) Hlt)
      as [nm ->].
    rewrite Hx. cbn [mbind outcome_bind]. by eexists _, _, _. }
  destruct (OpCode_of w =? OpFunction spv); [by eexists _, _, _|].
  destruct (OpCode_of w =? OpFunctionEnd spv); [by eexists _, _, _|].
  destruct (OpCode_of w =? OpName spv); by eexists _, _, _.
Qed.

Lemma pass2_step_returns (spv : SpvHeader) (spirv : list Z) (it : nat)
    (st : Pass2State) (w : Z) :
  spirv !! it = Some w →
  instruction_ok spv spirv (length (resultnames st)) it w = true →
  ∃ l st',
    pass2_step spv spirv it st
    = Done (l, st', (it + Z.to_nat (WordCount_of w))%nat) ∧
    length (resultnames st') = length (resultnames st).
Proof.
  intros Hw Hok.
  destruct (format_operands_returns spv spirv it st w Hok)
    as (body & silent & st1 & Hswitch & Hnames).
  unfold pass2_step, word_at. rewrite Hw. cbn [mbind outcome_bind].
  rewrite Hswitch. cbn [mbind outcome_bind].
  destruct (infunc st1); [|destruct (negb silent)]; by eexists _, _.
Qed.

Lemma pass2_returns (spv : SpvHeader) (spirv : list Z) (budget : nat) :
  ∀ it st,
  (length spirv ≤ it + budget)%nat →
  well_formed_from spv spirv (length (resultnames st)) it →
  returns (pass2 spv budget spirv it st).
Proof.
  induction budget as [|b IH]; intros it st Hlen Hwf; cbn [pass2].
  - destruct (decide (it < length spirv)%nat); [lia | by eexists].
  - destruct (decide (it < length spirv)%nat) as [Hlt|]; [|by eexists].
    destruct (lookup_lt_is_Some_2 spirv it Hlt) as [w Hw].
    pose proof (Hwf it w (scan_here _ _) Hw) as Hok.
    destruct (pass2_step_returns spv spirv it st w Hw Hok)
      as (l & st' & -> & Hnames).
    cbn [mbind outcome_bind].
    apply instruction_ok_reads in Hok as [Hwc _].
    destruct (IH (it + Z.to_nat (WordCount_of w))%nat st') as [rest ->];
      [lia | rewrite Hnames; by apply well_formed_from_next |].
    cbn [mbind outcome_bind]. by eexists.
Qed.

Lemma pass1_length (spv : SpvHeader) (spirv : list Z) (budget : nat) :
  ∀ it names names',
  pass1 spv budget spirv it names = Done names' → length names' = length names.
Proof.
  induction budget as [|b IH]; intros it names names' Hrun; cbn [pass1] in Hrun.
  - destruct (decide (it < length spirv)%nat); [done|]. by simplify_eq.
  - destruct (decide (it < length spirv)%nat) as [Hlt|]; [|by simplify_eq].
    destruct (pass1_step spv spirv it names) as [[names1 it1]| |] eqn:Hstep;
      cbn in Hrun; [|done..].
    rewrite (IH _ _ _ Hrun).
    unfold pass1_step, word_at, store_name in Hstep.
    destruct (spirv !! it) as [w|]; cbn in Hstep; [|done].
    destruct (OpCode_of w =? OpName spv); cbn in Hstep;
      [|by injection Hstep as <- <-].
    destruct (spirv !! (it + 1)%nat) as [id|]; cbn in Hstep; [|done].
    destruct (literal_at spirv (it + 2)) as [s| |]; cbn in Hstep; [|done..].
    destruct (decide _); cbn in Hstep; [|done].
    injection Hstep as <- <-. apply length_insert.
Qed.

(** Both passes of a well-formed stream return, given as many iterations as
    the stream has words after its header. *)
Lemma listing_returns (spv : SpvHeader) (spirv : list Z) (idbound : Z)
    (budget : nat) :
  well_formed spv spirv idbound → (length spirv ≤ budget + 5)%nat →
  ∃ names ls,
    pass1 spv budget spirv 5 (replicate (Z.to_nat idbound) EmptyString)
    = Done names ∧
    listing spv budget spirv idbound = Done ls.
Proof.
  intros Hwf Hlen. unfold listing.
  destruct (pass1_returns spv spirv budget 5
              (replicate (Z.to_nat idbound) EmptyString)) as [names Hnames];
    [lia | by rewrite length_replicate |].
  rewrite Hnames. cbn [mbind outcome_bind].
  destruct (pass2_returns spv spirv budget 5
              (mkPass2 0 false (fill_placeholders names))) as [ls Hls].
  - lia.
  - cbn. unfold fill_placeholders. rewrite length_imap.
    rewrite (pass1_length _ _ _ _ _ _ Hnames), length_replicate.
    done.
  - by exists names, ls.
Qed.

(** On an instruction with the word count 0 a pass stays where it is. *)
Lemma pass1_stays (spv : SpvHeader) (spirv : list Z) (q : nat) (w : Z) :
  spirv !! q = Some w → WordCount_of w = 0 →
  ∀ budget names, ¬ returns (pass1 spv budget spirv q names).
Proof.
  intros Hw Hzero. pose proof (lookup_lt_Some _ _ _ Hw) as Hlt.
  induction budget as [|b IH]; intros names [result Hrun]; cbn [pass1] in Hrun;
    rewrite decide_True in Hrun by done; [done|].
  destruct (pass1_step spv spirv q names) as [[names1 it1]| |] eqn:Hstep;
    cbn in Hrun; [|done..].
  apply pass1_step_next in Hstep as (w' & Hw' & ->).
  assert (w' = w) as -> by congruence.
  rewrite Hzero, Nat.add_0_r in Hrun. apply (IH names1). by exists result.
Qed.

Lemma pass2_stays (spv : SpvHeader) (spirv : list Z) (q : nat) (w : Z) :
  spirv !! q = Some w → WordCount_of w = 0 →
  ∀ budget st, ¬ returns (pass2 spv budget spirv q st).
Proof.
  intros Hw Hzero. pose proof (lookup_lt_Some _ _ _ Hw) as Hlt.
  induction budget as [|b IH]; intros st [result Hrun]; cbn [pass2] in Hrun;
    rewrite decide_True in Hrun by done; [done|].
  destruct (pass2_step spv spirv q st) as [[[l st1] it1]| |] eqn:Hstep;
    cbn in Hrun; [|done..].
  apply pass2_step_next in Hstep as (w' & Hw' & ->).
  assert (w' = w) as -> by congruence.
  rewrite Hzero, Nat.add_0_r in Hrun.
  destruct (pass2 spv b spirv q st1) as [rest| |] eqn:Hrest; cbn in Hrun;
    [|done..].
  apply (IH st1). by exists rest.
Qed.

Lemma pass1_never_returns (spv : SpvHeader) (spirv : list Z) (it q : nat)
    (w : Z) :
  scan spirv it q → spirv !! q = Some w → WordCount_of w = 0 →
  ∀ budget names, ¬ returns (pass1 spv budget spirv it names).
Proof.
  induction 1 as [it|it w0 q Hw0 Hscan IH]; intros Hw Hzero;
    [by apply (pass1_stays spv spirv it w)|].
  pose proof (lookup_lt_Some _ _ _ Hw0) as Hlt.
  intros [|b] names [result Hrun]; cbn [pass1] in Hrun;
    rewrite decide_True in Hrun by done; [done|].
  destruct (pass1_step spv spirv it names) as [[names1 it1]| |] eqn:Hstep;
    cbn in Hrun; [|done..].
  apply pass1_step_next in Hstep as (w' & Hw' & ->).
  assert (w' = w0) as -> by congruence.
  apply (IH Hw Hzero b names1). by exists result.
Qed.

Lemma pass2_never_returns (spv : SpvHeader) (spirv : list Z) (it q : nat)
    (w : Z) :
  scan spirv it q → spirv !! q = Some w → WordCount_of w = 0 →
  ∀ budget st, ¬ returns (pass2 spv budget spirv it st).
Proof.
  induction 1 as [it|it w0 q Hw0 Hscan IH]; intros Hw Hzero;
    [by apply (pass2_stays spv spirv it w)|].
  pose proof (lookup_lt_Some _ _ _ Hw0) as Hlt.
  intros [|b] st [result Hrun]; cbn [pass2] in Hrun;
    rewrite decide_True in Hrun by done; [done|].
  destruct (pass2_step spv spirv it st) as [[[l st1] it1]| |] eqn:Hstep;
    cbn in Hrun; [|done..].
  apply pass2_step_next in Hstep as (w' & Hw' & ->).
  assert (w' = w0) as -> by congruence.
  destruct (pass2 spv b spirv _ st1) as [rest| |] eqn:Hrest; cbn in Hrun;
    [|done..].
  apply (IH Hw Hzero b st1). by exists rest.
Qed.

(** C9, amended: both passes of a well-formed stream return, within as many
    iterations as the stream has words, and so does the listing.  Each pass
    advances by the word count in the top 16 bits of the instruction it
    stands on.  Nothing in either pass looks for a corrupt count or for an
    operand outside the stream: on an instruction with the word count 0 a
    pass stays where it is and never returns, whatever the number of
    iterations; when every instruction the scan visits has a word count
    other than 0, a pass does not run on for ever, though it may still read
    outside the stream. *)
Theorem passes_terminate (spv : SpvHeader) (spirv : list Z) :
  (∀ (idbound : Z) (budget : nat),
     well_formed spv spirv idbound → (length spirv ≤ budget + 5)%nat →
     (∀ names, length names = Z.to_nat idbound →
               returns (pass1 spv budget spirv 5 names)) ∧
     (∀ st, length (resultnames st) = Z.to_nat idbound →
            returns (pass2 spv budget spirv 5 st)) ∧
     returns (listing spv budget spirv idbound)) ∧
  (∀ q w, scan spirv 5 q → spirv !! q = Some w → WordCount_of w = 0 →
     (∀ budget names, ¬ returns (pass1 spv budget spirv 5 names)) ∧
     (∀ budget st, ¬ returns (pass2 spv budget spirv 5 st))) ∧
  ((∀ q w, scan spirv 5 q → spirv !! q = Some w → WordCount_of w ≠ 0) →
   (∀ names, pass1 spv (length spirv) spirv 5 names ≠ Timeout) ∧
   (∀ st, pass2 spv (length spirv) spirv 5 st ≠ Timeout)) ∧
  (∀ it names names' it',
     pass1_step spv spirv it names = Done (names', it') →
     ∃ w, spirv !! it = Some w ∧ WordCount_of w = (w ≫ 16) `mod` 2 ^ 16 ∧
          it' = (it + Z.to_nat (WordCount_of w))%nat) ∧
  (∀ it st l st' it',
     pass2_step spv spirv it st = Done (l, st', it') →
     ∃ w, spirv !! it = Some w ∧ WordCount_of w = (w ≫ 16) `mod` 2 ^ 16 ∧
          it' = (it + Z.to_nat (WordCount_of w))%nat).
Proof.
  split; [|split; [|split; [|split]]].
  - intros idbound budget Hwf Hlen. split; [|split].
    + intros names Hnames. apply pass1_returns; [lia|]. by rewrite Hnames.
    + intros st Hnames. apply pass2_returns; [lia|]. by rewrite Hnames.
    + destruct (listing_returns spv spirv idbound budget Hwf Hlen)
        as (names & ls & _ & Hls).
      by exists ls.
  - intros q w Hq Hw Hzero. split.
    + by apply (pass1_never_returns spv spirv 5 q w).
    + by apply (pass2_never_returns spv spirv 5 q w).
  - intros Hcount. split.
    + intros names. apply pass1_within_budget; [lia | done].
    + intros st. apply pass2_within_budget; [lia | done].
  - intros it names names' it' Hstep.
    apply pass1_step_next in Hstep as (w & Hw & ->). by exists w.
  - intros it st l st' it' Hstep.
    apply pass2_step_next in Hstep as (w & Hw & ->). by exists w.
Qed.

Lemma passes_terminate_witness :
  (∀ names, length names = Z.to_nat 8 →
            returns (pass1 sample_spv 23 scope_stream 5 names)) ∧
  (∀ st, length (resultnames st) = Z.to_nat 8 →
         returns (pass2 sample_spv 23 scope_stream 5 st)) ∧
  returns (listing sample_spv 23 scope_stream 8).
Proof.
  apply (proj1 (passes_terminate sample_spv scope_stream) 8 23%nat).
  - apply (well_formed_check_scan sample_spv scope_stream 8 28 5). reflexivity.
  - simpl. lia.
Defined.

(** ** Numbering of the lines of a function *)

(** What the [switch] does to the state. *)
Lemma format_operands_state (spv : SpvHeader) (spirv : list Z) (it : nat)
    (OpCode : Z) (st st1 : Pass2State) (body : string) (silent : bool) :
  format_operands spv spirv it OpCode st = Done (body, silent, st1) →
  opidx st1 = opidx st ∧
  infunc st1 =
    (if OpCode =? OpFunction spv then true
     else if OpCode =? OpFunctionEnd spv then false
     else infunc st).
Proof.
  use_labels spv. unfold format_operands, word_at, store_name, name_of.
  destruct (Z.eqb_spec OpCode (OpSource spv)) as [->|?].
  { rewrite (proj2 (Z.eqb_neq (OpSource spv) (OpFunction spv))) by done.
    rewrite (proj2 (Z.eqb_neq (OpSource spv) (OpFunctionEnd spv))) by done.
    destruct (spirv !! (it + 1)%nat), (spirv !! (it + 2)%nat);
      cbn; try done. by intros [= <- <- <-]. }
  destruct (Z.eqb_spec OpCode (OpExtInstImport spv)) as [->|?].
  { rewrite (proj2 (Z.eqb_neq (OpExtInstImport spv) (OpFunction spv))) by done.
    rewrite (proj2 (Z.eqb_neq (OpExtInstImport spv) (OpFunctionEnd spv))) by done.
    destruct (spirv !! (it + 1)%nat); cbn; try done.
    destruct (literal_at spirv (it + 2)); cbn; try done.
    destruct (decide _); cbn; try done. by intros [= <- <- <-]. }
  destruct (Z.eqb_spec OpCode (OpMemoryModel spv)) as [->|?].
  { rewrite (proj2 (Z.eqb_neq (OpMemoryModel spv) (OpFunction spv))) by done.
    rewrite (proj2 (Z.eqb_neq (OpMemoryModel spv) (OpFunctionEnd spv))) by done.
    destruct (spirv !! (it + 1)%nat), (spirv !! (it + 2)%nat);
      cbn; try done. by intros [= <- <- <-]. }
  destruct (Z.eqb_spec OpCode (OpEntryPoint spv)) as [->|?].
  { rewrite (proj2 (Z.eqb_neq (OpEntryPoint spv) (OpFunction spv))) by done.
    rewrite (proj2 (Z.eqb_neq (OpEntryPoint spv) (OpFunctionEnd spv))) by done.
    destruct (spirv !! (it + 2)%nat) as [id|]; cbn; try done.
    destruct (resultnames st !! Z.to_nat id); cbn; try done.
    destruct (spirv !! (it + 1)%nat); cbn; try done.
    by intros [= <- <- <-]. }
  destruct (Z.eqb_spec OpCode (OpFunction spv)) as [->|?].
  { by intros [= <- <- <-]. }
  destruct (Z.eqb_spec OpCode (OpFunctionEnd spv)) as [->|?].
  { by intros [= <- <- <-]. }
  destruct (OpCode =? OpName spv); by intros [= <- <- <-].
Qed.

(** What one iteration of pass 2 appends: a numbered line exactly when the
    flag is set once the [switch] is done. *)
Lemma pass2_step_line (spv : SpvHeader) (spirv : list Z) (it : nat)
    (st st' : Pass2State) (l : option DisassemblyLine) (it' : nat) (w : Z) :
  pass2_step spv spirv it st = Done (l, st', it') →
  spirv !! it = Some w →
  infunc st' =
    (if OpCode_of w =? OpFunction spv then true
     else if OpCode_of w =? OpFunctionEnd spv then false
     else infunc st) ∧
  (infunc st' = true →
     ∃ body, l = Some (mkLine (Some (opidx st)) (ToStr_Op spv (OpCode_of w)) body) ∧
             opidx st' = to_uint32 (opidx st + 1)) ∧
  (infunc st' = false →
     opidx st' = opidx st ∧ ∀ line, l = Some line → indexWithinScope line = None).
Proof.
  unfold pass2_step, word_at. intros Hstep Hw. rewrite Hw in Hstep.
  cbn in Hstep.
  destruct (format_operands spv spirv it (OpCode_of w) st)
    as [[[body silent] st1]| |] eqn:Hswitch; cbn in Hstep; [|done..].
  apply format_operands_state in Hswitch as [Hidx Hflag].
  destruct (infunc st1) eqn:Hin.
  - injection Hstep as <- <- <-. cbn. split; [done|]. split; [|done].
    intros _. exists body. by rewrite Hidx.
  - destruct (negb silent); injection Hstep as <- <- <-;
      (split; [by rewrite Hin|]); (split; [by rewrite Hin|]);
      intros _; (split; [done|]); intros line; [by intros [= <-] | done].
Qed.

Lemma to_uint32_succ (x : Z) (j : nat) :
  to_uint32 (to_uint32 (x + 1) + Z.of_nat j) = to_uint32 (x + Z.of_nat (S j)).
Proof.
  unfold to_uint32. rewrite Zplus_mod_idemp_l. f_equal. lia.
Qed.

Lemma pass2_numbers (spv : SpvHeader) (spirv : list Z) (budget : nat) :
  ∀ it st ls,
  opidx st = to_uint32 (opidx st) →
  pass2 spv budget spirv it st = Done ls →
  omap indexWithinScope ls =
    map (λ j, to_uint32 (opidx st + Z.of_nat j))
      (seq 0 (length (omap indexWithinScope ls))).
Proof.
  induction budget as [|b IH]; intros it st ls Hrange Hrun; simpl in Hrun.
  - destruct (decide (it < length spirv)%nat); [done|]. by simplify_eq.
  - destruct (decide (it < length spirv)%nat) as [Hlt|]; [|by simplify_eq].
    destruct (pass2_step spv spirv it st) as [[[l st'] it']| |] eqn:Hstep;
      cbn in Hrun; [|done..].
    destruct (pass2 spv b spirv it' st') as [rest| |] eqn:Hrest;
      cbn in Hrun; [|done..].
    injection Hrun as <-.
    destruct (lookup_lt_is_Some_2 spirv it Hlt) as [w Hw].
    destruct (pass2_step_line _ _ _ _ _ _ _ w Hstep Hw) as (_ & Hon & Hoff).
    destruct (infunc st') eqn:Hin.
    + destruct (Hon eq_refl) as (body & -> & Hidx).
      specialize (IH it' st' rest).
      rewrite Hidx in IH.
      assert (to_uint32 (opidx st + 1) = to_uint32 (to_uint32 (opidx st + 1)))
        as Hmod by (unfold to_uint32; by rewrite Zmod_mod).
      specialize (IH Hmod Hrest).
      cbn. rewrite <- seq_shift, map_map. f_equal.
      * rewrite Z.add_0_r. done.
      * rewrite IH at 1. apply map_ext. intros j. apply to_uint32_succ.
    + destruct (Hoff eq_refl) as [Hidx Hnone].
      assert (omap indexWithinScope (option_list l ++ rest)
              = omap indexWithinScope rest) as ->.
      { destruct l as [line|]; [|done]. cbn. by rewrite (Hnone line). }
      rewrite <- Hidx. apply (IH it' st' rest); [by rewrite Hidx | done].
Qed.

(** C7, as the specification words it, fails: the line of the instruction
    that opens the function takes the number 0, so the three instructions
    after it carry 1, 2, 3; and the count is not started again for a second
    function. *)
Lemma scope_begin_line_is_numbered :
  (∃ ls, listing sample_spv 28 scope_stream 8 = Done ls ∧
         map numbered ls =
           [(None, "MemoryModel"); (Some 0, "Function"); (Some 1, "Load");
            (Some 2, "Store"); (Some 3, "Load"); (None, "FunctionEnd");
            (None, "Store")]) ∧
  (∃ ls, listing sample_spv 10 two_scopes_stream 8 = Done ls ∧
         map numbered ls =
           [(Some 0, "Function"); (None, "FunctionEnd");
            (Some 1, "Function"); (Some 2, "Load"); (None, "FunctionEnd")]).
Proof. split; eexists; split; reflexivity. Qed.

(** C7, amended: pass 2 sets the flag at the instruction that opens a
    function and clears it at the one that closes it, before the line is
    written.  A line written while the flag is set carries the current value
    of one counter, which then goes up by one (modulo 2^32); a line written
    while it is clear carries no number and leaves the counter alone.  So
    the numbers of a listing are 0, 1, 2, ... in the order of the numbered
    lines, the opening instruction's line included, the closing one's not,
    and the count runs on from one function to the next. *)
Theorem scope_numbering :
  (∀ (spv : SpvHeader) (spirv : list Z) (it : nat) (st st' : Pass2State)
     (l : option DisassemblyLine) (it' : nat) (w : Z),
     pass2_step spv spirv it st = Done (l, st', it') →
     spirv !! it = Some w →
     infunc st' =
       (if OpCode_of w =? OpFunction spv then true
        else if OpCode_of w =? OpFunctionEnd spv then false
        else infunc st) ∧
     (infunc st' = true →
        ∃ body,
          l = Some (mkLine (Some (opidx st)) (ToStr_Op spv (OpCode_of w)) body) ∧
          opidx st' = to_uint32 (opidx st + 1)) ∧
     (infunc st' = false →
        opidx st' = opidx st ∧
        ∀ line, l = Some line → indexWithinScope line = None)) ∧
  (∀ (spv : SpvHeader) (budget : nat) (spirv : list Z) (idbound : Z)
     (ls : list DisassemblyLine),
     listing spv budget spirv idbound = Done ls →
     omap indexWithinScope ls =
       map (λ j, to_uint32 (Z.of_nat j))
         (seq 0 (length (omap indexWithinScope ls)))).
Proof.
  split.
  - intros spv spirv it st st' l it' w. apply pass2_step_line.
  - intros spv budget spirv idbound ls. unfold listing.
    destruct (pass1 spv budget spirv 5 _) as [names| |]; cbn; [|done..].
    intros Hrun. by apply pass2_numbers in Hrun.
Qed.

Lemma scope_numbering_witness :
  omap indexWithinScope
    [mkLine None "MemoryModel" "Logical Addressing, GLSL450 Memory model";
     mkLine (Some 0) "Function" ""; mkLine (Some 1) "Load" "";
     mkLine (Some 2) "Store" ""; mkLine (Some 3) "Load" "";
     mkLine None "FunctionEnd" ""; mkLine None "Store" ""] =
  map (λ j, to_uint32 (Z.of_nat j)) (seq 0 4).
Proof.
  exact (proj2 scope_numbering sample_spv 28%nat scope_stream 8 _ eq_refl).
Defined.

(** ** Names are resolved before they are used *)

Lemma pass1_step_names (spv : SpvHeader) (spirv : list Z) (it : nat)
    (names names' : list string) (it' : nat) (w : Z) :
  pass1_step spv spirv it names = Done (names', it') →
  spirv !! it = Some w →
  (OpCode_of w = OpName spv →
     ∃ id s, spirv !! (it + 1)%nat = Some id ∧
             literal_at spirv (it + 2) = Done s ∧
             (Z.to_nat id < length names)%nat ∧
             names' = <[Z.to_nat id := s]> names) ∧
  (OpCode_of w ≠ OpName spv → names' = names).
Proof.
  unfold pass1_step, word_at, store_name. intros Hstep Hw.
  rewrite Hw in Hstep. cbn in Hstep.
  destruct (Z.eqb_spec (OpCode_of w) (OpName spv)) as [Hop|Hop].
  - split; [|done]. intros _.
    destruct (spirv !! (it + 1)%nat) as [id|]; cbn in Hstep; [|done].
    destruct (literal_at spirv (it + 2)) as [s| |]; cbn in Hstep; [|done..].
    destruct (decide _) as [Hlt|]; cbn in Hstep; [|done].
    injection Hstep as <- <-. by exists id, s.
  - split; [done|]. intros _. cbn in Hstep. by injection Hstep as <- <-.
Qed.

(** A position of the table that no [OpName] of the remaining scan writes
    keeps its content. *)
Lemma pass1_untouched (spv : SpvHeader) (spirv : list Z) (budget : nat) :
  ∀ it names names' (i : nat),
  pass1 spv budget spirv it names = Done names' →
  (∀ q w id, scan spirv it q → spirv !! q = Some w →
             OpCode_of w = OpName spv → spirv !! (q + 1)%nat = Some id →
             Z.to_nat id ≠ i) →
  names' !! i = names !! i.
Proof.
  induction budget as [|b IH]; intros it names names' i Hrun Hfree;
    simpl in Hrun.
  - destruct (decide (it < length spirv)%nat); [done|]. by simplify_eq.
  - destruct (decide (it < length spirv)%nat) as [Hlt|]; [|by simplify_eq].
    destruct (pass1_step spv spirv it names) as [[names1 it1]| |] eqn:Hstep;
      cbn in Hrun; [|done..].
    destruct (lookup_lt_is_Some_2 spirv it Hlt) as [w Hw].
    destruct (pass1_step_next _ _ _ _ _ _ Hstep) as (w' & Hw' & ->).
    assert (w' = w) as -> by congruence.
    destruct (pass1_step_names _ _ _ _ _ _ w Hstep Hw) as [Hname Hother].
    rewrite (IH _ names1 names' i Hrun).
    + destruct (decide (OpCode_of w = OpName spv)) as [Hop|Hop].
      * destruct (Hname Hop) as (id & s & Hid & _ & _ & ->).
        apply list_lookup_insert_ne.
        by apply (Hfree it w id (scan_here _ _)).
      * by rewrite (Hother Hop).
    + intros q w1 id Hq. apply Hfree. by eapply scan_next.
Qed.

(** The last [OpName] for an id decides the entry of the table, wherever it
    stands in the stream. *)
Lemma pass1_last_name (spv : SpvHeader) (spirv : list Z) (it q : nat) :
  scan spirv it q →
  ∀ budget names names' w id s,
  pass1 spv budget spirv it names = Done names' →
  spirv !! q = Some w → OpCode_of w = OpName spv →
  spirv !! (q + 1)%nat = Some id → literal_at spirv (q + 2) = Done s →
  (∀ q' w' id', scan spirv (q + Z.to_nat (WordCount_of w)) q' →
                spirv !! q' = Some w' → OpCode_of w' = OpName spv →
                spirv !! (q' + 1)%nat = Some id' →
                Z.to_nat id' ≠ Z.to_nat id) →
  names' !! Z.to_nat id = Some s.
Proof.
  induction 1 as [it|it w0 q Hw0 Hscan IH];
    intros budget names names' w id s Hrun Hw Hop Hid Hs Hlast.
  - destruct budget as [|b]; simpl in Hrun;
      (destruct (decide (it < length spirv)%nat) as [Hlt|Hge];
       [|by apply lookup_lt_Some in Hw]); [done|].
    destruct (pass1_step spv spirv it names) as [[names1 it1]| |] eqn:Hstep;
      cbn in Hrun; [|done..].
    destruct (pass1_step_next _ _ _ _ _ _ Hstep) as (w' & Hw' & ->).
    assert (w' = w) as -> by congruence.
    destruct (pass1_step_names _ _ _ _ _ _ w Hstep Hw) as [Hname _].
    destruct (Hname Hop) as (id' & s' & Hid' & Hs' & Hlt' & ->).
    assert (id' = id) as -> by congruence.
    assert (s' = s) as -> by congruence.
    rewrite (pass1_untouched _ _ _ _ _ _ (Z.to_nat id) Hrun Hlast).
    by apply list_lookup_insert_eq.
  - destruct budget as [|b]; simpl in Hrun;
      (destruct (decide (it < length spirv)%nat) as [Hlt|Hge];
       [|by apply lookup_lt_Some in Hw0]); [done|].
    destruct (pass1_step spv spirv it names) as [[names1 it1]| |] eqn:Hstep;
      cbn in Hrun; [|done..].
    destruct (pass1_step_next _ _ _ _ _ _ Hstep) as (w' & Hw' & ->).
    assert (w' = w0) as -> by congruence.
    by apply (IH b names1 names' w id s).
Qed.

Lemma fill_placeholders_lookup (names : list string) (i : nat) :
  fill_placeholders names !! i =
  (λ s, if decide (s = EmptyString) then placeholder i else s) <$> names !! i.
Proof. unfold fill_placeholders. apply list_lookup_imap. Qed.

(** Only [OpExtInstImport] writes the table in pass 2. *)
Lemma format_operands_names (spv : SpvHeader) (spirv : list Z) (it : nat)
    (OpCode : Z) (st st1 : Pass2State) (body : string) (silent : bool) (i : nat) :
  format_operands spv spirv it OpCode st = Done (body, silent, st1) →
  (OpCode = OpExtInstImport spv →
   ∀ id, spirv !! (it + 1)%nat = Some id → Z.to_nat id ≠ i) →
  resultnames st1 !! i = resultnames st !! i.
Proof.
  unfold format_operands, word_at, store_name, name_of. intros Hrun Hfree.
  destruct (OpCode =? OpSource spv).
  { destruct (spirv !! (it + 1)%nat), (spirv !! (it + 2)%nat);
      cbn in Hrun; try done. by injection Hrun as <- <- <-. }
  destruct (Z.eqb_spec OpCode (OpExtInstImport spv)) as [Hop|?].
  { destruct (spirv !! (it + 1)%nat) as [id|]; cbn in Hrun; [|done].
    destruct (literal_at spirv (it + 2)); cbn in Hrun; [|done..].
    destruct (decide _); cbn in Hrun; [|done].
    injection Hrun as <- <- <-. cbn.
    apply list_lookup_insert_ne. by apply Hfree. }
  destruct (OpCode =? OpMemoryModel spv).
  { destruct (spirv !! (it + 1)%nat), (spirv !! (it + 2)%nat);
      cbn in Hrun; try done. by injection Hrun as <- <- <-. }
  destruct (OpCode =? OpEntryPoint spv).
  { destruct (spirv !! (it + 2)%nat) as [id|]; cbn in Hrun; [|done].
    destruct (resultnames st !! Z.to_nat id); cbn in Hrun; [|done].
    destruct (spirv !! (it + 1)%nat); cbn in Hrun; [|done].
    by injection Hrun as <- <- <-. }
  destruct (OpCode =? OpFunction spv); [by injection Hrun as <- <- <-|].
  destruct (OpCode =? OpFunctionEnd spv); [by injection Hrun as <- <- <-|].
  destruct (OpCode =? OpName spv); by injection Hrun as <- <- <-.
Qed.

Lemma pass2_step_names (spv : SpvHeader) (spirv : list Z) (it : nat)
    (st st' : Pass2State) (l : option DisassemblyLine) (it' : nat) (w : Z)
    (i : nat) :
  pass2_step spv spirv it st = Done (l, st', it') →
  spirv !! it = Some w →
  (OpCode_of w = OpExtInstImport spv →
   ∀ id, spirv !! (it + 1)%nat = Some id → Z.to_nat id ≠ i) →
  resultnames st' !! i = resultnames st !! i.
Proof.
  unfold pass2_step, word_at. intros Hstep Hw Hfree. rewrite Hw in Hstep.
  cbn in Hstep.
  destruct (format_operands spv spirv it (OpCode_of w) st)
    as [[[body silent] st1]| |] eqn:Hswitch; cbn in Hstep; [|done..].
  apply (format_operands_names _ _ _ _ _ _ _ _ i) in Hswitch; [|done].
  destruct (infunc st1); [|destruct (negb silent)];
    by injection Hstep as <- <- <-.
Qed.

(** The line of an [OpEntryPoint]: the name the table holds for the id, then
    the execution model. *)
Lemma pass2_step_entry (spv : SpvHeader) (spirv : list Z) (it : nat)
    (st : Pass2State) (w model id : Z) (nm : string) :
  spirv !! it = Some w → OpCode_of w = OpEntryPoint spv →
  spirv !! (it + 1)%nat = Some model → spirv !! (it + 2)%nat = Some id →
  resultnames st !! Z.to_nat id = Some nm →
  ∃ idx st' it',
    pass2_step spv spirv it st =
      Done (Some (mkLine idx (ToStr_Op spv (OpEntryPoint spv))
                    (nm +:+ " (" +:+ ToStr_ExecutionModel spv model +:+ ")")),
            st', it').
Proof.
  intros Hw Hop Hmodel Hid Hnm. use_labels spv.
  unfold pass2_step, format_operands, name_of, word_at.
  rewrite Hw. cbn. rewrite Hop.
  rewrite (proj2 (Z.eqb_neq (OpEntryPoint spv) (OpSource spv))) by done.
  rewrite (proj2 (Z.eqb_neq (OpEntryPoint spv) (OpExtInstImport spv))) by done.
  rewrite (proj2 (Z.eqb_neq (OpEntryPoint spv) (OpMemoryModel spv))) by done.
  rewrite Z.eqb_refl, Hid. cbn. rewrite Hnm, Hmodel. cbn.
  destruct (infunc st); cbn; eauto.
Qed.

Lemma pass2_entry_line (spv : SpvHeader) (spirv : list Z) (it p : nat) :
  scan spirv it p →
  ∀ budget st ls w model id nm,
  pass2 spv budget spirv it st = Done ls →
  spirv !! p = Some w → OpCode_of w = OpEntryPoint spv →
  spirv !! (p + 1)%nat = Some model → spirv !! (p + 2)%nat = Some id →
  (∀ q' w' id', scan spirv it q' → spirv !! q' = Some w' →
                OpCode_of w' = OpExtInstImport spv →
                spirv !! (q' + 1)%nat = Some id' →
                Z.to_nat id' ≠ Z.to_nat id) →
  resultnames st !! Z.to_nat id = Some nm →
  ∃ idx,
    mkLine idx (ToStr_Op spv (OpEntryPoint spv))
      (nm +:+ " (" +:+ ToStr_ExecutionModel spv model +:+ ")") ∈ ls.
Proof.
  induction 1 as [it|it w0 p Hw0 Hscan IH];
    intros budget st ls w model id nm Hrun Hw Hop Hmodel Hid Hfree Hnm.
  - destruct budget as [|b]; simpl in Hrun;
      (destruct (decide (it < length spirv)%nat) as [Hlt|Hge];
       [|by apply lookup_lt_Some in Hw]); [done|].
    destruct (pass2_step_entry spv spirv it st w model id nm
                Hw Hop Hmodel Hid Hnm) as (idx & st' & it' & Hstep).
    rewrite Hstep in Hrun. cbn in Hrun.
    destruct (pass2 spv b spirv it' st') as [rest| |]; cbn in Hrun; [|done..].
    injection Hrun as <-. exists idx. apply list_elem_of_here.
  - destruct budget as [|b]; simpl in Hrun;
      (destruct (decide (it < length spirv)%nat) as [Hlt|Hge];
       [|by apply lookup_lt_Some in Hw0]); [done|].
    destruct (pass2_step spv spirv it st) as [[[l st'] it']| |] eqn:Hstep;
      cbn in Hrun; [|done..].
    destruct (pass2 spv b spirv it' st') as [rest| |] eqn:Hrest;
      cbn in Hrun; [|done..].
    injection Hrun as <-.
    destruct (pass2_step_next _ _ _ _ _ _ _ Hstep) as (w' & Hw' & ->).
    assert (w' = w0) as -> by congruence.
    destruct (IH b st' rest w model id nm Hrest Hw Hop Hmodel Hid) as [idx Hin].
    + intros q' w1 id' Hq'. apply Hfree. by eapply scan_next.
    + rewrite (pass2_step_names _ _ _ _ _ _ _ w0 (Z.to_nat id) Hstep Hw0);
        [done|].
      intros Himport id' Hid'.
      by apply (Hfree it w0 id' (scan_here _ _)).
    + exists idx. apply elem_of_app. by right.
Qed.

Lemma to_int32_small (z : Z) : 0 ≤ z ≤ INT_MAX → to_int32 z = z.
Proof.
  unfold to_int32, INT_MAX. intros Hz. rewrite Z.mod_small by lia. lia.
Qed.


Lemma none_carries_scan (spirv : list Z) (op : Z) (i : nat) (budget : nat) :
  ∀ it q w id,
  none_carries budget spirv op i it = true →
  scan spirv it q → spirv !! q = Some w → OpCode_of w = op →
  spirv !! (q + 1)%nat = Some id → Z.to_nat id ≠ i.
Proof.
  induction budget as [|b IH]; intros it q w id Hcheck Hscan Hq Hop Hid.
  - destruct Hscan as [it|it w0 q Hw0 Hscan]; cbn [none_carries] in Hcheck.
    + rewrite Hq in Hcheck. by rewrite andb_false_r in Hcheck.
    + rewrite Hw0 in Hcheck. by rewrite andb_false_r in Hcheck.
  - destruct Hscan as [it|it w0 q Hw0 Hscan]; cbn [none_carries] in Hcheck.
    + rewrite Hq, Hid in Hcheck. apply andb_prop in Hcheck as [Hhere _].
      rewrite (proj2 (Z.eqb_eq _ _) Hop) in Hhere. cbn in Hhere.
      by apply negb_true_iff, Nat.eqb_neq in Hhere.
    + rewrite Hw0 in Hcheck. apply andb_prop in Hcheck as [_ Hrest].
      by apply (IH _ q w id Hrest).
Qed.


(** ** The text of two listings *)

Example scope_stream_text :
  DisassembleSPIRV sample_spv 28 0 scope_stream =
  Done "Vertex Shader SPIR-V:

Version 99, Generator 00000000 (Unrecognised)
IDs up to <8>

      MemoryModel Logical Addressing, GLSL450 Memory model
   0: Function 
   1: Load 
   2: Store 
   3: Load 
      FunctionEnd 
      Store 
".
Proof. vm_compute. reflexivity. Qed.

Example name_after_use_text :
  DisassembleSPIRV sample_spv 12 0 name_after_use_stream =
  Done "Vertex Shader SPIR-V:

Version 99, Generator 00000000 (Unrecognised)
IDs up to <8>

      EntryPoint main (Vertex Shader)
".
Proof. vm_compute. reflexivity. Qed.

(** * Further properties *)

(** ** Registers and described variables *)

(** X1: A byte offset that is a multiple of 4 (the function asserts that it
    is) can be read back from the register: [16 * vec + 4 * comp] is the
    offset, and [comp] is one of 0..3. *)
Theorem var_reg_offset (r : ProgramResource) :
  0 ≤ res_offset r → res_offset r `rem` 4 = 0 →
  16 * vec (var_reg r) + 4 * comp (var_reg r) = res_offset r ∧
  0 ≤ comp (var_reg r) ≤ 3.
Proof.
  intros Hpos Hrem. unfold var_reg.
  replace (res_offset r =? -1) with false by (symmetry; apply Z.eqb_neq; lia).
  replace (0 <=? res_offset r) with true by (symmetry; apply Z.leb_le; lia).
  cbn [andb vec comp].
  Z.to_euclidean_division_equations. lia.
Qed.

Lemma var_reg_offset_witness :
  16 * vec (var_reg (mkResource eGL_FLOAT_VEC2 "v" 0 0 1 24 0))
  + 4 * comp (var_reg (mkResource eGL_FLOAT_VEC2 "v" 0 0 1 24 0)) = 24 ∧
  0 ≤ comp (var_reg (mkResource eGL_FLOAT_VEC2 "v" 0 0 1 24 0)) ≤ 3.
Proof.
  apply (var_reg_offset (mkResource eGL_FLOAT_VEC2 "v" 0 0 1 24 0)); simpl.
  - lia.
  - reflexivity.
Defined.

(** X2: Whatever [describe] accepts is a leaf of 1..4 rows and 1..4
    columns, whose element count is not negative and whose name is no longer
    than the name of the record. *)
Theorem describe_shape (r : ProgramResource) (v : DynShaderConstant) :
  describe r = Done (Some v) →
  children v = [] ∧
  1 ≤ d_rows (descriptor (type v)) ≤ 4 ∧
  1 ≤ d_cols (descriptor (type v)) ≤ 4 ∧
  0 ≤ elements v ∧
  (String.length (name v) ≤ String.length (res_name r))%nat.
Proof.
  intros H. destruct (var_type_of (res_type r)) as [ty|] eqn:Hty.
  2: { unfold describe in H. rewrite Hty in H. discriminate. }
  rewrite (describe_accepted r ty Hty) in H.
  destruct (ends_in_index_zero (res_name r)) as [trimmed| |] eqn:Ht;
    try discriminate.
  cbn in H. injection H as <-. cbn.
  split; [reflexivity|].
  split; [destruct (res_type r); cbn; try lia; discriminate|].
  split; [destruct (res_type r); cbn; try lia; discriminate|].
  split.
  - destruct trimmed; [rewrite RDCMAX_max|]; lia.
  - destruct trimmed; [|lia].
    apply ends_in_index_zero_true in Ht.
    set (t := String.substring 0 (String.length (res_name r) - 3) (res_name r)) in *.
    rewrite Ht. rewrite length_append. lia.
Qed.

Lemma describe_shape_witness :
  let v := mkConstant "arr" (mkReg UINT_MAX UINT_MAX)
             (mkVarType (mkDescriptor eVar_Float 1 1 4 false "float") []) in
  children v = [] ∧
  1 ≤ d_rows (descriptor (type v)) ≤ 4 ∧
  1 ≤ d_cols (descriptor (type v)) ≤ 4 ∧
  0 ≤ elements v ∧
  (String.length (name v) ≤ String.length (res_name (float_uniform "arr[0]" (-1) 4)))%nat.
Proof.
  intros v. apply (describe_shape (float_uniform "arr[0]" (-1) 4) v). reflexivity.
Defined.

(** ** Runs of ReconstructVarTree *)

(** X3: The loop over the name ends: a call never exhausts the loop budget
    [ReconstructVarTree] gives it, so a run over any list of records either
    returns or leaves defined behaviour. *)
Theorem reconstruct_all_terminates (n : Z) (rs : list ProgramResource) :
  ∀ st, reconstruct_all n rs st ≠ Timeout.
Proof.
  induction rs as [|r rs IH]; intros st; cbn [reconstruct_all].
  - discriminate.
  - pose proof (ReconstructVarTree_no_timeout n r st) as Hr.
    destruct (ReconstructVarTree n r st) as [st'| |]; cbn; [apply IH|discriminate|done].
Qed.

(** X4: Records whose type is not a variable type (samplers, images,
    atomic counters) change nothing: a run gives the same result with and
    without them. *)
Theorem reconstruct_all_skips_non_variables (n : Z) (rs : list ProgramResource) :
  ∀ st,
  reconstruct_all n rs st =
  reconstruct_all n
    (List.filter (λ r, bool_decide (is_Some (var_type_of (res_type r)))) rs) st.
Proof.
  induction rs as [|r rs IH]; intros st; [reflexivity|].
  cbn [List.filter]. destruct (var_type_of (res_type r)) as [ty|] eqn:Hty.
  - rewrite bool_decide_eq_true_2 by eauto. cbn [reconstruct_all].
    destruct (ReconstructVarTree n r st); cbn; [apply IH|done..].
  - rewrite bool_decide_eq_false_2 by (intros [? ?]; discriminate).
    cbn [reconstruct_all]. unfold ReconstructVarTree, describe. rewrite Hty.
    cbn. apply IH.
Qed.

(** ** A bracket that no member name follows *)



(** ** Nodes are kept *)

Lemma grew_children (v v' : DynShaderConstant) :
  grew v v' ↔
  name v' = name v ∧ elements v ≤ elements v' ∧ vec (reg v') ≤ vec (reg v) ∧
  grown (children v) (children v').
Proof.
  destruct v as [n r [d ms]], v' as [n' r' [d' ms']].
  unfold elements, children. cbn.
  assert ((fix all (l l' : list DynShaderConstant) : Prop :=
             match l, l' with
             | [], _ => True
             | x :: xs, x' :: xs' => grew x x' ∧ all xs xs'
             | _ :: _, [] => False
             end) ms ms' ↔ grown ms ms') as ->; [|done].
  revert ms'. induction ms as [|x ms IH]; intros [|x' ms']; cbn; try done.
Qed.

Lemma grown_lookup (l l' : list DynShaderConstant) :
  grown l l' ↔ ∀ i v, l !! i = Some v → ∃ v', l' !! i = Some v' ∧ grew v v'.
Proof.
  revert l'. induction l as [|x l IH]; intros l'; cbn.
  - split; [by intros _ i v|done].
  - destruct l' as [|x' l'].
    + split; [done|]. intros H. by destruct (H 0%nat x eq_refl) as (? & ? & _).
    + rewrite IH. split.
      * intros [Hx Hl] [|i] v Hi; simplify_eq/=; [by exists x'|by apply Hl].
      * intros H. split.
        -- destruct (H 0%nat x eq_refl) as (v' & Hv' & Hg). by simplify_eq/=.
        -- intros i v Hi. apply (H (S i) v Hi).
Qed.

Lemma grew_refl (v : DynShaderConstant) : grew v v.
Proof.
  induction v as [n r d ms IH] using DynShaderConstant_tree_ind.
  apply grew_children. unfold elements, children. cbn.
  repeat split; try lia.
  apply grown_lookup. intros i v Hi. exists v. split; [done|].
  by apply (Forall_lookup_1 _ _ _ _ IH Hi).
Qed.

Lemma grown_refl (l : list DynShaderConstant) : grown l l.
Proof. apply grown_lookup. intros i v Hi. exists v. split; [done|apply grew_refl]. Qed.

Lemma grew_trans (v : DynShaderConstant) : ∀ v' v'',
  grew v v' → grew v' v'' → grew v v''.
Proof.
  induction v as [n r d ms IH] using DynShaderConstant_tree_ind.
  intros v' v''. rewrite !grew_children. unfold elements, children. cbn.
  intros (Hn & He & Hr & Hms) (Hn' & He' & Hr' & Hms').
  repeat split; [congruence | lia | lia |].
  rewrite grown_lookup in *. intros i x Hi.
  destruct (Hms i x Hi) as (x' & Hi' & Hx).
  destruct (Hms' i x' Hi') as (x'' & Hi'' & Hx').
  exists x''. split; [done|].
  by apply (Forall_lookup_1 _ _ _ _ IH Hi x' x'').
Qed.

Lemma grown_trans (l l' l'' : list DynShaderConstant) :
  grown l l' → grown l' l'' → grown l l''.
Proof.
  rewrite !grown_lookup. intros H H' i v Hi.
  destruct (H i v Hi) as (v' & Hi' & Hv).
  destruct (H' i v' Hi') as (v'' & Hi'' & Hv').
  exists v''. split; [done|]. by apply (grew_trans v v' v'').
Qed.

Lemma grown_snoc (l : list DynShaderConstant) (x : DynShaderConstant) :
  grown l (l ++ [x]).
Proof.
  apply grown_lookup. intros i v Hi. exists v. split; [|apply grew_refl].
  by apply lookup_app_l_Some.
Qed.

Lemma grown_insert (l : list DynShaderConstant) (i : nat)
    (v v' : DynShaderConstant) :
  l !! i = Some v → grew v v' → grown l (<[i := v']> l).
Proof.
  intros Hi Hv. apply grown_lookup. intros j x Hj.
  destruct (decide (j = i)) as [->|Hne].
  - exists v'. simplify_eq. split; [|done].
    apply list_lookup_insert_eq. by apply lookup_lt_Some in Hi.
  - exists x. split; [|apply grew_refl]. by rewrite list_lookup_insert_ne.
Qed.

Lemma grew_merge_parent (parentVar found : DynShaderConstant)
    (ms : list DynShaderConstant) :
  grown (children found) ms →
  grew found (set_members ms (merge_parent parentVar found)).
Proof.
  intros Hms. apply grew_children.
  unfold set_members, merge_parent, elements, children in *. cbn.
  rewrite RDCMAX_max, RDCMIN_min. repeat split; [lia | lia | done].
Qed.

Lemma walk_grown (budget : nat) : ∀ var nm members members' lg,
  walk budget var nm members = Done (members', lg) → grown members members'.
Proof.
  induction budget as [|b IH]; intros var nm members members' lg Hwalk; [done|].
  simpl in Hwalk. destruct (strchr nm "." || strchr nm "[").
  - destruct (split_base nm) as [[[base sep] nm1]| |]; simpl in Hwalk;
      try done.
    destruct (if Ascii.eqb sep "[" then array_segment nm1
              else Done (Some (0, nm1))) as [[[arrayIdx nm2]|]| |];
      simpl in Hwalk; try done; [|simplify_eq; apply grown_refl].
    destruct (parent_elements _ arrayIdx) as [elems| |]; simpl in Hwalk;
      try done.
    destruct (list_find _ members) as [[i found]|] eqn:Hfind.
    + apply list_find_Some in Hfind as (Hi & Hbase & _).
      destruct (0 <? arrayIdx).
      * simplify_eq. apply (grown_insert _ _ found); [done|].
        rewrite <- (set_members_children (merge_parent _ found)).
        apply grew_merge_parent. apply grown_refl.
      * destruct (walk b var nm2 _) as [[ms lg']| |] eqn:Hrec;
          simpl in Hwalk; try done. simplify_eq.
        apply (grown_insert _ _ found); [done|].
        apply grew_merge_parent. by apply (IH _ _ _ _ _ Hrec).
    + destruct (0 <? arrayIdx).
      * simplify_eq. apply grown_snoc.
      * destruct (walk b var nm2 []) as [[ms lg']| |] eqn:Hrec;
          simpl in Hwalk; try done. simplify_eq. apply grown_snoc.
  - simplify_eq. apply grown_snoc.
Qed.

Lemma state_grown_refl (st : TreeState) : state_grown st st.
Proof.
  split; [|split; [|done]].
  - apply Forall2_same_length_lookup. split; [done|].
    intros i l l' Hi Hi'. simplify_eq. apply grown_refl.
  - destruct (defaultBlock st); constructor. apply grown_refl.
Qed.

Lemma state_grown_trans (st st' st'' : TreeState) :
  state_grown st st' → state_grown st' st'' → state_grown st st''.
Proof.
  intros (Hb & Hd & Hw) (Hb' & Hd' & Hw'). split; [|split].
  - rewrite Forall2_same_length_lookup in *.
    destruct Hb as [Hlen Hb], Hb' as [Hlen' Hb']. split; [congruence|].
    intros i l l'' Hi Hi''.
    destruct (lookup_lt_is_Some_2 (parentBlocks st') i) as [l' Hi'].
    { rewrite <- Hlen. by apply lookup_lt_Some in Hi. }
    apply (grown_trans l l' l''); [by apply (Hb i)|by apply (Hb' i)].
  - destruct Hd as [l l' Hl|]; inversion Hd' as [k k' Hk|]; constructor.
    by apply (grown_trans l l' k').
  - by etrans.
Qed.

Lemma ReconstructVarTree_grows (n : Z) (r : ProgramResource)
    (st st' : TreeState) :
  ReconstructVarTree n r st = Done st' → state_grown st st'.
Proof.
  unfold ReconstructVarTree.
  destruct (describe r) as [[var|]| |]; cbn -[walk]; try done;
    [|intros [= <-]; apply state_grown_refl].
  destruct (negb (res_block_index r =? -1) && (res_block_index r <? n)).
  - destruct (0 <=? res_block_index r); [|done].
    destruct (parentBlocks st !! _) as [members|] eqn:Hi; [|done].
    destruct (walk _ var (name var) members) as [[ms lg]| |] eqn:Hwalk;
      simpl; try done.
    intros [= <-]. apply walk_grown in Hwalk.
    split; [|split]; cbn.
    + apply Forall2_same_length_lookup. split; [by rewrite length_insert|].
      intros i l l' Hl Hl'.
      destruct (decide (i = Z.to_nat (res_block_index r))) as [->|Hne].
      * rewrite list_lookup_insert_eq in Hl' by (by apply lookup_lt_Some in Hi).
        by simplify_eq.
      * rewrite list_lookup_insert_ne in Hl' by done. simplify_eq.
        apply grown_refl.
    + destruct (defaultBlock st); constructor. apply grown_refl.
    + by apply prefix_app_r.
  - destruct (defaultBlock st) as [members|] eqn:Hd.
    + destruct (walk _ var (name var) members) as [[ms lg]| |] eqn:Hwalk;
        simpl; try done.
      intros [= <-]. apply walk_grown in Hwalk.
      split; [|split]; cbn.
      * apply Forall2_same_length_lookup. split; [done|].
        intros i l l' Hl Hl'. simplify_eq. apply grown_refl.
      * rewrite Hd. by constructor.
      * by apply prefix_app_r.
    + intros [= <-]. split; [|split]; cbn.
      * apply Forall2_same_length_lookup. split; [done|].
        intros i l l' Hl Hl'. simplify_eq. apply grown_refl.
      * rewrite Hd. constructor.
      * by apply prefix_app_r.
Qed.

(** X6: A run never removes, renames or moves a node: every vector keeps
    its nodes at their places, at every depth, new nodes come after them,
    element counts only rise, registers only fall, and warnings are only
    added to the log. *)
Theorem reconstruct_all_grows (n : Z) (rs : list ProgramResource) :
  ∀ st st', reconstruct_all n rs st = Done st' → state_grown st st'.
Proof.
  induction rs as [|r rs IH]; intros st st' Hrun; simpl in Hrun.
  - simplify_eq. apply state_grown_refl.
  - destruct (ReconstructVarTree n r st) as [st1| |] eqn:Hcall; simpl in Hrun;
      try done.
    apply (state_grown_trans st st1 st').
    + by apply (ReconstructVarTree_grows n r).
    + by apply IH.
Qed.

Lemma reconstruct_all_grows_witness :
  state_grown (uniforms_start 0) foo_merged.
Proof.
  apply (reconstruct_all_grows 0
           [float_uniform "foo[0].x" (-1) 1; float_uniform "foo[2].x" (-1) 1]).
  reflexivity.
Defined.

(** ** The register of a node and the registers below it *)

Lemma parent_min_below_children (v : DynShaderConstant) :
  parent_min_below v = true ↔
  Forall (λ c, vec (reg v) ≤ vec (reg c)) (children v) ∧
  parent_min (children v) = true.
Proof.
  destruct v as [n r [d ms]]. unfold children, parent_min. cbn.
  rewrite andb_true_iff, forallb_forall, Forall_forall.
  split; intros [Hm Hb]; (split; [|done]); intros c Hc.
  - apply Z.leb_le, Hm. by apply list_elem_of_In.
  - apply Z.leb_le, Hm. by apply list_elem_of_In.
Qed.

Lemma parent_min_spec (l : list DynShaderConstant) :
  parent_min l = true ↔ Forall (λ v, parent_min_below v = true) l.
Proof.
  unfold parent_min. rewrite forallb_forall, Forall_forall.
  split; intros H v Hv; apply H; by apply list_elem_of_In.
Qed.

Lemma parent_min_merge (parentVar found : DynShaderConstant)
    (ms : list DynShaderConstant) :
  Forall (λ c, Z.min (vec (reg found)) (vec (reg parentVar)) ≤ vec (reg c)) ms →
  parent_min ms = true →
  parent_min_below (set_members ms (merge_parent parentVar found)) = true.
Proof.
  intros Hms Hmin. apply parent_min_below_children.
  unfold set_members, merge_parent, children. cbn.
  by rewrite RDCMIN_min.
Qed.

Lemma walk_lower_bound (budget : nat) : ∀ var nm members members' lg m,
  Forall (λ v, m ≤ vec (reg v)) members → m ≤ vec (reg var) →
  walk budget var nm members = Done (members', lg) →
  Forall (λ v, m ≤ vec (reg v)) members'.
Proof.
  induction budget as [|b IH]; intros var nm members members' lg m
    Hlow Hm Hwalk; [done|].
  simpl in Hwalk. destruct (strchr nm "." || strchr nm "[").
  - destruct (split_base nm) as [[[base sep] nm1]| |]; simpl in Hwalk;
      try done.
    destruct (if Ascii.eqb sep "[" then array_segment nm1
              else Done (Some (0, nm1))) as [[[arrayIdx nm2]|]| |];
      simpl in Hwalk; try done; [|by simplify_eq].
    destruct (parent_elements _ arrayIdx) as [elems| |]; simpl in Hwalk;
      try done.
    destruct (list_find _ members) as [[i found]|] eqn:Hfind.
    + apply list_find_Some in Hfind as (Hi & Hbase & _).
      pose proof (Forall_lookup_1 _ _ _ _ Hlow Hi) as Hfm. cbn in Hfm.
      destruct (0 <? arrayIdx).
      * simplify_eq. apply Forall_insert; [done|]. cbn. rewrite RDCMIN_min. lia.
      * destruct (walk b var nm2 _) as [[ms lg']| |] eqn:Hrec;
          simpl in Hwalk; try done. simplify_eq.
        apply Forall_insert; [done|]. cbn. rewrite RDCMIN_min. lia.
    + destruct (0 <? arrayIdx).
      * simplify_eq. apply Forall_app. split; [done|]. by apply Forall_singleton.
      * destruct (walk b var nm2 []) as [[ms lg']| |] eqn:Hrec;
          simpl in Hwalk; try done. simplify_eq.
        apply Forall_app. split; [done|]. by apply Forall_singleton.
  - simplify_eq. apply Forall_app. split; [done|]. by apply Forall_singleton.
Qed.

Lemma walk_parent_min (budget : nat) : ∀ var nm members members' lg,
  parent_min_below var = true →
  parent_min members = true →
  walk budget var nm members = Done (members', lg) →
  parent_min members' = true.
Proof.
  induction budget as [|b IH]; intros var nm members members' lg
    Hvar Hinv Hwalk; [done|].
  simpl in Hwalk. destruct (strchr nm "." || strchr nm "[").
  - destruct (split_base nm) as [[[base sep] nm1]| |]; simpl in Hwalk;
      try done.
    destruct (if Ascii.eqb sep "[" then array_segment nm1
              else Done (Some (0, nm1))) as [[[arrayIdx nm2]|]| |];
      simpl in Hwalk; try done; [|by simplify_eq].
    destruct (parent_elements _ arrayIdx) as [elems| |]; simpl in Hwalk;
      try done.
    rewrite parent_min_spec in Hinv.
    destruct (list_find _ members) as [[i found]|] eqn:Hfind.
    + apply list_find_Some in Hfind as (Hi & Hbase & _).
      pose proof (Forall_lookup_1 _ _ _ _ Hinv Hi) as Hfound.
      apply parent_min_below_children in Hfound as [Hfc Hfb].
      set (parentVar := make_parent base var elems) in *.
      assert (vec (reg parentVar) = vec (reg var)) as Hpv by done.
      assert (Forall (λ c, Z.min (vec (reg found)) (vec (reg parentVar))
                           ≤ vec (reg c)) (children found)) as Hfc'.
      { eapply Forall_impl; [exact Hfc|]. cbn. intros c Hc. lia. }
      destruct (0 <? arrayIdx).
      * simplify_eq. rewrite parent_min_spec.
        apply Forall_insert; [done|].
        rewrite <- (set_members_children (merge_parent parentVar found)).
        by apply parent_min_merge.
      * destruct (walk b var nm2 _) as [[ms lg']| |] eqn:Hrec;
          simpl in Hwalk; try done. simplify_eq.
        rewrite parent_min_spec. apply Forall_insert; [done|].
        apply parent_min_merge.
        -- refine (walk_lower_bound _ _ _ _ _ _ _ Hfc' _ Hrec). lia.
        -- by apply (IH _ _ _ _ _ Hvar Hfb Hrec).
    + destruct (0 <? arrayIdx).
      * simplify_eq. rewrite parent_min_spec.
        apply Forall_app. split; [done|]. by apply Forall_singleton.
      * destruct (walk b var nm2 []) as [[ms lg']| |] eqn:Hrec;
          simpl in Hwalk; try done. simplify_eq.
        rewrite parent_min_spec.
        apply Forall_app. split; [done|]. apply Forall_singleton.
        apply parent_min_below_children. split.
        -- refine (walk_lower_bound _ _ _ _ _ _ (vec (reg var))
                     (@List.Forall_nil _ _) _ Hrec). lia.
        -- by apply (IH var nm2 [] ms lg Hvar eq_refl Hrec).
  - simplify_eq. rewrite parent_min_spec in *.
    apply Forall_app. split; [done|]. apply Forall_singleton.
    apply parent_min_below_children.
    by apply parent_min_below_children in Hvar.
Qed.

Lemma ReconstructVarTree_parent_min (n : Z) (r : ProgramResource)
    (st st' : TreeState) :
  state_parent_min st →
  ReconstructVarTree n r st = Done st' →
  state_parent_min st'.
Proof.
  intros [Hblocks Hdefault]. unfold ReconstructVarTree.
  destruct (describe r) as [[var|]| |] eqn:Hvar; cbn -[walk]; try done;
    [|by intros [= <-]].
  apply describe_leaf in Hvar as [_ Hchildren].
  assert (parent_min_below var = true) as Hbelow.
  { apply parent_min_below_children. by rewrite Hchildren. }
  assert (∀ members ms lg,
            parent_min members = true →
            walk (S (String.length (name var))) var (name var) members
            = Done (ms, lg) → parent_min ms = true) as Hwalk.
  { intros members ms lg Hmin Hw. by apply (walk_parent_min _ _ _ _ _ _ Hbelow Hmin Hw). }
  destruct (negb (res_block_index r =? -1) && (res_block_index r <? n)).
  - destruct (0 <=? res_block_index r); [|done].
    destruct (parentBlocks st !! _) as [members|] eqn:Hi; [|done].
    destruct (walk _ var (name var) members) as [[ms lg]| |] eqn:Hw;
      simpl; try done.
    intros [= <-]. split; simpl; [|done].
    apply Forall_insert; [done|].
    apply (Hwalk members ms lg); [|done].
    by apply (Forall_lookup_1 _ _ _ _ Hblocks Hi).
  - destruct (defaultBlock st) as [members|] eqn:Hd.
    + destruct (walk _ var (name var) members) as [[ms lg]| |] eqn:Hw;
        simpl; try done.
      intros [= <-]. split; simpl; [done|].
      intros l [= <-]. apply (Hwalk members ms lg); [|done]. by apply Hdefault.
    + intros [= <-]. split; simpl; [done|]. done.
Qed.

Lemma reconstruct_all_parent_min (n : Z) (rs : list ProgramResource) :
  ∀ st st',
  state_parent_min st →
  reconstruct_all n rs st = Done st' →
  state_parent_min st'.
Proof.
  induction rs as [|r rs IH]; intros st st' Hinv Hrun; simpl in Hrun.
  - by simplify_eq.
  - destruct (ReconstructVarTree n r st) as [st1| |] eqn:Hcall; simpl in Hrun;
      try done.
    apply (IH st1 st'); [|done].
    by apply (ReconstructVarTree_parent_min n r st).
Qed.

(** X7: After a run that starts from empty vectors, for uniforms or for
    buffer variables, the register of every node is no larger than the
    register of any of its members, at every depth.  It is a lower bound and
    need not be the register of a member: an array element with an index
    above 0 lowers the register of the node and adds no member, as
    [foo[0].x] at offset 80 followed by [foo[2].x] at offset 48 shows. *)
Theorem parent_register_is_least :
  (∀ (n : Z) (rs : list ProgramResource) (blocks : nat) (st st' : TreeState),
     st = uniforms_start blocks ∨ st = buffer_variables_start blocks →
     reconstruct_all n rs st = Done st' →
     state_parent_min st') ∧
  (∃ foo x,
     reconstruct_all 0
       [mkResource eGL_FLOAT "foo[0].x" (-1) (-1) 1 80 0;
        mkResource eGL_FLOAT "foo[2].x" (-1) (-1) 1 48 0]
       (uniforms_start 0)
     = Done (mkTreeState [] (Some [foo]) []) ∧
     children foo = [x] ∧ vec (reg foo) = 3 ∧ vec (reg x) = 5).
Proof.
  split.
  - intros n rs blocks st st' Hstart. apply reconstruct_all_parent_min.
    destruct Hstart as [-> | ->].
    + split; cbn; [|by intros l [= <-]]. by apply Forall_replicate.
    + split; cbn; [|done]. by apply Forall_replicate.
  - eexists _, _. split; [reflexivity|]. repeat split.
Qed.

Lemma parent_register_is_least_witness : state_parent_min foo_merged.
Proof.
  apply (proj1 parent_register_is_least 0
           [float_uniform "foo[0].x" (-1) 1; float_uniform "foo[2].x" (-1) 1]
           0%nat (uniforms_start 0) foo_merged).
  - left. reflexivity.
  - reflexivity.
Defined.

(** ** Instruction words and literal strings *)

(** X8: The word count and the operation code are the two halves of the
    first word of an instruction: they are read back from a word put
    together from them, and every 32-bit word is put together from its
    two. *)
Theorem instruction_word_fields :
  (∀ wc op, 0 ≤ wc < 65536 → 0 ≤ op < 65536 →
     WordCount_of (op_word wc op) = wc ∧ OpCode_of (op_word wc op) = op) ∧
  (∀ w, 0 ≤ w < 2 ^ 32 → op_word (WordCount_of w) (OpCode_of w) = w).
Proof.
  unfold WordCount_of, OpCode_of, op_word, to_uint16.
  change 65535 with (Z.ones 16).
  split.
  - intros wc op Hwc Hop. rewrite Z.land_ones, Z.shiftr_div_pow2 by lia.
    change (2 ^ 16) with 65536. split.
    + rewrite Z.div_add_l, (Z.div_small op), Z.add_0_r, Z.mod_small by lia. done.
    + rewrite Z.add_comm, Z.mod_add, Z.mod_small by lia. done.
  - intros w Hw. rewrite Z.land_ones, Z.shiftr_div_pow2 by lia.
    change (2 ^ 16) with 65536.
    rewrite (Z.mod_small (w / 65536)).
    + pose proof (Z.div_mod w 65536). lia.
    + split; [apply Z.div_pos; lia|]. apply Z.div_lt_upper_bound; lia.
Qed.

Lemma instruction_word_fields_witness :
  WordCount_of (op_word 3 54) = 3 ∧ OpCode_of (op_word 3 54) = 54.
Proof. apply (proj1 instruction_word_fields 3 54); lia. Defined.

Lemma word_bytes_word4 (a b c d : ascii) :
  word_bytes (word4 a b c d) = [a; b; c; d].
Proof.
  unfold word_bytes, word4.
  pose proof (nat_ascii_bounded a). pose proof (nat_ascii_bounded b).
  pose proof (nat_ascii_bounded c). pose proof (nat_ascii_bounded d).
  set (na := nat_of_ascii a) in *. set (nb := nat_of_ascii b) in *.
  set (nc := nat_of_ascii c) in *. set (nd := nat_of_ascii d) in *.
  cbn [map]. rewrite !Z.shiftr_div_pow2 by lia.
  change (2 ^ 0) with 1. change (2 ^ 8) with 256.
  change (2 ^ 16) with 65536. change (2 ^ 24) with 16777216.
  set (w := Z.of_nat na + 256 * Z.of_nat nb + 65536 * Z.of_nat nc
            + 16777216 * Z.of_nat nd).
  assert ((w / 1) `mod` 256 = Z.of_nat na) as ->
    by (subst w; Z.to_euclidean_division_equations; lia).
  assert ((w / 256) `mod` 256 = Z.of_nat nb) as ->
    by (subst w; Z.to_euclidean_division_equations; lia).
  assert ((w / 65536) `mod` 256 = Z.of_nat nc) as ->
    by (subst w; Z.to_euclidean_division_equations; lia).
  assert ((w / 16777216) `mod` 256 = Z.of_nat nd) as ->
    by (subst w; Z.to_euclidean_division_equations; lia).
  rewrite !Nat2Z.id. subst na nb nc nd. by rewrite !ascii_nat_embedding.
Qed.

Lemma c_str_fixed_cons (a : ascii) (s : string) :
  c_str (String a s) = String a s → Ascii.eqb a NUL = false ∧ c_str s = s.
Proof.
  cbn. destruct (Ascii.eqb a NUL); [done|]. by intros [= ->].
Qed.

Lemma c_string_of_words_packed (n : nat) : ∀ (s : string) (rest : list Z),
  (String.length s ≤ n)%nat → c_str s = s →
  c_string_of_words (words_of_string s ++ rest) = Done s.
Proof.
  induction (lt_wf n) as [n _ IH]. intros s rest Hlen Hs.
  destruct s as [|a [|b [|c [|d s]]]].
  - cbn [words_of_string app c_string_of_words]. by rewrite word_bytes_word4.
  - apply c_str_fixed_cons in Hs as [Ha _].
    cbn [words_of_string app c_string_of_words]. rewrite word_bytes_word4.
    cbn. by rewrite Ha.
  - apply c_str_fixed_cons in Hs as [Ha [Hb _]%c_str_fixed_cons].
    cbn [words_of_string app c_string_of_words]. rewrite word_bytes_word4.
    cbn. by rewrite Ha, Hb.
  - apply c_str_fixed_cons in Hs as [Ha [Hb [Hc _]%c_str_fixed_cons]%c_str_fixed_cons].
    cbn [words_of_string app c_string_of_words]. rewrite word_bytes_word4.
    cbn. by rewrite Ha, Hb, Hc.
  - apply c_str_fixed_cons in Hs
      as [Ha [Hb [Hc [Hd Hs]%c_str_fixed_cons]%c_str_fixed_cons]%c_str_fixed_cons].
    cbn [words_of_string app c_string_of_words]. rewrite word_bytes_word4.
    cbn [until_nul]. rewrite Ha, Hb, Hc, Hd.
    cbn in Hlen.
    rewrite (IH (String.length s)) by (done || lia). done.
Qed.

(** X9: A literal string is read back as it was stored: for a string
    without NUL, packed four characters to a word and ended by NUL, the
    reader returns the string, whatever words follow it. *)
Theorem literal_round_trip (s : string) (before rest : list Z) :
  c_str s = s →
  literal_at (before ++ words_of_string s ++ rest) (length before) = Done s.
Proof.
  intros Hs. unfold literal_at. rewrite drop_app_length.
  by apply (c_string_of_words_packed (String.length s)).
Qed.

Lemma literal_round_trip_witness :
  literal_at ([op_word 4 54; 7] ++ words_of_string "main" ++ [op_word 1 42]) 2
  = Done "main".
Proof.
  apply (literal_round_trip "main" [op_word 4 54; 7] [op_word 1 42]). reflexivity.
Defined.

(** ** What a listing that returns has read *)

Lemma pass1_name_in_table (spv : SpvHeader) (spirv : list Z) (it q : nat) :
  scan spirv it q →
  ∀ budget names names' w,
  pass1 spv budget spirv it names = Done names' →
  spirv !! q = Some w → OpCode_of w = OpName spv →
  ∃ id s, spirv !! (q + 1)%nat = Some id ∧
          literal_at spirv (q + 2) = Done s ∧
          (Z.to_nat id < length names)%nat.
Proof.
  induction 1 as [it|it w0 q Hw0 Hscan IH];
    intros budget names names' w Hrun Hw Hop.
  - destruct budget as [|b]; simpl in Hrun;
      (destruct (decide (it < length spirv)%nat) as [Hlt|Hge];
       [|by apply lookup_lt_Some in Hw]); [done|].
    destruct (pass1_step spv spirv it names) as [[names1 it1]| |] eqn:Hstep;
      cbn in Hrun; [|done..].
    destruct (pass1_step_names _ _ _ _ _ _ w Hstep Hw) as [Hname _].
    destruct (Hname Hop) as (id & s & Hid & Hs & Hlt' & _).
    by exists id, s.
  - destruct budget as [|b]; simpl in Hrun;
      (destruct (decide (it < length spirv)%nat) as [Hlt|Hge];
       [|by apply lookup_lt_Some in Hw0]); [done|].
    destruct (pass1_step spv spirv it names) as [[names1 it1]| |] eqn:Hstep;
      cbn in Hrun; [|done..].
    destruct (pass1_step_next _ _ _ _ _ _ Hstep) as (w' & Hw' & ->).
    assert (w' = w0) as -> by congruence.
    destruct (IH b names1 names' w Hrun Hw Hop) as (id & s & Hid & Hs & Hlt').
    exists id, s. split; [done|]. split; [done|].
    destruct (pass1_step_names _ _ _ _ _ _ w0 Hstep Hw0) as [Hname Hother].
    destruct (decide (OpCode_of w0 = OpName spv)) as [Hop0|Hop0].
    + destruct (Hname Hop0) as (id0 & s0 & _ & _ & _ & ->).
      by rewrite length_insert in Hlt'.
    + by rewrite (Hother Hop0) in Hlt'.
Qed.

(** X10: The function checks neither the ids nor the operands of a name
    instruction; they are in range whenever the listing returns.  For every
    [OpName] that the loop from word 5 comes to stand on, the id word and the
    string lie inside the stream, a NUL ends the string before the stream
    does, and the id is below the bound of the header. *)
Theorem listed_names_in_range (spv : SpvHeader) (budget : nat)
    (spirv : list Z) (idbound : Z) (ls : list DisassemblyLine) (q : nat) (w : Z) :
  listing spv budget spirv idbound = Done ls →
  scan spirv 5 q → spirv !! q = Some w → OpCode_of w = OpName spv →
  ∃ id s, spirv !! (q + 1)%nat = Some id ∧
          literal_at spirv (q + 2) = Done s ∧
          (Z.to_nat id < Z.to_nat idbound)%nat.
Proof.
  unfold listing. intros Hrun Hscan Hw Hop.
  destruct (pass1 spv budget spirv 5 _) as [names| |] eqn:Hpass1;
    cbn in Hrun; [|done..].
  destruct (pass1_name_in_table spv spirv 5 q Hscan _ _ _ w Hpass1 Hw Hop)
    as (id & s & Hid & Hs & Hlt).
  exists id, s. split; [done|]. split; [done|].
  by rewrite length_replicate in Hlt.
Qed.

Lemma listed_names_in_range_witness :
  ∃ id s, name_after_use_stream !! (8 + 1)%nat = Some id ∧
          literal_at name_after_use_stream (8 + 2) = Done s ∧
          (Z.to_nat id < Z.to_nat 8)%nat.
Proof.
  apply (listed_names_in_range sample_spv 12 name_after_use_stream 8
           [mkLine None "EntryPoint" "main (Vertex Shader)"] 8 (op_word 4 54)).
  - vm_compute. reflexivity.
  - apply (scan_next _ 5%nat (op_word 3 6)); [reflexivity|]. apply scan_here.
  - reflexivity.
  - reflexivity.
Defined.

(** X11: [silent] is looked at only outside a function.  A name
    instruction that stands inside a function is listed, with the next
    operation index; one that stands outside leaves no line.  Neither changes
    the table of names in pass 2. *)
Theorem name_listed_inside_function (spv : SpvHeader) (spirv : list Z)
    (it : nat) (st : Pass2State) (w : Z) :
  spirv !! it = Some w → OpCode_of w = OpName spv →
  pass2_step spv spirv it st =
    Done (if infunc st
          then (Some (mkLine (Some (opidx st)) (ToStr_Op spv (OpName spv)) EmptyString),
                mkPass2 (to_uint32 (opidx st + 1)) true (resultnames st))
          else (None, st),
          (it + Z.to_nat (WordCount_of w))%nat).
Proof.
  intros Hw Hop. use_labels spv.
  unfold pass2_step, word_at. rewrite Hw. cbn [mbind outcome_bind].
  rewrite Hop. unfold format_operands.
  rewrite (proj2 (Z.eqb_neq (OpName spv) (OpSource spv))) by done.
  rewrite (proj2 (Z.eqb_neq (OpName spv) (OpExtInstImport spv))) by done.
  rewrite (proj2 (Z.eqb_neq (OpName spv) (OpMemoryModel spv))) by done.
  rewrite (proj2 (Z.eqb_neq (OpName spv) (OpEntryPoint spv))) by done.
  rewrite (proj2 (Z.eqb_neq (OpName spv) (OpFunction spv))) by done.
  rewrite (proj2 (Z.eqb_neq (OpName spv) (OpFunctionEnd spv))) by done.
  rewrite Z.eqb_refl. cbn. by destruct (infunc st) eqn:Hin.
Qed.

Lemma name_listed_inside_function_witness :
  pass2_step sample_spv [op_word 4 54; 7; 1852399981; 0] 0
    (mkPass2 3 true ["a"]) =
    Done (Some (mkLine (Some 3) "Name" EmptyString),
          mkPass2 (to_uint32 (3 + 1)) true ["a"],
          (0 + Z.to_nat (WordCount_of (op_word 4 54)))%nat).
Proof.
  apply (name_listed_inside_function sample_spv [op_word 4 54; 7; 1852399981; 0]
           0 (mkPass2 3 true ["a"]) (op_word 4 54)); reflexivity.
Defined.

(** X12: The five words of the header are read without a look at the size
    of the stream: a stream of fewer than five words, the empty one
    included, is read past its end, unless its first word is there and is
    not the magic number. *)
Theorem header_read_unchecked (spv : SpvHeader) (budget shaderIdx : nat)
    (spirv : list Z) :
  (length spirv < 5)%nat →
  (∀ magic, spirv !! 0%nat = Some magic → magic = MagicNumber spv) →
  DisassembleSPIRV spv budget shaderIdx spirv = Undefined OutOfBounds.
Proof.
  intros Hlen Hmagic. unfold DisassembleSPIRV, word_at.
  destruct (header !! shaderIdx) as [title|]; [|done].
  destruct spirv as [|magic spirv]; [done|].
  rewrite (Hmagic magic eq_refl). cbn [lookup list_lookup mbind outcome_bind].
  rewrite Z.eqb_refl. cbn [negb].
  destruct spirv as [|v [|g [|b [|r spirv]]]]; cbn in *; try done. lia.
Qed.

Lemma header_read_unchecked_witness :
  DisassembleSPIRV sample_spv 10 0 [119734787; 99; 0] = Undefined OutOfBounds.
Proof.
  apply (header_read_unchecked sample_spv 10 0 [119734787; 99; 0]).
  - simpl. lia.
  - intros magic H. injection H as <-. reflexivity.
Defined.

(** ** sort when no two siblings share a register *)

Lemma regs_differ_spec (l : list DynShaderConstant) :
  regs_differ l = true ↔
  NoDup (map reg l) ∧ Forall (λ v, regs_differ (children v) = true) l.
Proof.
  unfold regs_differ at 1. rewrite andb_true_iff, bool_decide_eq_true.
  rewrite forallb_forall, Forall_forall.
  assert (∀ v, regs_differ_below v = regs_differ (children v)) as Hc
    by (by intros [n r [d ms]]).
  split; intros [Hnd Hall]; (split; [done|]); intros v Hv.
  - rewrite <- Hc. apply Hall. by apply list_elem_of_In.
  - rewrite Hc. apply Hall. by apply list_elem_of_In.
Qed.

Lemma not_after_both (a b : DynShaderConstant) :
  not_after a b → not_after b a → reg a = reg b.
Proof.
  unfold not_after, offset_sort. destruct a as [? [va ca] ?], b as [? [vb cb] ?].
  cbn. intros H1 H2.
  destruct (Z.eqb_spec vb va) as [->|?].
  - rewrite Z.eqb_refl in H2. f_equal. lia.
  - destruct (Z.eqb_spec va vb); lia.
Qed.

Lemma same_reg_same_node (l : list DynShaderConstant) (a b : DynShaderConstant) :
  NoDup (map reg l) → a ∈ l → b ∈ l → reg a = reg b → a = b.
Proof.
  intros Hnd [i Hi]%list_elem_of_lookup [j Hj]%list_elem_of_lookup Hreg.
  assert (i = j) as ->; [|congruence].
  apply (NoDup_lookup (map reg l) i j (reg a)); [done| |].
  - by rewrite list_lookup_fmap, Hi.
  - by rewrite list_lookup_fmap, Hj, Hreg.
Qed.

Lemma sorted_arrangement_unique (l l1 l2 : list DynShaderConstant) :
  NoDup (map reg l) → l1 ≡ₚ l → l2 ≡ₚ l →
  offset_sorted l1 → offset_sorted l2 → l1 = l2.
Proof.
  intros Hnd H1 H2 Hs1 Hs2.
  apply (StronglySorted_unique_strong not_after); [|done|done|by rewrite H1, H2].
  intros x1 x2 Hx1 Hx2 Hab Hba.
  apply (same_reg_same_node l); [done|by rewrite <- H1|by rewrite <- H2|].
  by apply not_after_both.
Qed.

Lemma sort_same_within_depth (lib1 lib2 : StdSort) (d : nat) :
  ∀ vars, within_depth d vars → regs_differ vars = true →
  sort lib1 vars = sort lib2 vars.
Proof.
  induction d as [|d IH]; intros vars Hwithin Hregs.
  - apply within_depth_0 in Hwithin as ->.
    by rewrite !sort_unfold, !std_sort_nil.
  - apply regs_differ_spec in Hregs as [Hnd Hbelow].
    rewrite !sort_unfold.
    rewrite (sorted_arrangement_unique vars (std_sort lib1 vars) (std_sort lib2 vars))
      by (done || apply std_sort_permutes || apply std_sort_sorts).
    apply map_ext_in. intros v Hv. apply list_elem_of_In in Hv.
    rewrite (std_sort_permutes lib2 vars) in Hv. f_equal.
    unfold within_depth in Hwithin. rewrite Forall_forall in Hwithin, Hbelow.
    apply IH; [apply height_children|]; auto.
Qed.

(** X13: Where no two siblings share a register, the result of [sort] does
    not depend on the sorting function of the library: the order it leaves
    is the only ascending one. *)
Theorem sort_deterministic (lib1 lib2 : StdSort) (vars : list DynShaderConstant) :
  regs_differ vars = true → sort lib1 vars = sort lib2 vars.
Proof.
  apply (sort_same_within_depth lib1 lib2 (max_list (map height vars))).
  apply within_depth_max.
Qed.

Lemma sort_deterministic_witness :
  sort merge_std_sort [leaf "three" 3 0; leaf "one" 1 0; leaf "two" 2 0]
  = sort merge_reversed_sort [leaf "three" 3 0; leaf "one" 1 0; leaf "two" 2 0].
Proof.
  apply (sort_deterministic merge_std_sort merge_reversed_sort
           [leaf "three" 3 0; leaf "one" 1 0; leaf "two" 2 0]).
  vm_compute. reflexivity.
Defined.

Lemma sort_identity_within_depth (lib : StdSort) (d : nat) :
  ∀ vars, within_depth d vars → regs_differ vars = true →
  sorted_everywhere vars → sort lib vars = vars.
Proof.
  induction d as [|d IH]; intros vars Hwithin Hregs [Hsorted Hbelow].
  - apply within_depth_0 in Hwithin as ->.
    by rewrite !sort_unfold, !std_sort_nil.
  - apply regs_differ_spec in Hregs as [Hnd Hregs].
    rewrite sort_unfold.
    rewrite (sorted_arrangement_unique vars (std_sort lib vars) vars)
      by (done || apply std_sort_permutes || apply std_sort_sorts).
    transitivity (map id vars); [|apply map_id].
    apply map_ext_in. intros v Hv. apply list_elem_of_In in Hv.
    unfold within_depth in Hwithin.
    rewrite Forall_forall in Hwithin, Hbelow, Hregs.
    rewrite IH; [apply set_members_children|apply height_children|..]; auto.
    apply sorted_below_children; auto.
Qed.

(** X14: [sort] changes nothing in a tree that is in ascending order at
    every level and in which no two siblings share a register; so sorting
    twice gives what sorting once gives. *)
Theorem sort_fixes_sorted (lib : StdSort) (vars : list DynShaderConstant) :
  regs_differ vars = true → sorted_everywhere vars → sort lib vars = vars.
Proof.
  apply (sort_identity_within_depth lib (max_list (map height vars))).
  apply within_depth_max.
Qed.

Lemma sort_fixes_sorted_witness :
  sort merge_std_sort [leaf "one" 1 0; leaf "two" 2 0]
  = [leaf "one" 1 0; leaf "two" 2 0].
Proof.
  apply (sort_fixes_sorted merge_std_sort [leaf "one" 1 0; leaf "two" 2 0]).
  - vm_compute. reflexivity.
  - split; repeat constructor.
Defined.

(** ** CheckVertexOutputUses *)

Lemma string_drop_add (a b : nat) : ∀ s,
  string_drop (a + b) s = string_drop b (string_drop a s).
Proof.
  induction a as [|a IH]; intros s; [done|].
  destruct s as [|c s]; cbn; [by destruct b|apply IH].
Qed.

Lemma get_string_drop (a b : nat) : ∀ s,
  String.get (a + b) s = String.get b (string_drop a s).
Proof.
  induction a as [|a IH]; intros s; [done|].
  destruct s as [|c s]; cbn; [by destruct b|apply IH].
Qed.

Lemma length_string_drop (a : nat) : ∀ s,
  String.length (string_drop a s) = (String.length s - a)%nat.
Proof.
  induction a as [|a IH]; intros s; cbn; [lia|].
  destruct s as [|c s]; cbn; [done|apply IH].
Qed.

Lemma substring_string_drop (p m : nat) : ∀ s,
  String.substring p m s = String.substring 0 m (string_drop p s).
Proof.
  induction p as [|p IH]; intros s; [done|].
  destruct s as [|c s]; cbn; [by destruct m|apply IH].
Qed.

Lemma starts_with_substring (pat : string) : ∀ t,
  String.substring 0 (String.length pat) t = pat ↔ starts_with pat t = true.
Proof.
  induction pat as [|a pat IH]; intros t; cbn.
  - by destruct t.
  - destruct t as [|b t]; [done|].
    split.
    + intros [= -> H]. rewrite Ascii.eqb_refl. cbn. by apply IH.
    + intros [->%Ascii.eqb_eq H]%andb_prop. cbn. f_equal. by apply IH.
Qed.

Lemma occurs_at_starts_with (pat s : string) (p : nat) :
  occurs_at pat s p ↔ starts_with pat (string_drop p s) = true.
Proof.
  unfold occurs_at. by rewrite substring_string_drop, starts_with_substring.
Qed.

Lemma first_occurrence_Some (pat : string) : ∀ t k,
  first_occurrence pat t = Some k →
  (k ≤ String.length t)%nat ∧
  starts_with pat (string_drop k t) = true ∧
  ∀ j, (j < k)%nat → starts_with pat (string_drop j t) = false.
Proof.
  induction t as [|c t IH]; intros k; cbn [first_occurrence].
  - destruct (starts_with pat EmptyString) eqn:E; [|done].
    intros [= <-]. split; [done|]. split; [done|]. lia.
  - destruct (starts_with pat (String c t)) eqn:E.
    + intros [= <-]. split; [cbn; lia|]. split; [done|]. lia.
    + destruct (first_occurrence pat t) as [k'|] eqn:Hk; [|done].
      intros [= <-]. destruct (IH k' eq_refl) as (Hle & Hat & Hbefore).
      split; [cbn; lia|]. split; [done|].
      intros [|j] Hj; [done|]. cbn. apply Hbefore. lia.
Qed.

Lemma first_occurrence_None (pat : string) : ∀ t,
  first_occurrence pat t = None →
  ∀ j, starts_with pat (string_drop j t) = false.
Proof.
  induction t as [|c t IH]; cbn [first_occurrence].
  - destruct (starts_with pat EmptyString) eqn:E; [done|].
    intros _ [|j]; done.
  - destruct (starts_with pat (String c t)) eqn:E; [done|].
    destruct (first_occurrence pat t) as [k'|] eqn:Hk; [done|].
    intros _ [|j]; [done|]. cbn. by apply IH.
Qed.

Lemma string_find_Some (pat s : string) (offs p : nat) :
  string_find pat s offs = Some p →
  (offs ≤ p ≤ String.length s)%nat ∧ occurs_at pat s p ∧
  ∀ p', (offs ≤ p' < p)%nat → ¬ occurs_at pat s p'.
Proof.
  unfold string_find. destruct (decide _) as [Hle|]; [|done].
  destruct (first_occurrence pat (string_drop offs s)) as [k|] eqn:Hk; [|done].
  intros [= <-]. apply first_occurrence_Some in Hk as (Hlen & Hat & Hbefore).
  rewrite length_string_drop in Hlen. split; [lia|]. split.
  - apply occurs_at_starts_with. by rewrite string_drop_add.
  - intros p' Hp'. rewrite occurs_at_starts_with.
    replace p' with (offs + (p' - offs))%nat by lia.
    rewrite string_drop_add, Hbefore by lia. done.
Qed.

Lemma string_find_None (pat s : string) (offs : nat) :
  pat ≠ EmptyString →
  string_find pat s offs = None →
  ∀ p', (offs ≤ p')%nat → ¬ occurs_at pat s p'.
Proof.
  intros Hpat. unfold string_find. destruct (decide _) as [Hle|Hgt].
  - destruct (first_occurrence pat (string_drop offs s)) as [k|] eqn:Hk; [done|].
    intros _ p' Hp'. rewrite occurs_at_starts_with.
    replace p' with (offs + (p' - offs))%nat by lia.
    by rewrite string_drop_add, (first_occurrence_None pat _ Hk).
  - intros _ p' Hp'. rewrite occurs_at_starts_with.
    assert (string_drop p' s = EmptyString) as ->.
    { pose proof (length_string_drop p' s) as Hl.
      destruct (string_drop p' s); [done|]. cbn in Hl. lia. }
    by destruct pat.
Qed.

(** Where the inner loop stops. *)
Lemma to_assignment_stop (rest : string) : ∀ offs q hit,
  to_assignment rest offs = (q, hit) →
  ∃ k, q = (offs + k)%nat ∧ (k ≤ String.length rest)%nat ∧
       (∀ j, (j < k)%nat →
             String.get j rest ≠ Some "="%char ∧ String.get j rest ≠ Some ";"%char) ∧
       (hit = true → String.get k rest = Some "="%char) ∧
       (hit = false → String.get k rest = Some ";"%char ∨ k = String.length rest).
Proof.
  induction rest as [|c rest IH]; intros offs q hit; cbn [to_assignment].
  - intros [= <- <-]. exists 0%nat. split; [lia|]. split; [done|].
    split; [lia|]. split; [done|]. by right.
  - destruct (Ascii.eqb c "=") eqn:Heq.
    { apply Ascii.eqb_eq in Heq as ->. intros [= <- <-]. exists 0%nat.
      split; [lia|]. split; [cbn; lia|]. split; [lia|]. done. }
    destruct (Ascii.eqb c ";") eqn:Hsemi.
    { apply Ascii.eqb_eq in Hsemi as ->. intros [= <- <-]. exists 0%nat.
      split; [lia|]. split; [cbn; lia|]. split; [lia|]. split; [done|].
      by left. }
    intros Hrec. destruct (IH _ _ _ Hrec) as (k & -> & Hk & Hfree & Hhit & Hmiss).
    exists (S k). split; [lia|]. split; [cbn; lia|]. split; [|split].
    + intros [|j] Hj; cbn.
      * apply Ascii.eqb_neq in Heq, Hsemi. split; congruence.
      * apply Hfree. lia.
    + done.
    + intros Hf. destruct (Hmiss Hf) as [?| ->]; [by left|by right].
Qed.

(** One turn of the outer loop decides every place of the identifier up to
    the place where the inner loop stops. *)
Lemma to_assignment_decides (s : string) (p q : nat) (hit : bool) :
  (p ≤ String.length s)%nat →
  to_assignment (string_drop p s) p = (q, hit) →
  (p ≤ q ≤ String.length s)%nat ∧
  (String.get p s ≠ Some "="%char → String.get p s ≠ Some ";"%char →
   (p < String.length s)%nat → (p < q)%nat) ∧
  (hit = true → assigned_at s p) ∧
  (∀ p', (p ≤ p' < q)%nat → assigned_at s p' → hit = true).
Proof.
  intros Hp Hstop. apply to_assignment_stop in Hstop
    as (k & -> & Hk & Hfree & Hhit & Hmiss).
  rewrite length_string_drop in Hk, Hmiss.
  assert (∀ j, String.get j (string_drop p s) = String.get (p + j) s) as Hget
    by (intros j; by rewrite get_string_drop).
  split; [|split; [|split]].
  - lia.
  - intros H1 H2 Hlt. destruct k as [|k]; [|lia].
    destruct hit.
    + specialize (Hhit eq_refl). rewrite Hget, Nat.add_0_r in Hhit. done.
    + destruct (Hmiss eq_refl) as [Hs|Hl]; [|lia].
      rewrite Hget, Nat.add_0_r in Hs. done.
  - intros Ht. exists (p + k)%nat. split; [lia|]. split.
    + rewrite <- Hget. by apply Hhit.
    + intros j Hj. replace j with (p + (j - p))%nat by lia.
      rewrite <- Hget. apply Hfree. lia.
  - intros p' Hp' (q' & Hq' & Heq & Hnosemi).
    destruct hit; [done|]. exfalso.
    destruct (decide (q' < p + k)%nat) as [Hlt|Hge].
    + destruct (Hfree (q' - p)%nat ltac:(lia)) as [Hne _].
      rewrite Hget in Hne. replace (p + (q' - p))%nat with q' in Hne by lia. done.
    + destruct (Hmiss eq_refl) as [Hs|Hl].
      * rewrite Hget in Hs.
        destruct (decide (q' = p + k)%nat) as [->|Hne]; [congruence|].
        apply (Hnosemi (p + k)%nat); [lia|done].
      * assert (String.length s ≤ q')%nat as Hout by lia.
        assert (String.get q' s = None) as Hnone.
        { clear -Hout. revert q' Hout. induction s as [|c s IH]; intros q' Hout.
          - by destruct q'.
          - destruct q' as [|q']; cbn in *; [lia|]. apply IH. lia. }
        congruence.
Qed.

Lemma occurs_at_first_char (a : ascii) (pat s : string) (p : nat) :
  occurs_at (String a pat) s p →
  String.get p s = Some a ∧ (p < String.length s)%nat.
Proof.
  rewrite occurs_at_starts_with. intros H.
  pose proof (get_string_drop p 0 s) as Hget. rewrite Nat.add_0_r in Hget.
  pose proof (length_string_drop p s) as Hlen.
  destruct (string_drop p s) as [|b t]; [done|]. cbn in *.
  apply andb_prop in H as [->%Ascii.eqb_eq _]. split; [done|lia].
Qed.

(** The loop for one identifier returns, and what it returns. *)
Lemma used_from_spec (a : ascii) (pat s : string) (budget : nat) :
  a ≠ "="%char → a ≠ ";"%char →
  ∀ offs used,
  (offs ≤ String.length s < offs + budget)%nat →
  ∃ b, used_from budget (String a pat) s offs used = Done b ∧
       (b = true ↔
        used = true ∨
        ∃ p, (offs ≤ p)%nat ∧ occurs_at (String a pat) s p ∧ assigned_at s p).
Proof.
  intros Ha1 Ha2. induction budget as [|n IH]; intros offs used Hlen.
  - lia.
  - cbn [used_from].
    destruct (string_find (String a pat) s offs) as [p|] eqn:Hfind.
    + apply string_find_Some in Hfind as (Hp & Hocc & Hbefore).
      destruct (to_assignment (string_drop p s) p) as [q hit] eqn:Hstop.
      apply to_assignment_decides in Hstop as (Hq & Hmove & Hhit & Hdecides);
        [|lia].
      destruct (occurs_at_first_char _ _ _ _ Hocc) as [Hget Hin].
      assert (p < q)%nat as Hpq.
      { apply Hmove; [congruence | congruence | done]. }
      destruct (IH q (used || hit) ltac:(lia)) as (b & Hrun & Hb).
      exists b. split; [done|]. rewrite Hb, orb_true_iff. split.
      * intros [[Hu|Hh]|(p' & Hp' & Hocc' & Has')].
        -- by left.
        -- right. exists p. split; [lia|]. split; [done|]. by apply Hhit.
        -- right. exists p'. split; [lia|]. done.
      * intros [Hu|(p' & Hp' & Hocc' & Has')]; [by left; left|].
        destruct (decide (p' < p)%nat) as [Hlt|Hge].
        { by destruct (Hbefore p' ltac:(lia)). }
        destruct (decide (p' < q)%nat) as [Hlt|Hge'].
        -- left. right. apply (Hdecides p'); [lia|done].
        -- right. exists p'. split; [lia|]. done.
    + exists used. split; [done|]. split; [by left|].
      intros [Hu|(p' & Hp' & Hocc' & _)]; [done|].
      assert (String a pat ≠ EmptyString) as Hne by done.
      by destruct (string_find_None _ _ _ Hne Hfind p' Hp').
Qed.

Lemma check_sources_spec (sources : list string) : ∀ ps cd,
  ∃ ps' cd',
    check_sources sources ps cd = Done (ps', cd') ∧
    (ps' = true ↔ ps = true ∨ written "gl_PointSize" sources) ∧
    (cd' = true ↔ cd = true ∨ written "gl_ClipDistance" sources).
Proof.
  induction sources as [|s sources IH]; intros ps cd; cbn [check_sources].
  - exists ps, cd. split; [done|].
    split; (split; [by left|]); (intros [?|(s & p & Hin & _)]; [done|]);
      by apply elem_of_nil in Hin.
  - destruct (used_from_spec "g" "l_PointSize" s (S (String.length s))
                ltac:(done) ltac:(done) 0%nat ps ltac:(cbn; lia)) as (p1 & -> & Hp1).
    destruct (used_from_spec "g" "l_ClipDistance" s (S (String.length s))
                ltac:(done) ltac:(done) 0%nat cd ltac:(cbn; lia)) as (c1 & -> & Hc1).
    cbn [mbind outcome_bind].
    destruct (IH p1 c1) as (ps' & cd' & -> & Hps & Hcd).
    exists ps', cd'. split; [done|].
    rewrite Hps, Hcd, Hp1, Hc1. unfold written.
    split; split.
    + intros [[?|(p & _ & Ho & Ha)]|(s' & p & Hin & Ho & Ha)]; [by left|..].
      * right. exists s, p. split; [apply elem_of_cons; by left|done].
      * right. exists s', p. split; [apply elem_of_cons; by right|done].
    + intros [?|(s' & p & Hin & Ho & Ha)]; [by left; left|].
      apply elem_of_cons in Hin as [->|Hin].
      * left. right. exists p. split; [lia|done].
      * right. by exists s', p.
    + intros [[?|(p & _ & Ho & Ha)]|(s' & p & Hin & Ho & Ha)]; [by left|..].
      * right. exists s, p. split; [apply elem_of_cons; by left|done].
      * right. exists s', p. split; [apply elem_of_cons; by right|done].
    + intros [?|(s' & p & Hin & Ho & Ha)]; [by left; left|].
      apply elem_of_cons in Hin as [->|Hin].
      * left. right. exists p. split; [lia|done].
      * right. by exists s', p.
Qed.

(** X15: [CheckVertexOutputUses] returns for every list of sources, and a
    flag is set exactly when some source has the identifier at a place from
    which an [=] is met before any [;] and before the end of the source. *)
Theorem CheckVertexOutputUses_spec (sources : list string) :
  ∃ pointSizeUsed clipDistanceUsed,
    CheckVertexOutputUses sources = Done (pointSizeUsed, clipDistanceUsed) ∧
    (pointSizeUsed = true ↔ written "gl_PointSize" sources) ∧
    (clipDistanceUsed = true ↔ written "gl_ClipDistance" sources).
Proof.
  destruct (check_sources_spec sources false false)
    as (ps & cd & Hrun & Hps & Hcd).
  exists ps, cd. split; [done|].
  rewrite Hps, Hcd. split; split; try (by right); by intros [?|?].
Qed.

(** ** GetBindpointMapping: the base name of a sampler array *)

Lemma append_assoc (s t u : string) : (s +:+ t) +:+ u = s +:+ (t +:+ u).
Proof. induction s as [|a s IH]; [done|]. by rewrite !append_cons, IH. Qed.

Lemma back_snoc (s : string) (c : ascii) :
  back (s +:+ String c EmptyString) = Done c.
Proof.
  induction s as [|a s IH]; [done|]. rewrite append_cons. cbn [back].
  rewrite IH. by destruct (s +:+ String c EmptyString) eqn:E; [destruct s|].
Qed.

Lemma pop_back_snoc (s : string) (c : ascii) :
  pop_back (s +:+ String c EmptyString) = Done s.
Proof.
  induction s as [|a s IH]; [done|]. rewrite append_cons. cbn [pop_back].
  rewrite IH. by destruct (s +:+ String c EmptyString) eqn:E; [destruct s|].
Qed.

Lemma string_snoc (s : string) :
  s ≠ EmptyString →
  ∃ s' c, s = s' +:+ String c EmptyString.
Proof.
  induction s as [|a s IH]; [done|]. intros _.
  destruct s as [|b s].
  - by exists EmptyString, a.
  - destruct IH as (s' & c & ->); [done|]. by exists (String a s'), c.
Qed.

Lemma get_snoc_last (s : string) (c : ascii) :
  String.get (String.length s) (s +:+ String c EmptyString) = Some c.
Proof.
  pose proof (append_correct2 s (String c EmptyString) 0) as H.
  cbn [Nat.add] in H. by rewrite <- H.
Qed.

Lemma pop_to_bracket_index (base : string) (n : nat) : ∀ idx c budget,
  String.length idx = n → (n < budget)%nat →
  (∀ i, String.get i idx ≠ Some "["%char) →
  pop_to_bracket budget ((base +:+ "[" +:+ idx) +:+ String c EmptyString)
  = Done (base +:+ "[").
Proof.
  induction n as [|n IH]; intros idx c budget Hlen Hbudget Hidx;
    (destruct budget as [|b]; [lia|]); cbn [pop_to_bracket].
  - destruct idx; [|done]. rewrite pop_back_snoc. cbn [mbind outcome_bind].
    change (base +:+ "[" +:+ "") with (base +:+ String "[" EmptyString).
    by rewrite back_snoc.
  - destruct (string_snoc idx) as (idx' & d & ->); [by destruct idx|].
    rewrite pop_back_snoc. cbn [mbind outcome_bind].
    replace (base +:+ "[" +:+ idx' +:+ String d EmptyString)
      with ((base +:+ "[" +:+ idx') +:+ String d EmptyString)
      by (by rewrite !append_assoc).
    rewrite back_snoc. cbn [mbind outcome_bind].
    rewrite length_append in Hlen. cbn in Hlen.
    assert (d ≠ "["%char) as Hd.
    { intros ->. apply (Hidx (String.length idx')). apply get_snoc_last. }
    apply Ascii.eqb_neq in Hd. rewrite Hd. cbn [negb].
    apply IH; [lia | lia |].
    intros i Hi. apply (Hidx i).
    rewrite <- append_correct1; [done|].
    clear -Hi. revert i Hi. induction idx' as [|a s IHs]; intros [|i] Hi; cbn in *;
      try done; [lia|]. apply IHs in Hi. lia.
Qed.

(** X16: The name that is looked up for an element of a sampler array is
    the name of the array: from [base[idx]] the index and its brackets are
    taken off.  A name that does not end in [']'] is looked up as it is. *)
Theorem sampler_base_name_indexed (base idx : string) :
  (∀ i, String.get i idx ≠ Some "["%char) →
  sampler_base_name (base +:+ "[" +:+ idx +:+ "]") = Done base.
Proof.
  intros Hidx. unfold sampler_base_name.
  replace (base +:+ "[" +:+ idx +:+ "]")
    with ((base +:+ "[" +:+ idx) +:+ String "]" EmptyString)
    by (by rewrite !append_assoc).
  rewrite back_snoc. cbn [mbind outcome_bind Ascii.eqb Bool.eqb andb].
  rewrite (pop_to_bracket_index base (String.length idx)); [|done| |done].
  - cbn [mbind outcome_bind].
    change (base +:+ "[") with (base +:+ String "[" EmptyString).
    apply pop_back_snoc.
  - rewrite !length_append. cbn. lia.
Qed.

Lemma sampler_base_name_indexed_witness :
  sampler_base_name ("tex" +:+ "[" +:+ "12" +:+ "]") = Done "tex".
Proof.
  apply (sampler_base_name_indexed "tex" "12").
  intros [|[|[|i]]]; simpl; discriminate.
Defined.

Lemma pop_to_bracket_none (n : nat) : ∀ s c budget,
  String.length s = n → (n < budget)%nat →
  (∀ i, String.get i s ≠ Some "["%char) →
  pop_to_bracket budget (s +:+ String c EmptyString) = Undefined OutOfBounds.
Proof.
  induction n as [|n IH]; intros s c budget Hlen Hbudget Hs;
    (destruct budget as [|b]; [lia|]); cbn [pop_to_bracket];
    rewrite pop_back_snoc; cbn [mbind outcome_bind].
  - by destruct s.
  - destruct (string_snoc s) as (s' & d & ->); [by destruct s|].
    rewrite back_snoc. cbn [mbind outcome_bind].
    rewrite length_append in Hlen. cbn in Hlen.
    assert (d ≠ "["%char) as Hd.
    { intros ->. apply (Hs (String.length s')). apply get_snoc_last. }
    apply Ascii.eqb_neq in Hd. rewrite Hd. cbn [negb].
    apply IH; [lia | lia |].
    intros i Hi. apply (Hs i).
    rewrite <- append_correct1; [done|].
    clear -Hi. revert i Hi. induction s' as [|a s IHs]; intros [|i] Hi; cbn in *;
      try done; [lia|]. apply IHs in Hi. lia.
Qed.

Lemma length_pop_back (s t : string) :
  pop_back s = Done t → String.length s = S (String.length t).
Proof.
  revert t. induction s as [|a s IH]; intros t; [done|]. cbn [pop_back].
  destruct s as [|b s]; [by intros [= <-]|].
  destruct (pop_back (String b s)) as [t'| |]; cbn; [|done..].
  intros [= <-]. specialize (IH t' eq_refl). cbn in *. lia.
Qed.

Lemma pop_back_no_timeout (s : string) : pop_back s ≠ Timeout.
Proof.
  induction s as [|a s IH]; [done|]. cbn [pop_back].
  destruct s as [|b s]; [done|]. by destruct (pop_back (String b s)).
Qed.

Lemma back_no_timeout (s : string) : back s ≠ Timeout.
Proof.
  induction s as [|a s IH]; [done|]. cbn [back]. by destruct s.
Qed.

Lemma pop_to_bracket_within_budget (budget : nat) : ∀ name,
  (0 < String.length name ≤ budget)%nat → pop_to_bracket budget name ≠ Timeout.
Proof.
  induction budget as [|b IH]; intros name Hlen; [lia|]. cbn [pop_to_bracket].
  pose proof (pop_back_no_timeout name) as Hpop.
  destruct (pop_back name) as [name1| |] eqn:Hname1; cbn; [|done..].
  apply length_pop_back in Hname1.
  pose proof (back_no_timeout name1) as Hback.
  destruct (back name1) as [c| |] eqn:Hc; cbn; [|done..].
  destruct (negb (Ascii.eqb c "[")); [|done].
  apply IH. destruct name1; [done|]. cbn in *. lia.
Qed.

(** X17: The loop looks for the opening bracket without a look at the
    length of the name.  It ends for every name; but for a name that ends in
    [']'] and has no ['['] it empties the string, and [back] is then asked
    of an empty string.  So it is for an empty name at the first test. *)
Theorem sampler_base_name_unmatched :
  (∀ name, sampler_base_name name ≠ Timeout) ∧
  sampler_base_name EmptyString = Undefined OutOfBounds ∧
  (∀ s, (∀ i, String.get i s ≠ Some "["%char) →
        sampler_base_name (s +:+ "]") = Undefined OutOfBounds).
Proof.
  split; [|split; [done|]].
  - intros name. unfold sampler_base_name.
    pose proof (back_no_timeout name) as Hback.
    destruct (back name) as [c| |] eqn:Hc; cbn; [|done..].
    destruct (Ascii.eqb c "]"); [|done].
    assert (0 < String.length name)%nat as Hlen
      by (destruct name; [done|cbn; lia]).
    pose proof (pop_to_bracket_within_budget (String.length name) name
                  ltac:(lia)) as Hloop.
    destruct (pop_to_bracket (String.length name) name) as [name1| |];
      cbn; [|done..].
    apply pop_back_no_timeout.
  - intros s Hs. unfold sampler_base_name.
    change (s +:+ "]") with (s +:+ String "]" EmptyString).
    rewrite back_snoc. cbn [mbind outcome_bind Ascii.eqb Bool.eqb andb].
    rewrite (pop_to_bracket_none (String.length s)); [done|done| |done].
    rewrite length_append. cbn. lia.
Qed.

Lemma sampler_base_name_unmatched_witness :
  sampler_base_name ("tex" +:+ "]") = Undefined OutOfBounds.
Proof.
  apply (proj2 (proj2 sampler_base_name_unmatched) "tex").
  intros [|[|[|[|i]]]]; simpl; discriminate.
Defined.

(** ** GetBindpointMapping: vertex attributes *)

Lemma bind_attributes_spec (n : Z) (locs : list Z) : ∀ i attrs,
  length attrs = Z.to_nat n →
  ∃ attrs',
    bind_attributes n i locs attrs = Done attrs' ∧
    length attrs' = length attrs ∧
    (∀ k : nat, (∀ j loc, locs !! j = Some loc → loc ≠ Z.of_nat k) →
                attrs' !! k = attrs !! k) ∧
    (∀ (j : nat) loc,
       locs !! j = Some loc → 0 ≤ loc < n →
       (∀ (j' : nat) loc', (j < j')%nat → locs !! j' = Some loc' → loc' ≠ loc) →
       attrs' !! Z.to_nat loc = Some (i + Z.of_nat j)).
Proof.
  induction locs as [|loc0 locs IH]; intros i attrs Hlen; cbn [bind_attributes].
  - exists attrs. split; [done|]. split; [done|]. split; [done|].
    intros j loc Hj. by rewrite lookup_nil in Hj.
  - set (attrs1 := if (0 <=? loc0) && (loc0 <? n)
                   then <[Z.to_nat loc0 := i]> attrs else attrs).
    assert ((if (0 <=? loc0) && (loc0 <? n) then
               if decide (Z.to_nat loc0 < length attrs)%nat
               then Done (<[Z.to_nat loc0 := i]> attrs)
               else Undefined OutOfBounds
             else Done attrs) = Done attrs1) as ->.
    { subst attrs1. destruct ((0 <=? loc0) && (loc0 <? n)) eqn:Hin; [|done].
      destruct (decide _) as [|Hout]; [done|]. lia. }
    cbn [mbind outcome_bind].
    assert (length attrs1 = length attrs) as Hlen1.
    { subst attrs1. destruct ((0 <=? loc0) && (loc0 <? n)); [|done].
      apply length_insert. }
    destruct (IH (i + 1) attrs1 ltac:(lia)) as (attrs' & Hrun & Hlen' & Hfree & Hlast).
    exists attrs'. split; [done|]. split; [lia|]. split.
    + intros k Hk. rewrite Hfree by (intros j loc Hj; apply (Hk (S j) loc Hj)).
      subst attrs1. destruct ((0 <=? loc0) && (loc0 <? n)) eqn:Hin; [|done].
      apply list_lookup_insert_ne.
      pose proof (Hk 0%nat loc0 eq_refl). lia.
    + intros [|j] loc Hj Hloc Hafter.
      * cbn in Hj. injection Hj as ->.
        rewrite Hfree.
        -- subst attrs1.
           replace ((0 <=? loc) && (loc <? n)) with true by lia.
           rewrite list_lookup_insert_eq by lia. f_equal. lia.
        -- intros j' loc' Hj'.
           pose proof (Hafter (S j') loc' ltac:(lia) Hj'). lia.
      * cbn in Hj. rewrite (Hlast j loc Hj Hloc).
        -- f_equal. lia.
        -- intros j' loc' Hlt Hj'. apply (Hafter (S j') loc'); [lia|done].
Qed.

(** X18: The array of vertex attributes has [numVAttribBindings] entries
    and no write goes outside it.  An entry that no element of the signature
    is bound to is -1; an entry that some are bound to holds the index of the
    last of them.  For a shader that is not the vertex shader every entry is
    -1. *)
Theorem InputAttributes_spec (n shadIdx : Z) (locs : list Z) :
  0 ≤ n →
  ∃ attrs,
    InputAttributes n shadIdx locs = Done attrs ∧
    length attrs = Z.to_nat n ∧
    (shadIdx ≠ 0 → attrs = replicate (Z.to_nat n) (-1)) ∧
    (∀ k : nat, (k < Z.to_nat n)%nat →
                (∀ j loc, locs !! j = Some loc → loc ≠ Z.of_nat k) →
                attrs !! k = Some (-1)) ∧
    (shadIdx = 0 →
     ∀ (j : nat) loc,
       locs !! j = Some loc → 0 ≤ loc < n →
       (∀ (j' : nat) loc', (j < j')%nat → locs !! j' = Some loc' → loc' ≠ loc) →
       attrs !! Z.to_nat loc = Some (Z.of_nat j)).
Proof.
  intros Hn. unfold InputAttributes.
  destruct (Z.eqb_spec shadIdx 0) as [->|Hne].
  - destruct (bind_attributes_spec n locs 0 (replicate (Z.to_nat n) (-1)))
      as (attrs & Hrun & Hlen & Hfree & Hlast); [by rewrite length_replicate|].
    rewrite length_replicate in Hlen.
    exists attrs. split; [done|]. split; [done|]. split; [done|]. split.
    + intros k Hk Hunbound. rewrite (Hfree k Hunbound).
      by apply lookup_replicate_2.
    + intros _ j loc Hj Hloc Hafter. by rewrite (Hlast j loc Hj Hloc Hafter).
  - exists (replicate (Z.to_nat n) (-1)). split; [done|].
    split; [by rewrite length_replicate|]. split; [done|]. split; [|done].
    intros k Hk _. by apply lookup_replicate_2.
Qed.

Lemma InputAttributes_spec_witness :
  ∃ attrs,
    InputAttributes 4 0 [2; -1; 0] = Done attrs ∧
    length attrs = Z.to_nat 4 ∧
    (0 ≠ 0 → attrs = replicate (Z.to_nat 4) (-1)) ∧
    (∀ k : nat, (k < Z.to_nat 4)%nat →
                (∀ j loc, [2; -1; 0] !! j = Some loc → loc ≠ Z.of_nat k) →
                attrs !! k = Some (-1)) ∧
    (0 = 0 →
     ∀ (j : nat) loc,
       [2; -1; 0] !! j = Some loc → 0 ≤ loc < 4 →
       (∀ (j' : nat) loc', (j < j')%nat → [2; -1; 0] !! j' = Some loc' → loc' ≠ loc) →
       attrs !! Z.to_nat loc = Some (Z.of_nat j)).
Proof. apply (InputAttributes_spec 4 0 [2; -1; 0]). lia. Defined.

(** ** MakeSeparableShaderProgram: where the block is inserted *)

Lemma skip_while_bounds (p : ascii → bool) (rest : string) : ∀ it,
  (it ≤ skip_while p rest it ≤ it + String.length rest)%nat.
Proof.
  induction rest as [|c rest IH]; intros it; cbn; [lia|].
  destruct (p c); [|lia]. specialize (IH (S it)). lia.
Qed.

Lemma skip_while_moves (p : ascii → bool) (c : ascii) (rest : string) (it : nat) :
  p c = true → (it < skip_while p (String c rest) it)%nat.
Proof.
  intros Hc. cbn. rewrite Hc. pose proof (skip_while_bounds p rest (S it)). lia.
Qed.

Lemma to_comment_end_bounds (rest : string) : ∀ it,
  (it ≤ to_comment_end rest it ≤ it + String.length rest)%nat.
Proof.
  induction rest as [|a rest IH]; intros it; cbn [to_comment_end]; [cbn; lia|].
  destruct rest as [|b rest]; [cbn; lia|].
  destruct (negb (Ascii.eqb a "*") || negb (Ascii.eqb b "/")); [|cbn; lia].
  specialize (IH (S it)). cbn in *. lia.
Qed.

Lemma to_comment_end_step (a b : ascii) (r : string) (it : nat) :
  to_comment_end (String a (String b r)) it =
  if negb (Ascii.eqb a "*") || negb (Ascii.eqb b "/")
  then to_comment_end (String b r) (S it) else it.
Proof. done. Qed.

Lemma skip_within (src : string) (it it' : nat) :
  (it ≤ String.length src)%nat →
  (it ≤ it' ≤ it + String.length (string_drop it src))%nat →
  (it ≤ it' ≤ String.length src)%nat.
Proof. rewrite length_string_drop. lia. Qed.

Lemma starts_with_cons_inv (a : ascii) (pat rest : string) :
  starts_with (String a pat) rest = true →
  ∃ rest', rest = String a rest' ∧ starts_with pat rest' = true.
Proof.
  destruct rest as [|b rest]; [done|]. cbn [starts_with].
  intros [->%Ascii.eqb_eq Hpat]%andb_prop. by exists rest.
Qed.

Lemma starts_with_cons (a : ascii) (pat rest : string) :
  starts_with (String a pat) rest = true → ∃ rest', rest = String a rest'.
Proof. intros (rest' & -> & _)%starts_with_cons_inv. by exists rest'. Qed.

(** The loop over comments and directives ends, between the place it starts
    from and the end of the source. *)
Lemma skip_comments_bounds (src : string) (budget : nat) : ∀ it,
  (it ≤ String.length src < it + budget)%nat →
  ∃ it', skip_comments budget src it = Done it' ∧
         (it ≤ it' ≤ String.length src)%nat.
Proof.
  induction budget as [|b IH]; intros it Hit; [lia|].
  cbn [skip_comments]. destruct (decide _) as [Hlt|Hge]; [|exists it; split; [done|lia]].
  set (it1 := skip_while is_space (string_drop it src) it).
  assert (it ≤ it1 ≤ String.length src)%nat as H1.
  { apply skip_within; [lia|apply skip_while_bounds]. }
  set (rest := string_drop it1 src).
  assert (∀ c rest', rest = String c rest' → in_line c = true →
            ∃ it', skip_comments b src (skip_while in_line rest it1) = Done it' ∧
                   (it ≤ it' ≤ String.length src)%nat) as Hline.
  { intros c rest' Hrest Hc.
    pose proof (skip_while_bounds in_line rest it1) as Hb.
    apply skip_within in Hb; [|lia].
    pose proof (skip_while_moves in_line c rest' it1 Hc) as Hm.
    rewrite <- Hrest in Hm.
    destruct (IH (skip_while in_line rest it1) ltac:(lia)) as (it' & -> & Hit').
    exists it'. split; [done|lia]. }
  destruct (starts_with "//" rest) eqn:Hcpp.
  { apply starts_with_cons in Hcpp as (rest' & Hrest). by apply (Hline _ _ Hrest). }
  destruct (at_extension rest) eqn:Hext.
  { apply andb_prop in Hext as [(rest' & Hrest)%starts_with_cons _].
    by apply (Hline _ _ Hrest). }
  destruct (starts_with "/*" rest) eqn:Hc; [|exists it1; split; [done|lia]].
  pose proof (to_comment_end_bounds rest it1) as Hb.
  apply skip_within in Hb; [|lia].
  assert (it1 < to_comment_end rest it1)%nat as Hm.
  { apply starts_with_cons_inv in Hc as (r1 & Hr1 & Hc).
    apply starts_with_cons_inv in Hc as (r2 & -> & _).
    rewrite Hr1, to_comment_end_step.
    change (Ascii.eqb "/" "*") with false. cbn [negb orb].
    pose proof (to_comment_end_bounds (String "*" r2) (S it1)). lia. }
  destruct (IH (to_comment_end rest it1) ltac:(lia)) as (it' & -> & Hit').
  exists it'. split; [done|lia].
Qed.

Lemma insertion_point_within (src : string) :
  (string_find "#version" src 0 = None ∧ insertion_point src = Done None) ∨
  ∃ p it, string_find "#version" src 0 = Some p ∧
          insertion_point src = Done (Some it) ∧
          (p + 8 ≤ it ≤ String.length src)%nat.
Proof.
  unfold insertion_point.
  destruct (string_find "#version" src 0) as [p|] eqn:Hfind; [right|by left].
  apply string_find_Some in Hfind as (_ & Hocc & _).
  assert (p + 8 ≤ String.length src)%nat as H0.
  { unfold occurs_at in Hocc.
    assert (String.length (String.substring p (String.length "#version") src) = 8%nat)
      as Hl by (by rewrite Hocc).
    rewrite substring_string_drop in Hl.
    assert (∀ m t, String.length (String.substring 0 m t) ≤ String.length t)%nat
      as Hsub.
    { induction m as [|m IHm]; intros [|c t]; cbn; try lia.
      specialize (IHm t). lia. }
    pose proof (Hsub 8%nat (string_drop p src)) as Hle.
    rewrite length_string_drop in Hle. cbn in Hl. lia. }
  set (it0 := (p + 8)%nat) in *.
  set (it1 := skip_while is_blank (string_drop it0 src) it0).
  assert (it0 ≤ it1 ≤ String.length src)%nat as H1
    by (apply skip_within; [lia|apply skip_while_bounds]).
  set (it2 := skip_while is_digit (string_drop it1 src) it1).
  assert (it1 ≤ it2 ≤ String.length src)%nat as H2
    by (apply skip_within; [lia|apply skip_while_bounds]).
  set (it3 := skip_while is_blank (string_drop it2 src) it2).
  assert (it2 ≤ it3 ≤ String.length src)%nat as H3
    by (apply skip_within; [lia|apply skip_while_bounds]).
  assert (∀ word it, (it ≤ String.length src)%nat →
            starts_with word (string_drop it src) = true →
            (it + String.length word ≤ String.length src)%nat) as Hword.
  { intros word it Hit Hw. apply starts_with_substring in Hw.
    assert (String.length word ≤ String.length (string_drop it src))%nat as Hle.
    { rewrite <- Hw at 1. clear.
      generalize (String.length word) as m. generalize (string_drop it src) as t.
      intros t m. revert t. induction m as [|m IHm]; intros [|c t]; cbn; try lia.
      specialize (IHm t). lia. }
    rewrite length_string_drop in Hle. lia. }
  set (it4 := if starts_with "core" (string_drop it3 src)
              then (it3 + 4)%nat else it3).
  assert (it3 ≤ it4 ≤ String.length src)%nat as H4.
  { subst it4. destruct (starts_with "core" _) eqn:E; [|lia].
    apply Hword in E; [cbn in E|]; lia. }
  set (it5 := if starts_with "compatibility" (string_drop it4 src)
              then (it4 + 13)%nat else it4).
  assert (it4 ≤ it5 ≤ String.length src)%nat as H5.
  { subst it5. destruct (starts_with "compatibility" _) eqn:E; [|lia].
    apply Hword in E; [cbn in E|]; lia. }
  set (it6 := if starts_with "es" (string_drop it5 src)
              then (it5 + 2)%nat else it5).
  assert (it5 ≤ it6 ≤ String.length src)%nat as H6.
  { subst it6. destruct (starts_with "es" _) eqn:E; [|lia].
    apply Hword in E; [cbn in E|]; lia. }
  destruct (skip_comments_bounds src (S (String.length src)) it6 ltac:(lia))
    as (it & -> & Hit).
  exists p, it. split; [done|]. split; [done|]. lia.
Qed.

(** X19: For every source the search for the place of the block returns.
    A source without [#version] has no such place; otherwise the place lies
    behind the first [#version] and within the source, so that the insertion
    is accepted and the block never comes before the directive. *)
Theorem insertion_point_bounds (src : string) :
  (string_find "#version" src 0 = None ∧ insertion_point src = Done None) ∨
  ∃ p it, string_find "#version" src 0 = Some p ∧
          insertion_point src = Done (Some it) ∧
          (p + 8 ≤ it ≤ String.length src)%nat.
Proof. apply insertion_point_within. Qed.

(** ** MakeSeparableShaderProgram: a comment behind the directive *)

Lemma string_drop_append (s t : string) :
  string_drop (String.length s) (s +:+ t) = t.
Proof. induction s as [|a s IH]; [done|]. by rewrite append_cons. Qed.

Lemma skip_while_stop (p : ascii → bool) (c : ascii) (t : string) (it : nat) :
  p c = false → skip_while p (String c t) it = it.
Proof. intros H. cbn. by rewrite H. Qed.

Lemma skip_while_digits (ds : string) (c : ascii) (t : string) : ∀ it,
  all_digits ds = true → is_digit c = false →
  skip_while is_digit (ds +:+ String c t) it = (it + String.length ds)%nat.
Proof.
  induction ds as [|a ds IH]; intros it Hds Hc.
  - rewrite append_nil, skip_while_stop by done. cbn. lia.
  - rewrite append_cons. cbn [all_digits] in Hds.
    apply andb_prop in Hds as [Ha Hds]. cbn [skip_while]. rewrite Ha.
    rewrite IH by done. cbn. lia.
Qed.

Lemma to_comment_end_body (body rest : string) : ∀ it,
  (∀ i, String.get i body ≠ Some "*"%char) →
  to_comment_end (body +:+ String "*" (String "/" rest)) it
  = (it + String.length body)%nat.
Proof.
  induction body as [|c body IH]; intros it Hbody.
  - rewrite append_nil, to_comment_end_step. cbn. lia.
  - rewrite append_cons.
    assert (Ascii.eqb c "*" = false) as Hc.
    { apply Ascii.eqb_neq. intros ->. by apply (Hbody 0%nat). }
    assert (∃ b r, body +:+ String "*" (String "/" rest) = String b r)
      as (b & r & Hbr) by (destruct body; cbn; eauto).
    rewrite Hbr, to_comment_end_step, Hc. cbn [negb orb]. rewrite <- Hbr.
    rewrite IH by (intros i; apply (Hbody (S i))). cbn. lia.
Qed.

Lemma skip_comments_break (src : string) (b it : nat) (c : ascii) (t : string) :
  (0 < b)%nat →
  string_drop it src = String c t →
  is_space c = false →
  starts_with "//" (String c t) = false →
  at_extension (String c t) = false →
  starts_with "/*" (String c t) = false →
  skip_comments b src it = Done it.
Proof.
  intros Hb Hdrop Hc H1 H2 H3. destruct b as [|b]; [lia|]. cbn [skip_comments].
  destruct (decide _) as [_|Hge]; [|done].
  rewrite Hdrop, skip_while_stop by done. cbn zeta.
  by rewrite Hdrop, H1, H2, H3.
Qed.

Lemma skip_comments_comment (src : string) (b it it1 : nat) (rest : string) :
  (it < String.length src)%nat →
  skip_while is_space (string_drop it src) it = it1 →
  string_drop it1 src = rest →
  starts_with "//" rest = false →
  at_extension rest = false →
  starts_with "/*" rest = true →
  skip_comments (S b) src it = skip_comments b src (to_comment_end rest it1).
Proof.
  intros Hlt H1 Hdrop Hcpp Hext Hc. cbn [skip_comments].
  destruct (decide _) as [_|Hge]; [|lia].
  cbn zeta. by rewrite H1, Hdrop, Hcpp, Hext, Hc.
Qed.

(** X20: The loop that skips a C comment stops on the [*/] that ends the
    comment, and the next turn of the outer loop stops there as well: for a
    source with a comment behind its [#version] line, the place of the block
    is the [*/], and the block is put inside the comment. *)
Theorem block_lands_in_comment (ver body rest block : string) :
  all_digits ver = true →
  (∀ i, String.get i body ≠ Some "*"%char) →
  String.get 0 body ≠ Some "/"%char →
  let before := "#version " +:+ ver +:+ nl +:+ "/*" +:+ body in
  insertion_point (before +:+ "*/" +:+ rest)
    = Done (Some (String.length before)) ∧
  insert_block block [before +:+ "*/" +:+ rest]
    = Done [before +:+ block +:+ "*/" +:+ rest].
Proof.
  intros Hver Hbody Hslash before.
  set (closing := String "*" (String "/" rest)).
  set (comment := String "/" (String "*" (body +:+ closing))).
  set (afterver := String lf comment).
  set (src := before +:+ "*/" +:+ rest).
  assert (src = "#version " +:+ ver +:+ afterver) as Hsrc.
  { subst src before afterver comment closing. rewrite !append_assoc. done. }
  assert (String.length before = (12 + String.length ver + String.length body)%nat)
    as Hlen.
  { subst before. rewrite !length_append. cbn. lia. }
  assert (String.length src
          = (14 + String.length ver + String.length body + String.length rest)%nat)
    as Hlsrc.
  { subst src. rewrite !length_append, Hlen. cbn. lia. }
  assert (string_drop (9 + String.length ver) src = afterver) as Hdrop.
  { rewrite Hsrc. change (string_drop (9 + String.length ver) ("#version " +:+ ver +:+ afterver))
      with (string_drop (String.length ver) (ver +:+ afterver)).
    apply string_drop_append. }
  assert (string_drop (10 + String.length ver) src = comment) as Hdrop1.
  { replace (10 + String.length ver)%nat with ((9 + String.length ver) + 1)%nat by lia.
    by rewrite string_drop_add, Hdrop. }
  assert (string_drop (String.length before) src = closing) as Hdrop2.
  { subst src. by rewrite string_drop_append. }
  assert (insertion_point src = Done (Some (String.length before))) as Hpoint.
  { unfold insertion_point.
    assert (string_find "#version" src 0 = Some 0%nat) as ->.
    { unfold string_find. destruct (decide _) as [_|?]; [|lia]. by rewrite Hsrc. }
    cbn [Nat.add].
    assert (string_drop 8 src = String " " (ver +:+ afterver)) as -> by (by rewrite Hsrc).
    assert (skip_while is_blank (String " " (ver +:+ afterver)) 8 = 9%nat) as ->.
    { cbn [skip_while]. change (is_blank " ") with true. cbn match.
      destruct ver as [|d ver]; [done|].
      rewrite append_cons. apply skip_while_stop.
      cbn [all_digits] in Hver. apply andb_prop in Hver as [Hd _].
      unfold is_digit in Hd. unfold is_blank, tab.
      destruct (Ascii.eqb_spec d " ") as [->|?]; [done|].
      destruct (Ascii.eqb_spec d (ascii_of_nat 9)) as [->|?]; done. }
    assert (string_drop 9 src = ver +:+ afterver) as -> by (by rewrite Hsrc).
    assert (skip_while is_digit (ver +:+ afterver) 9
            = (9 + String.length ver)%nat) as ->
      by (by apply skip_while_digits).
    rewrite Hdrop.
    assert (skip_while is_blank afterver (9 + String.length ver)
            = (9 + String.length ver)%nat) as ->
      by (by apply skip_while_stop).
    rewrite Hdrop.
    change (starts_with "core" afterver) with false. cbn match. rewrite Hdrop.
    change (starts_with "compatibility" afterver) with false. cbn match. rewrite Hdrop.
    change (starts_with "es" afterver) with false. cbn match.
    assert (skip_while is_space afterver (9 + String.length ver)
            = (10 + String.length ver)%nat) as Hspace.
    { unfold afterver. cbn [skip_while]. change (is_space lf) with true.
      cbn match. unfold comment. by rewrite skip_while_stop. }
    assert (to_comment_end comment (10 + String.length ver)
            = String.length before) as Hend.
    { unfold comment. rewrite to_comment_end_step.
      change (Ascii.eqb "/" "*") with false. cbn [negb orb].
      destruct body as [|c body'] eqn:Hb.
      - rewrite append_nil. unfold closing. rewrite !to_comment_end_step.
        change (Ascii.eqb "*" "*") with true.
        change (Ascii.eqb "*" "/") with false.
        change (Ascii.eqb "/" "/") with true. cbn [negb orb].
        rewrite Hlen. cbn. lia.
      - rewrite append_cons, to_comment_end_step.
        assert (Ascii.eqb c "/" = false) as ->.
        { apply Ascii.eqb_neq. intros ->. by apply Hslash. }
        rewrite orb_true_r. rewrite <- append_cons.
        unfold closing. rewrite to_comment_end_body by done.
        rewrite Hlen. cbn. lia. }
    rewrite (skip_comments_comment src (String.length src)
               (9 + String.length ver) (10 + String.length ver) comment);
      [|lia|by rewrite Hdrop|done|done|done|done].
    rewrite Hend.
    rewrite (skip_comments_break src _ _ "*" (String "/" rest));
      [done|lia|done|done|done|done|done]. }
  split; [done|].
  cbn [insert_block]. rewrite Hpoint. cbn [mbind outcome_bind].
  unfold string_insert. destruct (decide _) as [_|?]; [|subst src; rewrite length_append in *; lia].
  cbn [mbind outcome_bind]. rewrite Hdrop2. subst src.
  by rewrite substring_append_l.
Qed.

Lemma block_lands_in_comment_witness :
  let before := "#version " +:+ "330" +:+ nl +:+ "/*" +:+ " main " in
  insertion_point (before +:+ "*/" +:+ " void main() {}")
    = Done (Some (String.length before)) ∧
  insert_block "BLOCK" [before +:+ "*/" +:+ " void main() {}"]
    = Done [before +:+ "BLOCK" +:+ "*/" +:+ " void main() {}"].
Proof.
  apply (block_lands_in_comment "330" " main " " void main() {}" "BLOCK").
  - reflexivity.
  - intros [|[|[|[|[|[|[|i]]]]]]]; simpl; discriminate.
  - simpl. discriminate.
Defined.

(** ** MakeSeparableShaderProgram: the strings that are compiled *)

Lemma insert_block_spec (block : string) (strings : list string) :
  ∃ strings',
    insert_block block strings = Done strings' ∧
    (((∀ s, s ∈ strings → string_find "#version" s 0 = None) ∧
      strings' = strings) ∨
     block_inserted block strings strings').
Proof.
  induction strings as [|src strings IH]; cbn [insert_block].
  - exists []. split; [done|]. left. split; [|done].
    intros s Hs. by apply elem_of_nil in Hs.
  - destruct (insertion_point_within src)
      as [[Hfind ->]|(p & it & Hfind & -> & Hit)]; cbn [mbind outcome_bind].
    + destruct IH as (rest & -> & Hrest). cbn [mbind outcome_bind].
      exists (src :: rest). split; [done|].
      destruct Hrest as [[Hnone ->]|(i & s & p & it & Hi & Hbefore & Hp & Hit & ->)].
      * left. split; [|done]. intros s [->|Hs]%elem_of_cons; auto.
      * right. exists (S i), s, p, it. split; [done|]. split; [|done].
        intros [|j] s' Hj Hs'; cbn in Hs'; [by simplify_eq|].
        apply (Hbefore j s'); [lia|done].
    + unfold string_insert. destruct (decide _) as [_|?]; [|lia].
      cbn [mbind outcome_bind]. eexists. split; [done|]. right.
      exists 0%nat, src, p, it. split; [done|]. split; [|done].
      intros j s Hj. lia.
Qed.

Lemma patch_block_spec (type : ShaderStage) (blocktype : nat)
    (sources strings : list string) :
  ∃ strings',
    patch_block type blocktype sources strings = Done strings' ∧
    length strings' = length strings ∧
    (strings' = strings ∨
     block_inserted
       (if (blocktype =? 0)%nat then (blocks type).1 else (blocks type).2)
       strings strings').
Proof.
  assert (∀ block,
            ∃ strings', insert_block block strings = Done strings' ∧
                        length strings' = length strings ∧
                        (strings' = strings ∨
                         block_inserted block strings strings')) as Hins.
  { intros block. destruct (insert_block_spec block strings)
      as (strings' & Hrun & [[_ ->]|Hin]).
    - exists strings. split; [done|]. split; [done|]. by left.
    - exists strings'. split; [done|]. split; [|by right].
      destruct Hin as (i & src & p & it & _ & _ & _ & _ & ->).
      apply length_insert. }
  unfold patch_block.
  destruct (already _ sources).
  - exists strings. split; [by destruct type, blocktype|]. split; [done|]. by left.
  - destruct type, blocktype; try apply Hins;
      (exists strings; split; [done|]; split; [done|]; by left).
Qed.

(** X21: The function returns the strings for every status, stage and list
    of sources.  It keeps their number, and each of the two turns of the
    patch either changes nothing or puts its block into the first string
    that has a [#version], behind the directive and within the string; every
    other string is handed on as it is. *)
Theorem patched_strings_spec (status : Z) (type : ShaderStage)
    (sources : list string) :
  ∃ strings0 strings,
    patched_strings status type sources = Done strings ∧
    length strings = length sources ∧
    (strings0 = map c_str sources ∨
     block_inserted (blocks type).1 (map c_str sources) strings0) ∧
    (strings = strings0 ∨ block_inserted (blocks type).2 strings0 strings).
Proof.
  unfold patched_strings.
  destruct ((status =? 0) && negb (bool_decide (type = eGL_FRAGMENT_SHADER))
            && negb (bool_decide (type = eGL_COMPUTE_SHADER))).
  - destruct (patch_block_spec type 0 sources (map c_str sources))
      as (strings0 & -> & Hlen0 & H0).
    cbn [mbind outcome_bind].
    destruct (patch_block_spec type 1 sources strings0)
      as (strings & -> & Hlen & H1).
    exists strings0, strings. split; [done|].
    split; [by rewrite Hlen, Hlen0, length_map|]. done.
  - exists (map c_str sources), (map c_str sources). split; [done|].
    split; [by rewrite length_map|]. split; by left.
Qed.

Lemma already_spec (identifier : string) (sources : list string) :
  already identifier sources = true ↔
  ∃ s, s ∈ sources ∧ is_Some (string_find identifier s 0).
Proof.
  unfold already. rewrite existsb_exists. split.
  - intros (s & Hs & Hb). exists s. split; [by apply list_elem_of_In|].
    by apply bool_decide_eq_true in Hb.
  - intros (s & Hs & Hb). exists s. split; [by apply list_elem_of_In|].
    by apply bool_decide_eq_true.
Qed.

(** X22: When the sources are handed on as they are: when the first program
    linked, or the stage is the fragment or the compute stage; when no source
    has a [#version]; and when some source has the words [out gl_PerVertex]
    and, unless the stage is the vertex stage, some source has the words
    [in gl_PerVertex]. *)
Theorem patched_strings_unchanged (status : Z) (type : ShaderStage)
    (sources : list string) :
  (status ≠ 0 ∨ type = eGL_FRAGMENT_SHADER ∨ type = eGL_COMPUTE_SHADER) ∨
  (∀ s, s ∈ sources → string_find "#version" (c_str s) 0 = None) ∨
  ((∃ s, s ∈ sources ∧ is_Some (string_find "out gl_PerVertex" s 0)) ∧
   (type = eGL_VERTEX_SHADER ∨
    ∃ s, s ∈ sources ∧ is_Some (string_find "in gl_PerVertex" s 0))) →
  patched_strings status type sources = Done (map c_str sources).
Proof.
  unfold patched_strings.
  intros [Hguard|Hpatch].
  { destruct Hguard as [Hs|[-> | ->]].
    - by rewrite (proj2 (Z.eqb_neq status 0) Hs).
    - by rewrite andb_false_r.
    - by rewrite andb_false_r. }
  destruct ((status =? 0) && negb (bool_decide (type = eGL_FRAGMENT_SHADER))
            && negb (bool_decide (type = eGL_COMPUTE_SHADER))); [|done].
  destruct Hpatch as [Hnone|[Hout Hin]].
  - assert (∀ block, insert_block block (map c_str sources)
                     = Done (map c_str sources)) as Hins.
    { intros block.
      destruct (insert_block_spec block (map c_str sources))
        as (strings' & -> & [[_ ->]|(i & src & p & it & Hi & _ & Hp & _)]);
        [done|].
      rewrite list_lookup_fmap in Hi.
      destruct (sources !! i) as [s|] eqn:Hs; [|done]. cbn in Hi.
      injection Hi as <-. rewrite Hnone in Hp; [done|].
      by apply list_elem_of_lookup_2 in Hs. }
    unfold patch_block.
    destruct (already _ sources), (already _ sources), type;
      cbn [mbind outcome_bind]; rewrite ?Hins; cbn [mbind outcome_bind];
      rewrite ?Hins; done.
  - apply already_spec in Hout. unfold patch_block.
    cbn [blockIdentifiers fst snd Nat.eqb]. rewrite Hout.
    destruct Hin as [->|Hin]; [done|].
    apply already_spec in Hin. rewrite Hin. by destruct type.
Qed.

Lemma patched_strings_unchanged_witness :
  patched_strings 0 eGL_VERTEX_SHADER
    ["#version 330" +:+ nl +:+ "out gl_PerVertex { vec4 gl_Position; };"]
  = Done (map c_str
            ["#version 330" +:+ nl +:+ "out gl_PerVertex { vec4 gl_Position; };"]).
Proof.
  apply (patched_strings_unchanged 0 eGL_VERTEX_SHADER
           ["#version 330" +:+ nl +:+ "out gl_PerVertex { vec4 gl_Position; };"]).
  right. right. split; [|by left].
  eexists. split; [apply elem_of_cons; left; reflexivity|]. vm_compute. eauto.
Defined.

(** ** The elements of a signature *)

Lemma starts_with_trans (p : string) : ∀ b nm,
  starts_with p b = true → starts_with b nm = true → starts_with p nm = true.
Proof.
  induction p as [|a p IH]; intros b nm Hp Hb; [done|].
  destruct b as [|x b]; [done|]. destruct nm as [|y nm]; [done|].
  cbn [starts_with] in *.
  apply andb_prop in Hp as [->%Ascii.eqb_eq Hp].
  apply andb_prop in Hb as [->%Ascii.eqb_eq Hb].
  rewrite Ascii.eqb_refl. by apply (IH b nm).
Qed.

Lemma builtins_start_with_gl :
  Forall (λ b, starts_with "gl_" b.1 = true) builtins.
Proof. repeat constructor. Qed.

Lemma builtin_value_other (nm : string) :
  starts_with "gl_" nm = false → builtin_value nm = eAttr_None.
Proof.
  intros Hnm. unfold builtin_value.
  assert (∀ (l : list (string * SystemAttribute)) (value : SystemAttribute),
            Forall (λ b, starts_with "gl_" b.1 = true) l →
            foldl (λ value b, if starts_with b.1 nm then b.2 else value) value l
            = value) as Hfold.
  { induction l as [|b l IH]; intros value Hl; [done|].
    apply Forall_cons in Hl as [Hb Hl]. cbn [foldl].
    destruct (starts_with b.1 nm) eqn:E; [|by apply IH].
    by rewrite (starts_with_trans "gl_" b.1 nm Hb E) in Hnm. }
  apply Hfold, builtins_start_with_gl.
Qed.

(** X23: A variable whose name does not start with [gl_] is never left
    out and never given a system value, except that an output of the
    fragment shader is a colour output.  When it is not a matrix, its
    register is its location if it has one; without a location it is the
    index of the variable in the interface, or 0 for an output of the
    fragment shader. *)
Theorem user_variable_entries (mask_bits index_bits : Z)
    (shadType : ShaderStage) (sigEnum : ProgramInterface)
    (pointSizeUsed clipDistanceUsed : bool) (i : Z) (nm : string)
    (type : GLtype) (location component : Z) (sigs : list SigParameter) :
  starts_with "gl_" nm = false →
  signature_entries mask_bits index_bits shadType sigEnum
    pointSizeUsed clipDistanceUsed i nm type location component = Some sigs →
  sigs ≠ [] ∧
  ∀ sig, sig ∈ sigs →
    systemValue sig =
      (if bool_decide (shadType = eGL_FRAGMENT_SHADER ∧ sigEnum = eGL_PROGRAM_OUTPUT)
       then eAttr_ColourOutput else eAttr_None) ∧
    (sig_rows type = 1 →
     regIndex sig =
       (if 0 <=? location then location
        else if bool_decide (shadType = eGL_FRAGMENT_SHADER ∧
                             sigEnum = eGL_PROGRAM_OUTPUT)
             then 0 else i) `mod` 2 ^ index_bits).
Proof.
  intros Hnm. unfold signature_entries.
  destruct (shift_mask mask_bits (sig_mask type) component) as [mask|];
    [|done]. cbn [mbind option_bind].
  assert (starts_with "gl_PointSize" nm = false) as ->.
  { destruct (starts_with "gl_PointSize" nm) eqn:E; [|done].
    by rewrite (starts_with_trans "gl_" "gl_PointSize" nm eq_refl E) in Hnm. }
  assert (starts_with "gl_ClipDistance" nm = false) as ->.
  { destruct (starts_with "gl_ClipDistance" nm) eqn:E; [|done].
    by rewrite (starts_with_trans "gl_" "gl_ClipDistance" nm eq_refl E) in Hnm. }
  cbn [andb]. rewrite (builtin_value_other nm Hnm).
  rewrite (bool_decide_eq_true_2 (eAttr_None = eAttr_None)) by done.
  rewrite andb_true_r.
  assert (bool_decide (shadType = eGL_FRAGMENT_SHADER) &&
          bool_decide (sigEnum = eGL_PROGRAM_OUTPUT)
          = bool_decide (shadType = eGL_FRAGMENT_SHADER ∧
                         sigEnum = eGL_PROGRAM_OUTPUT)) as ->.
  { destruct shadType, sigEnum; done. }
  destruct (sig_rows type =? 1) eqn:Hrows.
  - intros [= <-]. split; [done|].
    intros sig ->%list_elem_of_singleton. cbn. split; [done|].
    intros _. unfold to_regIndex.
    destruct (bool_decide (shadType = eGL_FRAGMENT_SHADER ∧
                           sigEnum = eGL_PROGRAM_OUTPUT));
      destruct (0 <=? location); done.
  - intros [= <-]. split.
    + destruct type; cbn in *; done.
    + intros sig (r & -> & _)%list_elem_of_fmap. cbn. split; [done|]. lia.
Qed.

Lemma user_variable_entries_witness :
  [mkSig "colour" 0 false 0 eCompType_Float 4 15 15 eAttr_None 2] ≠ [] ∧
  ∀ sig, sig ∈ [mkSig "colour" 0 false 0 eCompType_Float 4 15 15 eAttr_None 2] →
    systemValue sig =
      (if bool_decide (eGL_VERTEX_SHADER = eGL_FRAGMENT_SHADER ∧
                       eGL_PROGRAM_INPUT = eGL_PROGRAM_OUTPUT)
       then eAttr_ColourOutput else eAttr_None) ∧
    (sig_rows eGL_FLOAT_VEC4 = 1 →
     regIndex sig =
       (if 0 <=? -1 then -1
        else if bool_decide (eGL_VERTEX_SHADER = eGL_FRAGMENT_SHADER ∧
                             eGL_PROGRAM_INPUT = eGL_PROGRAM_OUTPUT)
             then 0 else 2) `mod` 2 ^ 32).
Proof.
  apply (user_variable_entries 8 32 eGL_VERTEX_SHADER eGL_PROGRAM_INPUT
           false false 2 "colour" eGL_FLOAT_VEC4 (-1) 0); reflexivity.
Defined.

(** X24: A matrix gives one element for each of its rows: the elements
    are named [nm:row0], [nm:row1], ... and stand in registers that follow
    one another from the register of the variable; every other type gives
    one element under the name of the variable. *)
Theorem matrix_rows_entries (mask_bits index_bits : Z)
    (shadType : ShaderStage) (sigEnum : ProgramInterface)
    (pointSizeUsed clipDistanceUsed : bool) (i : Z) (nm : string)
    (type : GLtype) (location component : Z) (sigs : list SigParameter) :
  signature_entries mask_bits index_bits shadType sigEnum
    pointSizeUsed clipDistanceUsed i nm type location component = Some sigs →
  sigs ≠ [] →
  (sig_rows type = 1 → ∃ sig, sigs = [sig] ∧ varName sig = nm) ∧
  (sig_rows type ≠ 1 →
   ∃ first,
     first = first `mod` 2 ^ index_bits ∧
     Z.of_nat (length sigs) = sig_rows type ∧
     ∀ (r : nat) sig, sigs !! r = Some sig →
       varName sig = nm +:+ ":row" +:+ pretty (Z.of_nat r) ∧
       regIndex sig = (first + Z.of_nat r) `mod` 2 ^ index_bits).
Proof.
  unfold signature_entries.
  destruct (shift_mask mask_bits (sig_mask type) component) as [mask|];
    [|done]. cbn [mbind option_bind].
  destruct (starts_with "gl_PointSize" nm && negb pointSizeUsed);
    [by intros [= <-]|].
  destruct (starts_with "gl_ClipDistance" nm && negb clipDistanceUsed);
    [by intros [= <-]|].
  cbn zeta. destruct (Z.eqb_spec (sig_rows type) 1) as [Hrows|Hrows].
  - intros [= <-] _. split; [|done]. intros _. eexists. split; [done|]. done.
  - intros [= <-] _. split; [done|]. intros _.
    eexists. split; [|split]; cycle 1.
    + rewrite length_map, length_seqZ.
      destruct type; cbn; done.
    + intros r sig Hr. rewrite list_lookup_fmap in Hr.
      destruct (seqZ 0 (sig_rows type) !! r) as [z|] eqn:Hz; [|done].
      apply lookup_seqZ in Hz as [-> Hlt]. cbn in Hr. injection Hr as <-.
      cbn [varName regIndex]. split; [|reflexivity].
      unfold fmt_d. rewrite to_int32_small; [done|].
      assert (sig_rows type ≤ 4) by (destruct type; cbn; lia).
      unfold INT_MAX. lia.
    + unfold to_regIndex. symmetry. apply Zmod_mod.
Qed.

Lemma matrix_rows_entries_witness :
  let sigs :=
    [mkSig "m:row0" 0 false 0 eCompType_Float 2 3 3 eAttr_None 5;
     mkSig "m:row1" 0 false 0 eCompType_Float 2 3 3 eAttr_None 6;
     mkSig "m:row2" 0 false 0 eCompType_Float 2 3 3 eAttr_None 7] in
  (sig_rows eGL_FLOAT_MAT2x3 = 1 → ∃ sig, sigs = [sig] ∧ varName sig = "m") ∧
  (sig_rows eGL_FLOAT_MAT2x3 ≠ 1 →
   ∃ first,
     first = first `mod` 2 ^ 32 ∧
     Z.of_nat (length sigs) = sig_rows eGL_FLOAT_MAT2x3 ∧
     ∀ (r : nat) sig, sigs !! r = Some sig →
       varName sig = "m" +:+ ":row" +:+ pretty (Z.of_nat r) ∧
       regIndex sig = (first + Z.of_nat r) `mod` 2 ^ 32).
Proof.
  intros sigs.
  apply (matrix_rows_entries 8 32 eGL_VERTEX_SHADER eGL_PROGRAM_INPUT
           false false 0 "m" eGL_FLOAT_MAT2x3 5 0 sigs).
  - vm_compute. reflexivity.
  - discriminate.
Defined.

Lemma shift_mask_in_range (mask_bits mask component : Z) :
  0 ≤ mask ≤ 15 → 0 ≤ component ≤ 27 →
  shift_mask mask_bits mask component
  = Some ((mask ≪ component) `mod` 2 ^ mask_bits).
Proof.
  intros Hmask Hc. unfold shift_mask.
  replace ((0 <=? component) && (component <? 32)) with true by lia.
  rewrite Z.shiftl_mul_pow2 by lia.
  assert (2 ^ component ≤ 2 ^ 27) by (apply Z.pow_le_mono_r; lia).
  assert (0 < 2 ^ component) by (apply Z.pow_pos_nonneg; lia).
  replace (mask * 2 ^ component <=? INT_MAX) with true; [done|].
  symmetry. apply Z.leb_le. unfold INT_MAX.
  change (2 ^ 27) with 134217728 in *. nia.
Qed.

Lemma sig_mask_range (type : GLtype) : 0 ≤ sig_mask type ≤ 15.
Proof. destruct type; cbn; lia. Qed.

(** X25: What [CheckVertexOutputUses] finds decides what the signature
    leaves out: when no source writes to the identifier, in the sense of
    that function, a variable of the interface whose name starts with
    [gl_PointSize] or with [gl_ClipDistance] gives no element. *)
Theorem unwritten_builtin_left_out (mask_bits index_bits : Z)
    (sources : list string) (pointSizeUsed clipDistanceUsed : bool)
    (shadType : ShaderStage) (sigEnum : ProgramInterface) (i : Z) (nm : string)
    (type : GLtype) (location component : Z) :
  CheckVertexOutputUses sources = Done (pointSizeUsed, clipDistanceUsed) →
  0 ≤ component ≤ 3 →
  (starts_with "gl_PointSize" nm = true ∧ ¬ written "gl_PointSize" sources) ∨
  (starts_with "gl_ClipDistance" nm = true ∧ ¬ written "gl_ClipDistance" sources) →
  signature_entries mask_bits index_bits shadType sigEnum
    pointSizeUsed clipDistanceUsed i nm type location component = Some [].
Proof.
  intros Hcheck Hc Hnm.
  destruct (check_sources_spec sources false false)
    as (ps & cd & Hrun & Hps & Hcd).
  unfold CheckVertexOutputUses in Hcheck. rewrite Hrun in Hcheck.
  injection Hcheck as -> ->.
  unfold signature_entries.
  rewrite shift_mask_in_range by (apply sig_mask_range || lia).
  cbn [mbind option_bind].
  destruct Hnm as [[-> Hnot]|[Hclip Hnot]].
  - destruct pointSizeUsed; [|done]. destruct Hnot.
    by destruct (proj1 Hps eq_refl).
  - rewrite Hclip. destruct clipDistanceUsed.
    + destruct Hnot. by destruct (proj1 Hcd eq_refl).
    + by destruct (starts_with "gl_PointSize" nm && negb pointSizeUsed).
Qed.

Lemma unwritten_builtin_left_out_witness :
  signature_entries 8 32 eGL_VERTEX_SHADER eGL_PROGRAM_OUTPUT
    false false 1 "gl_PointSize" eGL_FLOAT (-1) 0 = Some [].
Proof.
  apply (unwritten_builtin_left_out 8 32 ["void main() { gl_Position = p; }"]
           false false eGL_VERTEX_SHADER eGL_PROGRAM_OUTPUT 1 "gl_PointSize"
           eGL_FLOAT (-1) 0).
  - vm_compute. reflexivity.
  - lia.
  - left. split; [reflexivity|].
    intros (s & p & Hs & Hocc & _).
    apply list_elem_of_singleton in Hs as ->.
    assert (string_find "gl_PointSize" "void main() { gl_Position = p; }" 0 = None)
      as Hnone by (vm_compute; reflexivity).
    assert ("gl_PointSize" ≠ EmptyString) as Hne by discriminate.
    apply (string_find_None "gl_PointSize" _ 0 Hne Hnone p); [lia|done].
Defined.

Lemma sig_mask_ones (type : GLtype) : sig_mask type = Z.ones (sig_compCount type).
Proof. by destruct type. Qed.

Lemma sig_compCount_range (type : GLtype) : 1 ≤ sig_compCount type ≤ 4.
Proof. destruct type; cbn; lia. Qed.

(** X26: The channel mask of an element has one bit for each of its
    components, from the bit of the first component on: for a component
    offset that leaves the four channels inside the field, bit [k] of both
    masks is set exactly when [component <= k < component + compCount]. *)
Theorem channel_mask_bits (mask_bits index_bits : Z)
    (shadType : ShaderStage) (sigEnum : ProgramInterface)
    (pointSizeUsed clipDistanceUsed : bool) (i : Z) (nm : string)
    (type : GLtype) (location component : Z) (sigs : list SigParameter) :
  0 ≤ component ≤ 27 → component + 4 ≤ mask_bits →
  signature_entries mask_bits index_bits shadType sigEnum
    pointSizeUsed clipDistanceUsed i nm type location component = Some sigs →
  ∀ sig, sig ∈ sigs →
    compCount sig = sig_compCount type ∧
    channelUsedMask sig = regChannelMask sig ∧
    ∀ k, 0 ≤ k →
      Z.testbit (regChannelMask sig) k
      = (component <=? k) && (k <? component + compCount sig).
Proof.
  intros Hc Hbits. unfold signature_entries.
  rewrite shift_mask_in_range by (apply sig_mask_range || lia).
  cbn [mbind option_bind].
  set (mask := (sig_mask type ≪ component) `mod` 2 ^ mask_bits).
  assert (∀ k, 0 ≤ k →
            Z.testbit mask k
            = (component <=? k) && (k <? component + sig_compCount type))
    as Hmask.
  { intros k Hk. subst mask. pose proof (sig_compCount_range type) as Hcc.
    rewrite sig_mask_ones.
    rewrite Z.mod_small.
    - rewrite Z.shiftl_spec by done.
      destruct (Z.leb_spec component k) as [Hle|Hgt]; cbn [andb].
      + destruct (Z.ltb_spec k (component + sig_compCount type)).
        * apply Z.ones_spec_low. lia.
        * apply Z.ones_spec_high. lia.
      + apply Z.testbit_neg_r. lia.
    - rewrite Z.shiftl_mul_pow2, Z.ones_equiv by lia.
      assert (0 < 2 ^ component) by (apply Z.pow_pos_nonneg; lia).
      assert (2 ^ sig_compCount type ≤ 2 ^ 4) by (apply Z.pow_le_mono_r; lia).
      assert (0 < 2 ^ sig_compCount type) by (apply Z.pow_pos_nonneg; lia).
      assert (2 ^ (component + 4) ≤ 2 ^ mask_bits)
        by (apply Z.pow_le_mono_r; lia).
      rewrite Z.pow_add_r in * by lia. split; [nia|].
      change (2 ^ 4) with 16 in *. nia. }
  destruct (starts_with "gl_PointSize" nm && negb pointSizeUsed).
  { intros [= <-] sig Hin. by apply elem_of_nil in Hin. }
  destruct (starts_with "gl_ClipDistance" nm && negb clipDistanceUsed).
  { intros [= <-] sig Hin. by apply elem_of_nil in Hin. }
  cbn zeta. destruct (sig_rows type =? 1).
  - intros [= <-] sig ->%list_elem_of_singleton. cbn. done.
  - intros [= <-] sig (r & -> & _)%list_elem_of_fmap. cbn. done.
Qed.

Lemma channel_mask_bits_witness :
  let sig := mkSig "uv" 0 false 0 eCompType_Float 2 12 12 eAttr_None 1 in
  compCount sig = sig_compCount eGL_FLOAT_VEC2 ∧
  channelUsedMask sig = regChannelMask sig ∧
  ∀ k, 0 ≤ k →
    Z.testbit (regChannelMask sig) k = (2 <=? k) && (k <? 2 + compCount sig).
Proof.
  intros sig.
  apply (channel_mask_bits 8 32 eGL_VERTEX_SHADER eGL_PROGRAM_INPUT
           false false 0 "uv" eGL_FLOAT_VEC2 1 2 [sig]);
    [lia | lia | reflexivity | apply elem_of_cons; left; reflexivity].
Defined.

(** X27: The table of the signature and the tables of [ReconstructVarTree]
    agree on the columns of every variable type and on the rows of every
    type but two: for [mat3x4] and [dmat3x4] the signature takes 2 rows where
    the variable has 4. *)
Theorem signature_rows_and_columns (type : GLtype) :
  is_Some (var_type_of type) →
  sig_compCount type = cols_of type ∧
  (type ≠ eGL_FLOAT_MAT3x4 → type ≠ eGL_DOUBLE_MAT3x4 →
   sig_rows type = rows_of type) ∧
  (type = eGL_FLOAT_MAT3x4 ∨ type = eGL_DOUBLE_MAT3x4 →
   sig_rows type = 2 ∧ rows_of type = 4).
Proof.
  intros [ty Hty].
  destruct type; try discriminate; cbn;
    (split; [reflexivity|]); (split; [done|]); intros [?|?]; done.
Qed.

Lemma signature_rows_and_columns_witness :
  sig_compCount eGL_FLOAT_MAT3x4 = cols_of eGL_FLOAT_MAT3x4 ∧
  (eGL_FLOAT_MAT3x4 ≠ eGL_FLOAT_MAT3x4 → eGL_FLOAT_MAT3x4 ≠ eGL_DOUBLE_MAT3x4 →
   sig_rows eGL_FLOAT_MAT3x4 = rows_of eGL_FLOAT_MAT3x4) ∧
  (eGL_FLOAT_MAT3x4 = eGL_FLOAT_MAT3x4 ∨ eGL_FLOAT_MAT3x4 = eGL_DOUBLE_MAT3x4 →
   sig_rows eGL_FLOAT_MAT3x4 = 2 ∧ rows_of eGL_FLOAT_MAT3x4 = 4).
Proof.
  apply (signature_rows_and_columns eGL_FLOAT_MAT3x4). simpl. eauto.
Defined.

(** ** sort and the registers of the nodes *)

Lemma sort_regs (lib : StdSort) (vars : list DynShaderConstant) :
  map reg (sort lib vars) ≡ₚ map reg vars.
Proof.
  rewrite sort_unfold, map_map.
  rewrite (map_ext _ reg) by (by intros [n r [d ms]]).
  apply Permutation_map, std_sort_permutes.
Qed.

Lemma sort_parent_min_within_depth (lib : StdSort) (d : nat) :
  ∀ vars, within_depth d vars → parent_min vars = true →
  parent_min (sort lib vars) = true.
Proof.
  induction d as [|d IH]; intros vars Hwithin Hmin.
  - apply within_depth_0 in Hwithin as ->.
    by rewrite sort_unfold, std_sort_nil.
  - rewrite sort_unfold. apply parent_min_spec.
    apply parent_min_spec in Hmin.
    rewrite <- (std_sort_permutes lib vars) in Hmin.
    apply std_sort_within with (lib := lib) in Hwithin.
    unfold within_depth in Hwithin.
    apply Forall_fmap, Forall_forall. intros v Hv.
    rewrite Forall_forall in Hmin, Hwithin.
    destruct (proj1 (parent_min_below_children v) (Hmin v Hv)) as [Hlow Hbelow].
    apply parent_min_below_children.
    replace (children (set_members (sort lib (children v)) v))
      with (sort lib (children v)) by (by destruct v as [n r [dsc ms]]).
    replace (reg (set_members (sort lib (children v)) v))
      with (reg v) by (by destruct v as [n r [dsc ms]]).
    split.
    + assert (Forall (λ r, vec (reg v) ≤ vec r) (map reg (sort lib (children v))))
        as Hregs.
      { rewrite sort_regs. by apply Forall_fmap. }
      rewrite Forall_fmap in Hregs. exact Hregs.
    + apply IH; [|done]. apply height_children. auto.
Qed.

(** X28: [sort] keeps what [ReconstructVarTree] sets up: in the blocks as
    they are copied out, sorted, the register of every node is still no
    larger than the register of any of its members. *)
Theorem sort_blocks_keeps_parent_min (lib : StdSort) (st : TreeState) :
  state_parent_min st → state_parent_min (sort_blocks lib st).
Proof.
  intros [Hblocks Hdefault]. unfold sort_blocks. split; cbn.
  - apply Forall_fmap. eapply Forall_impl; [exact Hblocks|]. cbn.
    intros l Hl.
    apply (sort_parent_min_within_depth lib (max_list (map height l)));
      [apply within_depth_max|done].
  - intros l Hl. destruct (defaultBlock st) as [l0|]; [|done].
    cbn in Hl. injection Hl as <-.
    apply (sort_parent_min_within_depth lib (max_list (map height l0)));
      [apply within_depth_max|by apply Hdefault].
Qed.

Lemma sort_blocks_keeps_parent_min_witness :
  state_parent_min (sort_blocks merge_std_sort foo_merged).
Proof.
  apply (sort_blocks_keeps_parent_min merge_std_sort foo_merged).
  split; cbn; [constructor|]. intros l H. injection H as <-. reflexivity.
Defined.

(** ** MakeSeparableShaderProgram: code behind the directive *)

Lemma string_drop_inside (src : string) (it : nat) (a : ascii) (t : string) :
  string_drop it src = String a t → (it < String.length src)%nat.
Proof.
  intros H. pose proof (length_string_drop it src) as Hl.
  rewrite H in Hl. cbn in Hl. lia.
Qed.

Lemma string_drop_next (src : string) (it : nat) (a : ascii) (t : string) :
  string_drop it src = String a t → string_drop (S it) src = t.
Proof.
  intros H. replace (S it) with (it + 1)%nat by lia.
  by rewrite string_drop_add, H.
Qed.

Lemma starts_with_other (a c : ascii) (pat rest : string) :
  c ≠ a → starts_with (String a pat) (String c rest) = false.
Proof.
  intros Hc. cbn [starts_with].
  destruct (Ascii.eqb_spec a c) as [->|?]; done.
Qed.

Lemma skip_comments_code (src : string) (b it : nat) (c : ascii) (rest : string) :
  (0 < b)%nat →
  string_drop it src = String lf (String c rest) →
  is_space c = false → c ≠ "/"%char → c ≠ "#"%char →
  skip_comments b src it = Done (S it).
Proof.
  intros Hb Hdrop Hc Hslash Hhash. destruct b as [|b]; [lia|].
  cbn [skip_comments].
  destruct (decide _) as [_|Hge];
    [|by apply string_drop_inside in Hdrop].
  assert (skip_while is_space (string_drop it src) it = S it) as ->.
  { rewrite Hdrop.
    change (skip_while is_space (String lf (String c rest)) it)
      with (skip_while is_space (String c rest) (S it)).
    by rewrite skip_while_stop. }
  cbn zeta. rewrite (string_drop_next src it lf (String c rest) Hdrop).
  rewrite (starts_with_other "/" c) by done.
  unfold at_extension. rewrite (starts_with_other "#" c) by done.
  rewrite (starts_with_other "/" c) by done. done.
Qed.

Lemma skip_blank_digit (d : ascii) (t : string) (it : nat) :
  is_digit d = true → skip_while is_blank (String d t) it = it.
Proof.
  intros Hd. apply skip_while_stop. unfold is_digit in Hd. unfold is_blank, tab.
  destruct (Ascii.eqb_spec d " ") as [->|?]; [done|].
  destruct (Ascii.eqb_spec d (ascii_of_nat 9)) as [->|?]; done.
Qed.

(** Where the block goes when code follows the line of the directive. *)
Lemma insertion_after_version_line (ver profile : string) (c : ascii)
    (rest : string) :
  ver ≠ EmptyString → all_digits ver = true →
  profile ∈ [EmptyString; " core"; " compatibility"; " es"] →
  is_space c = false → c ≠ "/"%char → c ≠ "#"%char →
  insertion_point (("#version " +:+ ver +:+ profile +:+ nl) +:+ String c rest)
  = Done (Some (String.length ("#version " +:+ ver +:+ profile +:+ nl))).
Proof.
  intros Hne Hver Hprofile Hc Hslash Hhash.
  set (code := String c rest).
  set (line_end := String lf code).
  set (src := ("#version " +:+ ver +:+ profile +:+ nl) +:+ code).
  assert (src = "#version " +:+ ver +:+ profile +:+ line_end) as Hsrc.
  { subst src line_end. by rewrite !append_assoc. }
  assert (String.length ("#version " +:+ ver +:+ profile +:+ nl)
          = S (String.length profile + (9 + String.length ver)))%nat as Hlen.
  { rewrite !length_append. cbn. lia. }
  set (it2 := (9 + String.length ver)%nat) in *.
  assert (∀ k, string_drop (k + it2) src = string_drop k (profile +:+ line_end))
    as Hdrop.
  { intros k. rewrite Nat.add_comm, string_drop_add. f_equal.
    rewrite Hsrc. subst it2.
    change (string_drop (9 + String.length ver)
              ("#version " +:+ ver +:+ profile +:+ line_end))
      with (string_drop (String.length ver) (ver +:+ profile +:+ line_end)).
    apply string_drop_append. }
  assert (String.length src = String.length profile + it2 + 2 + String.length rest)%nat
    as Hlsrc.
  { subst src it2 code. rewrite length_append, Hlen. cbn. lia. }
  unfold insertion_point.
  assert (string_find "#version" src 0 = Some 0%nat) as ->.
  { unfold string_find. destruct (decide _) as [_|?]; [|lia]. by rewrite Hsrc. }
  cbn [Nat.add].
  assert (string_drop 8 src = String " " (ver +:+ profile +:+ line_end)) as ->
    by (by rewrite Hsrc).
  assert (skip_while is_blank (String " " (ver +:+ profile +:+ line_end)) 8
          = 9%nat) as ->.
  { change (skip_while is_blank (String " " (ver +:+ profile +:+ line_end)) 8)
      with (skip_while is_blank (ver +:+ profile +:+ line_end) 9).
    destruct ver as [|d ver]; [done|].
    rewrite append_cons. apply skip_blank_digit.
    cbn [all_digits] in Hver. by apply andb_prop in Hver as [Hd _]. }
  assert (string_drop 9 src = ver +:+ profile +:+ line_end) as ->
    by (by rewrite Hsrc).
  assert (skip_while is_digit (ver +:+ profile +:+ line_end) 9 = it2) as ->.
  { apply elem_of_cons in Hprofile as [->|Hprofile];
      [by apply skip_while_digits|].
    apply elem_of_cons in Hprofile as [->|Hprofile];
      [by apply skip_while_digits|].
    apply elem_of_cons in Hprofile as [->|Hprofile];
      [by apply skip_while_digits|].
    apply list_elem_of_singleton in Hprofile as ->.
    by apply skip_while_digits. }
  assert (∀ it, it = (String.length profile + it2)%nat →
            skip_comments (S (String.length src)) src it
            = Done (String.length ("#version " +:+ ver +:+ profile +:+ nl)))
    as Hcomments.
  { intros it ->. rewrite Hlen.
    apply (skip_comments_code src _ _ c rest); [lia| |done..].
    rewrite Hdrop. apply string_drop_append. }
  pose proof (Hdrop 0%nat) as Hd0. cbn [Nat.add string_drop] in Hd0.
  rewrite Hd0.
  apply elem_of_cons in Hprofile as [->|Hprofile].
  { change (EmptyString +:+ line_end) with line_end in *.
    change (skip_while is_blank line_end it2) with it2. rewrite Hd0.
    change (starts_with "core" line_end) with false. cbn match. rewrite Hd0.
    change (starts_with "compatibility" line_end) with false. cbn match.
    rewrite Hd0. change (starts_with "es" line_end) with false. cbn match.
    by rewrite (Hcomments it2 eq_refl). }
  apply elem_of_cons in Hprofile as [->|Hprofile].
  { change (skip_while is_blank (" core" +:+ line_end) it2) with (1 + it2)%nat.
    rewrite (Hdrop 1%nat).
    change (starts_with "core" (string_drop 1 (" core" +:+ line_end))) with true.
    cbn match. replace (1 + it2 + 4)%nat with (5 + it2)%nat by lia.
    rewrite (Hdrop 5%nat).
    change (string_drop 5 (" core" +:+ line_end)) with line_end.
    change (starts_with "compatibility" line_end) with false. cbn match.
    rewrite (Hdrop 5%nat).
    change (string_drop 5 (" core" +:+ line_end)) with line_end.
    change (starts_with "es" line_end) with false. cbn match.
    by rewrite (Hcomments (5 + it2)%nat eq_refl). }
  apply elem_of_cons in Hprofile as [->|Hprofile].
  { change (skip_while is_blank (" compatibility" +:+ line_end) it2)
      with (1 + it2)%nat.
    rewrite (Hdrop 1%nat).
    change (starts_with "core" (string_drop 1 (" compatibility" +:+ line_end)))
      with false.
    cbn match. rewrite (Hdrop 1%nat).
    change (starts_with "compatibility"
              (string_drop 1 (" compatibility" +:+ line_end))) with true.
    cbn match. replace (1 + it2 + 13)%nat with (14 + it2)%nat by lia.
    rewrite (Hdrop 14%nat).
    change (string_drop 14 (" compatibility" +:+ line_end)) with line_end.
    change (starts_with "es" line_end) with false. cbn match.
    by rewrite (Hcomments (14 + it2)%nat eq_refl). }
  apply list_elem_of_singleton in Hprofile as ->.
  change (skip_while is_blank (" es" +:+ line_end) it2) with (1 + it2)%nat.
  rewrite (Hdrop 1%nat).
  change (starts_with "core" (string_drop 1 (" es" +:+ line_end))) with false.
  cbn match. rewrite (Hdrop 1%nat).
  change (starts_with "compatibility" (string_drop 1 (" es" +:+ line_end)))
    with false.
  cbn match. rewrite (Hdrop 1%nat).
  change (starts_with "es" (string_drop 1 (" es" +:+ line_end))) with true.
  cbn match. replace (1 + it2 + 2)%nat with (3 + it2)%nat by lia.
  by rewrite (Hcomments (3 + it2)%nat eq_refl).
Qed.

Lemma insert_block_after_version_line (block ver profile : string) (c : ascii)
    (rest : string) :
  ver ≠ EmptyString → all_digits ver = true →
  profile ∈ [EmptyString; " core"; " compatibility"; " es"] →
  is_space c = false → c ≠ "/"%char → c ≠ "#"%char →
  insert_block block [("#version " +:+ ver +:+ profile +:+ nl) +:+ String c rest]
  = Done [("#version " +:+ ver +:+ profile +:+ nl) +:+ block +:+ String c rest].
Proof.
  intros Hne Hver Hprofile Hc Hslash Hhash. cbn [insert_block].
  rewrite insertion_after_version_line by done. cbn [mbind outcome_bind].
  unfold string_insert.
  pose proof (length_append ("#version " +:+ ver +:+ profile +:+ nl)
                (String c rest)) as Hl.
  destruct (decide _) as [_|Hgt]; [|lia].
  cbn [mbind outcome_bind].
  by rewrite substring_append_l, string_drop_append.
Qed.

(** X29: The patch as it is meant: for a single source whose [#version]
    line, with or without a profile, is followed by code, and which has
    neither block yet, both blocks are put between the line and the code,
    each on a line of its own, the out block first; a vertex shader gets the
    out block alone. *)
Theorem blocks_precede_code (type : ShaderStage) (ver profile : string)
    (c : ascii) (rest : string) :
  type ≠ eGL_FRAGMENT_SHADER → type ≠ eGL_COMPUTE_SHADER →
  ver ≠ EmptyString → all_digits ver = true →
  profile ∈ [EmptyString; " core"; " compatibility"; " es"] →
  is_space c = false → c ≠ "/"%char → c ≠ "#"%char →
  let line := "#version " +:+ ver +:+ profile +:+ nl in
  c_str (line +:+ String c rest) = line +:+ String c rest →
  already "out gl_PerVertex" [line +:+ String c rest] = false →
  type = eGL_VERTEX_SHADER ∨
  already "in gl_PerVertex" [line +:+ String c rest] = false →
  patched_strings 0 type [line +:+ String c rest]
  = Done [line +:+ (blocks type).2 +:+ (blocks type).1 +:+ String c rest].
Proof.
  intros Hfragment Hcompute Hne Hver Hprofile Hc Hslash Hhash line Hstr Hout Hin.
  unfold patched_strings.
  rewrite (bool_decide_eq_false_2 _ Hfragment), (bool_decide_eq_false_2 _ Hcompute).
  cbn [Z.eqb negb andb].
  unfold patch_block. cbn [map Nat.eqb blockIdentifiers fst snd].
  rewrite Hstr, Hout.
  assert (∀ b0 : string,
            (∃ i r, b0 +:+ String c rest = String i r ∧ is_space i = false ∧
                    i ≠ "/"%char ∧ i ≠ "#"%char) →
            insert_block (blocks type).2 [line +:+ b0 +:+ String c rest]
            = Done [line +:+ (blocks type).2 +:+ b0 +:+ String c rest]) as Hsecond.
  { intros b0 (i & r & -> & Hi & Hislash & Hihash).
    by apply insert_block_after_version_line. }
  destruct Hin as [->|Hin].
  - cbn [mbind outcome_bind]. apply (Hsecond EmptyString). by exists c, rest.
  - rewrite Hin.
    assert (insert_block (blocks type).1 [line +:+ String c rest]
            = Done [line +:+ (blocks type).1 +:+ String c rest]) as Hfirst
      by (by apply insert_block_after_version_line).
    destruct type; cbn [mbind outcome_bind];
      try (rewrite Hfirst; cbn [mbind outcome_bind]; apply Hsecond;
           eexists _, _; split; [reflexivity|done]).
    apply (Hsecond EmptyString). by exists c, rest.
Qed.

Lemma blocks_precede_code_witness :
  let line := "#version " +:+ "330" +:+ " core" +:+ nl in
  patched_strings 0 eGL_GEOMETRY_SHADER [line +:+ String "v" "oid main() {}"]
  = Done [line +:+ (blocks eGL_GEOMETRY_SHADER).2
            +:+ (blocks eGL_GEOMETRY_SHADER).1 +:+ String "v" "oid main() {}"].
Proof.
  apply (blocks_precede_code eGL_GEOMETRY_SHADER "330" " core" "v" "oid main() {}").
  - discriminate.
  - discriminate.
  - discriminate.
  - reflexivity.
  - apply elem_of_cons; right; apply elem_of_cons; left; reflexivity.
  - reflexivity.
  - discriminate.
  - discriminate.
  - vm_compute. reflexivity.
  - vm_compute. reflexivity.
  - right. vm_compute. reflexivity.
Defined.
